(** * Vault watching in viper: a shallow embedding of [vault.go]

    The development follows the source file top-down: time values, the
    string helpers the code calls, the [Watchable] queue with Go's
    [container/heap] algorithms on top of it, the vault client ([get] and
    its helpers), the watch loop [watchVault] and the registration entry
    point [AddVault].  The theorems come after all the definitions. *)

From stdpp Require Import gmap strings list fin_maps sorting.
From Stdlib Require Import ZArith Ascii.

Local Open Scope string_scope.
Local Open Scope Z_scope.
Local Open Scope list_scope.

(** ** Time

    [time.Time] is an instant with nanosecond resolution; it is modelled as
    the number of nanoseconds since the Unix epoch.  [time.Duration] is a
    signed 64-bit count of nanoseconds whose arithmetic wraps around. *)

Module time.

Definition Time := Z.
Definition Duration := Z.

Definition Second : Duration := 1000000000.

(** Two's complement wrap-around of a 64-bit signed integer. *)
Definition wrap64 (x : Z) : Z := (x + 2 ^ 63) mod 2 ^ 64 - 2 ^ 63.

(** [time.Duration(n) * time.Second] for an [int] [n]. *)
Definition Seconds (n : Z) : Duration := wrap64 (n * Second).

(** [t.Add(d)]. *)
Definition Add (t : Time) (d : Duration) : Time := t + d.

(** [t.Unix()]: whole seconds since the epoch, rounding down. *)
Definition Unix (t : Time) : Z := t / Second.

Definition minDuration : Duration := - 2 ^ 63.
Definition maxDuration : Duration := 2 ^ 63 - 1.

(** [t.Sub(u)], as used by [time.Until]: the difference, saturating at
    the least and the greatest [Duration]. *)
Definition Sub (t u : Time) : Duration :=
  Z.max minDuration (Z.min maxDuration (t - u)).

End time.

(** ** The string helpers of package [strings] that the code calls *)

Module strings.

(** [strings.HasPrefix(s, prefix)]. *)
Fixpoint HasPrefix (s pre : string) {struct pre} : bool :=
  match pre, s with
  | EmptyString, _ => true
  | String _ _, EmptyString => false
  | String a pre', String b s' =>
      if Ascii.eqb a b then HasPrefix s' pre' else false
  end.

(** What is left of [s] once [pre] has been read off its front, if
    [pre] is a prefix of [s]. *)
Fixpoint strip (s pre : string) {struct pre} : option string :=
  match pre, s with
  | EmptyString, _ => Some s
  | String _ _, EmptyString => None
  | String a pre', String b s' =>
      if Ascii.eqb a b then strip s' pre' else None
  end.

(** [strings.TrimPrefix(s, prefix)]. *)
Definition TrimPrefix (s pre : string) : string :=
  match strip s pre with
  | Some rest => rest
  | None => s
  end.

(** [strings.Split(s, sep)] for a separator of one byte, the only way
    the code calls it.  The result is never empty: a string without the
    separator yields the one-element slice holding the string itself. *)
Fixpoint Split (s : string) (sep : Ascii.ascii) : list string :=
  match s with
  | EmptyString => [EmptyString]
  | String a s' =>
      if Ascii.eqb a sep then EmptyString :: Split s' sep
      else match Split s' sep with
           | [] => [String a EmptyString]
           | w :: ws => String a w :: ws
           end
  end.

(** Whether the byte [c] occurs in [s]. *)
Fixpoint Contains (s : string) (c : Ascii.ascii) : bool :=
  match s with
  | EmptyString => false
  | String a s' => if Ascii.eqb a c then true else Contains s' c
  end.

(** [s[:len(s)-1]]; slicing the empty string that way is out of range. *)
Fixpoint dropLast (s : string) : option string :=
  match s with
  | EmptyString => None
  | String a EmptyString => Some EmptyString
  | String a s' => String a <$> dropLast s'
  end.

End strings.

(** ** The due-time queue *)

Record Watchable := mkWatchable {
  path : string;
  nextGet : time.Time
}.

Abbreviation watchableHeap := (list Watchable).

(** The key the queue orders its entries by: [nextGet.Unix()]. *)
Definition dueSecond (w : Watchable) : Z := time.Unix (nextGet w).

(** The methods of [watchableHeap] ([sort.Interface] plus [Push] and
    [Pop]).  Indexing outside the slice panics in Go; here it is [None]. *)
Module watchableHeap_.

Definition Len (h : watchableHeap) : nat := length h.

Definition Less (h : watchableHeap) (i j : nat) : option bool :=
  a ← h !! i; b ← h !! j; Some (dueSecond a <? dueSecond b)%Z.

Definition Swap (h : watchableHeap) (i j : nat) : option watchableHeap :=
  a ← h !! i; b ← h !! j; Some (<[j:=a]> (<[i:=b]> h)).

Definition Push (h : watchableHeap) (val : Watchable) : watchableHeap :=
  h ++ [val].

Definition Pop (h : watchableHeap) : option (Watchable * watchableHeap) :=
  let size := length h in
  if decide (size = 0%nat) then None
  else
    val ← h !! (size - 1)%nat;
    Some (val, take (size - 1) h).

End watchableHeap_.

(** Go's [container/heap], instantiated at [watchableHeap].  The two
    loops run on fuel; [up] and [down] give them enough of it (a strictly
    decreasing, respectively strictly increasing, index below the length).
    Indices are natural numbers: the parent [(j - 1) / 2] of the root is
    the root, as with Go's truncating division, and the test [j1 < 0] of
    [down], which guards against overflow of [int], has no counterpart.
    [down] also reports whether it moved the element; [Push] and [Pop]
    discard that, so it is left out. *)
Module heap.

Import watchableHeap_.

Fixpoint up_loop (fuel : nat) (h : watchableHeap) (j : nat)
  : option watchableHeap :=
  match fuel with
  | O => None
  | S fuel' =>
      let i := ((j - 1) / 2)%nat in
      if decide (i = j) then Some h
      else
        less ← Less h j i;
        if negb less then Some h
        else h' ← Swap h i j; up_loop fuel' h' i
  end.

Definition up (h : watchableHeap) (j : nat) : option watchableHeap :=
  up_loop (S j) h j.

Fixpoint down_loop (fuel : nat) (h : watchableHeap) (i n : nat)
  : option watchableHeap :=
  match fuel with
  | O => None
  | S fuel' =>
      let j1 := (2 * i + 1)%nat in
      if decide (n ≤ j1)%nat then Some h
      else
        let j2 := (j1 + 1)%nat in
        j ← (if decide (j2 < n)%nat
             then less ← Less h j2 j1; Some (if less : bool then j2 else j1)
             else Some j1);
        less ← Less h j i;
        if negb less then Some h
        else h' ← Swap h i j; down_loop fuel' h' j n
  end.

Definition down (h : watchableHeap) (i0 n : nat) : option watchableHeap :=
  down_loop (S n) h i0 n.

(** [heap.Push(&h, x)]. *)
Definition Push (h : watchableHeap) (x : Watchable) : option watchableHeap :=
  let h1 := watchableHeap_.Push h x in
  up h1 (Len h1 - 1).

(** [heap.Pop(&h)].  On an empty heap [n] is -1 and [Swap(0, n)] is out
    of range. *)
Definition Pop (h : watchableHeap) : option (Watchable * watchableHeap) :=
  if decide (Len h = 0%nat) then None
  else
    let n := (Len h - 1)%nat in
    h1 ← Swap h 0 n;
    h2 ← down h1 0 n;
    watchableHeap_.Pop h2.

End heap.

(** ** What the outside world provides

    The vault server, the clock, the subscriber of the alert channel and
    Go's runtime (which picks the order a [range] visits a map in) are not
    part of the program.  They are an interface over a world state [W]
    that every operation may change. *)

Definition error := string.

(** A value of Go's [any], as far as the code looks into it: a string or
    something else (including the nil interface of an absent map key). *)
Inductive any :=
| AnyString (s : string)
| AnyOther.

(** [data.Data.Metadata["version"]]: absent or not a [json.Number] (the
    type assertion panics), a [json.Number] that [Int64] rejects, or one it
    accepts. *)
Inductive versionField :=
| VersionMissing
| VersionInvalid (err : error)
| VersionNumber (n : Z).

Record KvV2ReadResponse := mkKvV2 {
  kvData : gmap string any;
  kvVersion : versionField
}.

Record DatabaseCredentials := mkDbCreds {
  dbUsername : any;
  dbPassword : any;
  LeaseDuration : Z
}.

(** An entry of [vaults.Data.Secret]: a [map[string]any] with its ["type"]
    field, or anything else. *)
Inductive mountData :=
| MountMap (type : any)
| MountOther.

(** Pair of key and value *)
Record KVEntry := mkKVEntry {
  Key : string;
  Value : string
}.

Class Env (W : Type) := {
  InternalUiListEnabledVisibleMounts :
    W → W * (error + gmap string mountData);
  KvV2Read : W → string → string → W * (error + KvV2ReadResponse);
  DatabaseGenerateCredentials :
    W → string → string → W * (error + DatabaseCredentials);
  (** [time.Now()] *)
  Now : W → W * time.Time;
  (** [time.Sleep(d)] *)
  Sleep : W → time.Duration → W;
  (** [AlertChannel <- e]: the send returns once the subscriber has taken
      the entry *)
  Send : W → KVEntry → W;
  (** the choices that fix the order of one [range] over a map *)
  RangeChoices : W → W * list nat
}.

(** The order a [range] visits the entries in: any permutation of them,
    read off the runtime's choices. *)
Fixpoint rangeOrder {A} (choices : list nat) (l : list A) : list A :=
  match choices with
  | [] => l
  | c :: cs =>
      match l with
      | [] => []
      | x :: _ =>
          let i := (c mod length l)%nat in
          nth i l x :: rangeOrder cs (delete i l)
      end
  end.

(** ** Program state *)

(** Configuration for watching for vault's secrets.
    Version period - how often to check for changes in secrets (0 if never).
    The alert channel is the [Send] of the environment. *)
Record VaultWatchConfig := mkWatchConfig {
  VersionPeriod : time.Duration
}.

(** The maps [leases] and [versions] are nil until [AddVault] makes them;
    a nil map reads as the empty one, and every write below sits under
    the same guard as the [make] of its map. *)
Record vaultClient := mkClient {
  vaults : gmap string string;
  leases : gmap string Z;
  versions : gmap string Z;
  watchConfig : option VaultWatchConfig
}.

(** Modelled from the spec: the [Viper] struct is declared outside
    [vault.go]; of it the code uses the cache [secretstore], from path to
    current value, and the logger. *)
Record Viper := mkViper {
  secretstore : gmap string string
}.

(** What the program did, oldest first.  The trace is a record kept next
    to the state; the program never reads it. *)
Inductive Effect :=
| EKvV2Read (mount key : string)
| EDatabaseGenerateCredentials (mount role : string)
| EStore (path value : string)
| ESend (e : KVEntry)
| EClose
| ELogError (args : list string)
| ESleep (d : time.Duration)
| EGoWatchVault.

(** What the cache and the subscriber get to see of a trace: the cache
    writes, the sends and the close of the alert channel, and the start
    of the watch goroutine. *)
Definition isOutput (e : Effect) : bool :=
  match e with
  | EStore _ _ | ESend _ | EClose | EGoWatchVault => true
  | _ => false
  end.

Definition outputs (t : list Effect) : list Effect := filter isOutput t.

(** The calls to the vault server in a trace. *)
Definition isFetch (e : Effect) : bool :=
  match e with
  | EKvV2Read _ _ | EDatabaseGenerateCredentials _ _ => true
  | _ => false
  end.

Definition fetches (t : list Effect) : list Effect := filter isFetch t.

Section program.

Context {W : Type} `{!Env W}.

Record State := mkState {
  world : W;
  client : vaultClient;
  viper : Viper;
  trace : list Effect
}.

(** A computation either finishes with a value or panics. *)
Inductive Result (A : Type) :=
| Done (a : A) (s : State)
| Panic (msg : string) (s : State).
Global Arguments Done {A} a s.
Global Arguments Panic {A} msg s.

Definition M (A : Type) : Type := State → Result A.

Global Instance M_ret : MRet M := λ A a s, Done a s.
Global Instance M_bind : MBind M := λ A B f m s,
  match m s with
  | Done a s' => f a s'
  | Panic msg s' => Panic msg s'
  end.

Definition panic {A} (msg : string) : M A := λ s, Panic msg s.

Definition getState : M State := λ s, Done s s.

Definition emit (e : Effect) : M unit := λ s,
  Done tt (mkState (world s) (client s) (viper s) (trace s ++ [e])).

(** Run an operation of the environment on the world. *)
Definition call {A} (op : W → W * A) : M A := λ s,
  let '(w, a) := op (world s) in
  Done a (mkState w (client s) (viper s) (trace s)).

Definition setClient (f : vaultClient → vaultClient) : M unit := λ s,
  Done tt (mkState (world s) (f (client s)) (viper s) (trace s)).

Definition setViper (f : Viper → Viper) : M unit := λ s,
  Done tt (mkState (world s) (client s) (f (viper s)) (trace s)).

(** [for k, v := range m], in the order the runtime chooses. *)
Definition range {V} (m : gmap string V) : M (list (string * V)) :=
  choices ← call RangeChoices;
  mret (rangeOrder choices (map_to_list m)).

(** The state a computation ends in, finished or panicked. *)
Definition stateOf {A} (r : Result A) : State :=
  match r with
  | Done _ s => s
  | Panic _ s => s
  end.

(** [m] takes every state to one related to it by [R]. *)
Definition keeps {A} (R : relation State) (m : M A) : Prop :=
  ∀ s, R s (stateOf (m s)).

(** A step that leaves alone the cache, the mount table and the watch
    configuration, and shows nothing to the cache or the subscriber. *)
Definition quiet (s s' : State) : Prop :=
  viper s' = viper s
  ∧ vaults (client s') = vaults (client s)
  ∧ watchConfig (client s') = watchConfig (client s)
  ∧ outputs (trace s') = outputs (trace s).

(** The value a computation finishes with, if it does. *)
Definition valueOf {A} (r : Result A) : option A :=
  match r with
  | Done a _ => Some a
  | Panic _ _ => None
  end.

(** A step that leaves the client and the cache alone. *)
Definition sameClient (s s' : State) : Prop :=
  client s' = client s ∧ viper s' = viper s.

(** A step that leaves the cache alone and shows nothing to the cache
    or the subscriber. *)
Definition silent (s s' : State) : Prop :=
  viper s' = viper s ∧ outputs (trace s') = outputs (trace s).

(** A step that also leaves the whole client and the trace alone: only
    the world moves. *)
Definition worldOnly (s s' : State) : Prop :=
  viper s' = viper s ∧ client s' = client s ∧ trace s' = trace s.

Definition liftOption {A} (msg : string) (o : option A) : M A :=
  match o with
  | Some a => mret a
  | None => panic msg
  end.

(** ** The vault client *)

Definition isVersionable (vtype : string) : bool := String.eqb vtype "kv".

Definition isLeasable (vtype : string) : bool := String.eqb vtype "database".

Definition setVaults (m : gmap string string) (c : vaultClient) : vaultClient :=
  mkClient m (leases c) (versions c) (watchConfig c).

Definition setLeases (m : gmap string Z) (c : vaultClient) : vaultClient :=
  mkClient (vaults c) m (versions c) (watchConfig c).

Definition setVersions (m : gmap string Z) (c : vaultClient) : vaultClient :=
  mkClient (vaults c) (leases c) m (watchConfig c).

Definition setWatchConfig (cfg : option VaultWatchConfig) (c : vaultClient)
  : vaultClient :=
  mkClient (vaults c) (leases c) (versions c) cfg.

(** The body of the [range] loop of [ConfigureVault], entry by entry. *)
Fixpoint configureMounts (items : list (string * mountData)) : M unit :=
  match items with
  | [] => mret tt
  | (vault, data) :: rest =>
      if strings.HasPrefix vault "sys/"
         || String.eqb vault "cubbyhole/"
         || String.eqb vault "identity/"
      then configureMounts rest
      else
        match data with
        | MountMap (AnyString vtype) =>
            _ ← setClient (λ c, setVaults (<[vault := vtype]> (vaults c)) c);
            configureMounts rest
        | _ => panic "interface conversion"
        end
  end.

Definition ConfigureVault : M (option error) :=
  r ← call InternalUiListEnabledVisibleMounts;
  match r with
  | inl err => mret (Some err)
  | inr secret =>
      _ ← setClient (setVaults ∅);
      items ← range secret;
      _ ← configureMounts items;
      mret None
  end.

Definition getKV2 (mountPath key secretName : string)
  : M (error + string * Z) :=
  _ ← emit (EKvV2Read mountPath key);
  r ← call (λ w, KvV2Read w key mountPath);
  match r with
  | inl err => mret (inl err)
  | inr data =>
      match kvData data !! secretName with
      | Some (AnyString secret) =>
          match kvVersion data with
          | VersionMissing => panic "interface conversion"
          | VersionInvalid err => mret (inl err)
          | VersionNumber version => mret (inr (secret, version))
          end
      | _ => mret (inl ("Secret ( " +:+ secretName +:+ " ) does not exist."))
      end
  end.

Definition getDBCreds (mountPath role : string) : M (error + string * Z) :=
  _ ← emit (EDatabaseGenerateCredentials mountPath role);
  r ← call (λ w, DatabaseGenerateCredentials w role mountPath);
  match r with
  | inl err => mret (inl err)
  | inr data =>
      match dbUsername data, dbPassword data with
      | AnyString username, AnyString password =>
          mret (inr (username +:+ ":" +:+ password, LeaseDuration data))
      | _, _ => panic "interface conversion"
      end
  end.

(** The [range] loop of [getVaultTypePath] over the mounts in the order
    visited: the first mount that is a prefix of the key wins. *)
Fixpoint findMount (key : string) (items : list (string * string))
  : M (string * string * option error) :=
  match items with
  | [] =>
      mret ("", "", Some ("Secrets engine for key ( " +:+ key
                            +:+ " ) does not exist."))
  | (vault, vtype) :: rest =>
      if strings.HasPrefix key vault then
        mountPath ← liftOption "slice bounds out of range"
                      (strings.dropLast vault);
        mret (vtype, mountPath, None)
      else findMount key rest
  end.

Definition getVaultTypePath (key : string)
  : M (string * string * option error) :=
  s ← getState;
  items ← range (vaults (client s));
  findMount key items.

Definition get (key : string) : M (error + string * Z) :=
  '(vaultType, mountPath, err) ← getVaultTypePath key;
  let key := strings.TrimPrefix key (mountPath +:+ "/") in
  match err with
  | Some e => mret (inl e)
  | None =>
      if String.eqb vaultType "kv" then
        let keyWithName := strings.Split key ":" in
        match keyWithName !! 0%nat, keyWithName !! 1%nat with
        | Some key0, Some key1 =>
            r ← getKV2 mountPath key0 key1;
            match r with
            | inl e => mret (inl e)
            | inr (resp, version) =>
                s ← getState;
                _ ← match watchConfig (client s) with
                    | Some cfg =>
                        if decide (VersionPeriod cfg ≠ 0) then
                          setClient (λ c, setVersions
                            (<[mountPath +:+ "/" +:+ key := version]>
                               (versions c)) c)
                        else mret tt
                    | None => mret tt
                    end;
                mret (inr (resp, version))
            end
        | _, _ => panic "index out of range"
        end
      else if String.eqb vaultType "database" then
        r ← getDBCreds mountPath key;
        match r with
        | inl e => mret (inl e)
        | inr (resp, leaseTime) =>
            s ← getState;
            _ ← match watchConfig (client s) with
                | Some _ =>
                    setClient (λ c, setLeases
                      (<[mountPath +:+ "/" +:+ key := leaseTime]>
                         (leases c)) c)
                | None => mret tt
                end;
            mret (inr (resp, leaseTime))
        end
      else
        mret (inl ("Vault type ( " +:+ vaultType +:+ " ) is not supported."))
  end.

Definition Get (key : string) : M (string * option error) :=
  r ← get key;
  match r with
  | inl err => mret ("", Some err)
  | inr (bts, _) => mret (bts, None)
  end.

(** ** The watch loop *)

Definition sleep (d : time.Duration) : M unit :=
  _ ← emit (ESleep d);
  call (λ w, (Sleep w d, tt)).

(** [v.secretstore[path] = value] *)
Definition store (path value : string) : M unit :=
  _ ← emit (EStore path value);
  setViper (λ v, mkViper (<[path := value]> (secretstore v))).

(** [c.watchConfig.AlertChannel <- e] *)
Definition send (e : KVEntry) : M unit :=
  _ ← emit (ESend e);
  call (λ w, (Send w e, tt)).

(** The state [store] then [send] lead to: the cache holds the value,
    the subscriber has taken the entry. *)
Definition afterPublish (path data : string) (s : State) : State :=
  mkState (Send (world s) (mkKVEntry path data)) (client s)
    (mkViper (<[path := data]> (secretstore (viper s))))
    (trace s ++ [EStore path data; ESend (mkKVEntry path data)]).

Definition heapPush (h : watchableHeap) (x : Watchable) : M watchableHeap :=
  liftOption "index out of range" (heap.Push h x).

Definition heapPop (h : watchableHeap) : M (Watchable * watchableHeap) :=
  liftOption "index out of range" (heap.Pop h).

(** How one turn of the [for] loop ends: the loop goes on with the
    queue, or the goroutine returns (the queue it leaves behind is kept
    for the record). *)
Inductive LoopCtl :=
| Continue (h : watchableHeap)
| Return (h : watchableHeap).

(** [c.vaults[strings.Split(event.path, "/")[0]+"/"]]; a missing key
    reads as the empty string. *)
Definition eventVaultTypeOf (c : vaultClient) (event : Watchable)
  : option string :=
  mount ← strings.Split (path event) "/" !! 0%nat;
  Some (default "" (vaults c !! (mount +:+ "/"))).

(** [time.Sleep(time.Until(event.nextGet))] *)
Definition awaitDue (event : Watchable) : M unit :=
  now ← call Now;
  sleep (time.Sub (nextGet event) now).

(** The state the loop wakes up in for the entry. *)
Definition awake (event : Watchable) (s : State) : State :=
  stateOf (awaitDue event s).

(** The rest of the turn, once the entry is due: fetch, apply the
    policy of the mount type, push the entry back. *)
Definition service (eventVaultType : string) (event : Watchable)
    (h : watchableHeap) : M LoopCtl :=
  s ← getState;
  cfg ← liftOption "nil pointer dereference" (watchConfig (client s));
  if bool_decide (VersionPeriod cfg ≠ 0) && isVersionable eventVaultType
  then
    let oldVersion := default 0 (versions (client s) !! path event) in
    r ← get (path event);
    match r with
    | inl err =>
        _ ← emit (ELogError
              ["Error watching versionable vault secret on path";
               path event; err]);
        mret (Return h)
    | inr (data, version) =>
        _ ← (if decide (version > oldVersion) then
               _ ← store (path event) data;
               send (mkKVEntry (path event) data)
             else mret tt);
        now ← call Now;
        h ← heapPush h (mkWatchable (path event)
                          (time.Add now (VersionPeriod cfg)));
        mret (Continue h)
    end
  else if isLeasable eventVaultType then
    r ← get (path event);
    match r with
    | inl err =>
        _ ← emit (ELogError
              ["Error watching leasable vault secret on path";
               path event; err]);
        mret (Return h)
    | inr (data, leaseTime) =>
        _ ← store (path event) data;
        _ ← send (mkKVEntry (path event) data);
        now ← call Now;
        h ← heapPush h (mkWatchable (path event)
                          (time.Add now (time.Seconds leaseTime)));
        mret (Continue h)
    end
  else mret (Continue h).

(** One turn of the [for] loop of the goroutine. *)
Definition loopBody (h : watchableHeap) : M LoopCtl :=
  if decide (length h = 0%nat) then
    _ ← sleep (time.Seconds 1);
    mret (Continue h)
  else
    '(event, h) ← heapPop h;
    s ← getState;
    eventVaultType ← liftOption "index out of range"
                       (eventVaultTypeOf (client s) event);
    _ ← awaitDue event;
    service eventVaultType event h.

(** The first [n] turns of the loop, or fewer if it returns. *)
Fixpoint loop (n : nat) (h : watchableHeap) : M LoopCtl :=
  match n with
  | O => mret (Continue h)
  | S n' =>
      r ← loopBody h;
      match r with
      | Continue h' => loop n' h'
      | Return h' => mret (Return h')
      end
  end.

Fixpoint pushLeases (items : list (string * Z)) (h : watchableHeap)
  : M watchableHeap :=
  match items with
  | [] => mret h
  | (path, leaseTime) :: rest =>
      now ← call Now;
      h ← heapPush h (mkWatchable path
                        (time.Add now (time.Seconds leaseTime)));
      pushLeases rest h
  end.

Fixpoint pushVersions (period : time.Duration) (items : list (string * Z))
    (h : watchableHeap) : M watchableHeap :=
  match items with
  | [] => mret h
  | (path, _) :: rest =>
      now ← call Now;
      h ← heapPush h (mkWatchable path (time.Add now period));
      pushVersions period rest h
  end.

(** What [watchVault] has come to after [n] turns of its loop: it closed
    the channel and returned at once, its loop returned, or the loop is
    still going. *)
Inductive WatchStatus :=
| WatchClosed
| WatchReturned (h : watchableHeap)
| WatchRunning (h : watchableHeap).

Definition watchVault (n : nat) : M WatchStatus :=
  s ← getState;
  items ← range (leases (client s));
  h ← pushLeases items [];
  cfg ← liftOption "nil pointer dereference" (watchConfig (client s));
  h ← (if decide (VersionPeriod cfg ≠ 0) then
         items ← range (versions (client s));
         pushVersions (VersionPeriod cfg) items h
       else mret h);
  if decide (length h = 0%nat) then
    _ ← emit (ELogError ["No watchable paths found for vault watching."]);
    _ ← emit EClose;
    mret WatchClosed
  else
    r ← loop n h;
    match r with
    | Continue h' => mret (WatchRunning h')
    | Return h' => mret (WatchReturned h')
    end.

(** ** Registration *)

(** The error [AddVault] wraps a failed fetch in. *)
Definition addError (e : error) (path : string) : error :=
  "Error while adding vault: " +:+ e +:+ ", path: " +:+ path.

(** The [range paths] loop of [AddVault]. *)
Fixpoint addPaths (paths : list string) : M (option error) :=
  match paths with
  | [] => mret None
  | path :: rest =>
      '(data, err) ← Get path;
      match err with
      | Some e => mret (Some (addError e path))
      | None =>
          _ ← store path data;
          addPaths rest
      end
  end.

(** The start of [AddVault]: a fresh client, its mounts, and the maps
    the watch needs. *)
Definition newClient (watchConfig : option VaultWatchConfig)
  : M (option error) :=
  _ ← setClient (λ _, mkClient ∅ ∅ ∅ None);
  err ← ConfigureVault;
  match err with
  | Some e => mret (Some e)
  | None =>
      _ ← match watchConfig with
          | Some cfg =>
              _ ← setClient (setWatchConfig (Some cfg));
              _ ← setClient (setLeases ∅);
              if decide (VersionPeriod cfg ≠ 0)
              then setClient (setVersions ∅)
              else mret tt
          | None => mret tt
          end;
      mret None
  end.

(** AddVault adds a vault to the viper.  [watchConfig] is [None] if there
    are no dynamic secrets.  The goroutine it starts is the effect
    [EGoWatchVault]; [AddVaultAndWatch] runs it. *)
Definition AddVault (watchConfig : option VaultWatchConfig)
    (paths : list string) : M (option error) :=
  err ← newClient watchConfig;
  match err with
  | Some e => mret (Some e)
  | None =>
      err ← addPaths paths;
      match err with
      | Some e => mret (Some e)
      | None =>
          _ ← match watchConfig with
              | Some _ => emit EGoWatchVault
              | None => mret tt
              end;
          mret None
      end
  end.

(** [AddVault] followed by [n] turns of the watch loop it started, if it
    started one. *)
Definition AddVaultAndWatch (n : nat) (watchConfig : option VaultWatchConfig)
    (paths : list string) : M (option error * option WatchStatus) :=
  err ← AddVault watchConfig paths;
  match err, watchConfig with
  | None, Some _ => st ← watchVault n; mret (None, Some st)
  | _, _ => mret (err, None)
  end.

End program.

(** ** A scripted world to run the program in

    The server answers the reads of versioned secrets and the credential
    requests from two scripts, one answer per call (an exhausted script
    answers with an error); the clock moves when the program sleeps and
    while the subscriber takes [sendDelay] to accept an entry; a [range]
    visits a map in the order of its entry list. *)
Module Script.

Record World := mkWorld {
  clock : time.Time;
  mounts : gmap string mountData;
  kvAnswers : list (error + KvV2ReadResponse);
  dbAnswers : list (error + DatabaseCredentials);
  sendDelay : time.Duration
}.

Definition answer {A} (l : list (error + A)) : (error + A) * list (error + A) :=
  match l with
  | [] => (inl "connection refused", [])
  | a :: rest => (a, rest)
  end.

#[global] Instance env : Env World := {|
  InternalUiListEnabledVisibleMounts w := (w, inr (mounts w));
  KvV2Read w _ _ :=
    let '(a, rest) := answer (kvAnswers w) in
    (mkWorld (clock w) (mounts w) rest (dbAnswers w) (sendDelay w), a);
  DatabaseGenerateCredentials w _ _ :=
    let '(a, rest) := answer (dbAnswers w) in
    (mkWorld (clock w) (mounts w) (kvAnswers w) rest (sendDelay w), a);
  Now w := (w, clock w);
  Sleep w d :=
    mkWorld (clock w + Z.max 0 d) (mounts w) (kvAnswers w) (dbAnswers w)
      (sendDelay w);
  Send w _ :=
    mkWorld (clock w + sendDelay w) (mounts w) (kvAnswers w) (dbAnswers w)
      (sendDelay w);
  RangeChoices w := (w, [])
|}.

Definition kvMount : gmap string mountData :=
  {[ "kv/" := MountMap (AnyString "kv") ]}.

Definition dbMount : gmap string mountData :=
  {[ "db/" := MountMap (AnyString "database") ]}.

(** A read of a versioned secret whose field [name] holds [value]. *)
Definition kvOk (name value : string) (version : Z)
  : error + KvV2ReadResponse :=
  inr (mkKvV2 {[ name := AnyString value ]} (VersionNumber version)).

Definition dbOk (user pass : string) (lease : Z)
  : error + DatabaseCredentials :=
  inr (mkDbCreds (AnyString user) (AnyString pass) lease).

Definition start (w : World) : State :=
  mkState w (mkClient ∅ ∅ ∅ None) (mkViper ∅) [].

(** A client that watches the leased path [db/role], whose lease of
    300 s runs out now, and a server that will issue a credential with
    a lease of 60 s. *)
Definition leasedEvent : Watchable := mkWatchable "db/role" 300000000000.

Definition leasedState (delay : time.Duration) : State :=
  mkState
    (mkWorld 300000000000 dbMount [] [dbOk "u2" "p2" 60] delay)
    (mkClient {[ "db/" := "database" ]} {[ "db/role" := 300 ]} ∅
       (Some (mkWatchConfig 0)))
    (mkViper {[ "db/role" := "u:p" ]}) [].

(** A client that polls the versioned path [kv/p:f] every 10 s with
    version [recorded] on record, and a server that will answer with
    version [fetched]. *)
Definition versionedEvent : Watchable := mkWatchable "kv/p:f" 10000000000.

Definition versionedStateWith (answers : list (error + KvV2ReadResponse))
    (recorded : Z) (delay : time.Duration) : State :=
  mkState
    (mkWorld 10000000000 kvMount answers [] delay)
    (mkClient {[ "kv/" := "kv" ]} ∅ {[ "kv/p:f" := recorded ]}
       (Some (mkWatchConfig 10000000000)))
    (mkViper {[ "kv/p:f" := "v1" ]}) [].

Definition versionedState (recorded fetched : Z) (delay : time.Duration)
  : State :=
  versionedStateWith [kvOk "f" "v2" fetched] recorded delay.

(** The same client facing a server that does not answer. *)
Definition unreachableState : State := versionedStateWith [] 1 0.

(** A watching client with nothing on record. *)
Definition nothingToWatch : State :=
  mkState (mkWorld 0 kvMount [] [] 0)
    (mkClient {[ "kv/" := "kv" ]} ∅ ∅ (Some (mkWatchConfig 10000000000)))
    (mkViper ∅) [].

(** A fresh viper facing a server with one kv mount that answers the
    first read and fails the second. *)
Definition beforeAddVault : State :=
  start (mkWorld 0 kvMount [kvOk "f" "v1" 1] [] 0).

(** Two entries due in the same second, the first one pushed being due
    later within it. *)
Definition lateEntry : Watchable := mkWatchable "a/x" 1900000000.
Definition earlyEntry : Watchable := mkWatchable "b/y" 1100000000.

End Script.

(** A world in which the server cannot be reached at all. *)
Module Offline.

#[global] Instance env : Env unit := {|
  InternalUiListEnabledVisibleMounts w := (w, inl "connection refused");
  KvV2Read w _ _ := (w, inl "connection refused");
  DatabaseGenerateCredentials w _ _ := (w, inl "connection refused");
  Now w := (w, 0);
  Sleep w _ := w;
  Send w _ := w;
  RangeChoices w := (w, [])
|}.

Definition start : State := mkState tt (mkClient ∅ ∅ ∅ None) (mkViper ∅) [].

End Offline.

(** A world in which the order of every [range] is given: the world is
    the list of choices the runtime makes, and the server cannot be
    reached. *)
Module Shuffled.

#[global] Instance env : Env (list nat) := {|
  InternalUiListEnabledVisibleMounts w := (w, inl "connection refused");
  KvV2Read w _ _ := (w, inl "connection refused");
  DatabaseGenerateCredentials w _ _ := (w, inl "connection refused");
  Now w := (w, 0);
  Sleep w _ := w;
  Send w _ := w;
  RangeChoices w := (w, w)
|}.



End Shuffled.

(** More clients and servers in the scripted world. *)
Module Cases.

Import Script.

(** A server that lists a kv mount next to mounts that are passed over,
    one of them with data that is not a map. *)
Definition mixedListing : gmap string mountData :=
  {[ "kv/" := MountMap (AnyString "kv");
     "sys/raw/" := MountOther;
     "cubbyhole/" := MountMap (AnyString "cubbyhole") ]}.

Definition beforeMixedListing : State := start (mkWorld 0 mixedListing [] [] 0).

(** A server that lists a mount whose data is not a map. *)
Definition beforeMalformedListing : State :=
  start (mkWorld 0 {[ "kv/" := MountOther ]} [] [] 0).

(** A client whose only mount is of a type the code does not fetch. *)
Definition pkiState : State :=
  mkState (mkWorld 0 ∅ [] [] 0) (mkClient {[ "pki/" := "pki" ]} ∅ ∅ None)
    (mkViper ∅) [].

(** The versioned client facing a secret without version, and one
    without the field. *)
Definition versionlessState : State :=
  versionedStateWith [inr (mkKvV2 {[ "f" := AnyString "v" ]} VersionMissing)]
    1 0.

Definition fieldlessState : State :=
  versionedStateWith [inr (mkKvV2 ∅ VersionMissing)] 1 0.

(** The leased client facing an answer without a string password. *)
Definition badCredentialsState : State :=
  mkState
    (mkWorld 300000000000 dbMount [] [inr (mkDbCreds (AnyString "u") AnyOther 60)]
       0)
    (mkClient {[ "db/" := "database" ]} {[ "db/role" := 300 ]} ∅
       (Some (mkWatchConfig 0)))
    (mkViper {[ "db/role" := "u:p" ]}) [].

(** An entry whose path starts with a segment that is no mount. *)
Definition strayEvent : Watchable := mkWatchable "team/db/role" 300000000000.

(** A client that does not watch. *)
Definition unwatchedState : State :=
  mkState (mkWorld 0 kvMount [kvOk "f" "v1" 1] [] 0)
    (mkClient {[ "kv/" := "kv" ]} ∅ ∅ None) (mkViper ∅) [].

End Cases.

(** ** Notions the statements use *)

(** Index of the parent of node [j] in the implicit binary tree. *)
Definition parent (j : nat) : nat := ((j - 1) / 2)%nat.

(** The entry at [i] is due no later, in whole seconds, than the one at
    [j]: [Less(j, i)] is false. *)
Definition leAt (h : watchableHeap) (i j : nat) : Prop :=
  ∀ a b, h !! i = Some a → h !! j = Some b → dueSecond a ≤ dueSecond b.

(** The first [n] entries form a heap under [Less]. *)
Definition heapUpTo (n : nat) (h : watchableHeap) : Prop :=
  ∀ k, (0 < k < n)%nat → leAt h (parent k) k.

Definition heapOrdered (h : watchableHeap) : Prop := heapUpTo (length h) h.

(** The queue is only ever changed by [heap.Push] and [heap.Pop]. *)
Inductive HeapOp :=
| OpPush (x : Watchable)
| OpPop.

(** Run a sequence of queue operations; the result is the queue left and
    the entries popped, oldest first. *)
Fixpoint runOps (ops : list HeapOp) (h : watchableHeap)
  : option (watchableHeap * list Watchable) :=
  match ops with
  | [] => Some (h, [])
  | OpPush x :: rest => h' ← heap.Push h x; runOps rest h'
  | OpPop :: rest =>
      '(x, h') ← heap.Pop h;
      '(hf, popped) ← runOps rest h';
      Some (hf, x :: popped)
  end.

(** The cache after the writes of [values] under [paths], pair by pair. *)
Definition storeAll (paths values : list string) (m : gmap string string)
  : gmap string string :=
  foldl (λ m pv, <[pv.1 := pv.2]> m) m (zip paths values).

(** The entries a sequence of queue operations pushes, oldest first. *)
Definition pushedOf (ops : list HeapOp) : list Watchable :=
  omap (λ op, match op with OpPush x => Some x | OpPop => None end) ops.

(** The mounts [ConfigureVault] passes over. *)
Definition skippedMount (vault : string) : bool :=
  strings.HasPrefix vault "sys/"
  || String.eqb vault "cubbyhole/"
  || String.eqb vault "identity/".

(** The type of a listed mount, when its data is a map whose ["type"] is
    a string. *)
Definition mountType (data : mountData) : option string :=
  match data with
  | MountMap (AnyString vtype) => Some vtype
  | _ => None
  end.

(** The paths [watchVault] is to queue: those with a lease on record
    and, unless the version period is zero, those with a version on
    record. *)
Definition watchedPaths (c : vaultClient) (cfg : VaultWatchConfig)
  : list string :=
  (map_to_list (leases c)).*1
  ++ (if decide (VersionPeriod cfg ≠ 0)
      then (map_to_list (versions c)).*1 else []).

(** A cache write followed by the send of the same pair, for each pair. *)
Definition publishPairs (l : list (string * string)) : list Effect :=
  l ≫= λ pv, [EStore pv.1 pv.2; ESend (mkKVEntry pv.1 pv.2)].

(** Whole seconds do not decrease along the list. *)
Definition dueSorted (l : list Watchable) : Prop :=
  StronglySorted (λ a b, dueSecond a ≤ dueSecond b) l.

(** The queue a turn of the loop leaves, whichever way it ends. *)
Definition queueOf (c : LoopCtl) : watchableHeap :=
  match c with
  | Continue h => h
  | Return h => h
  end.

(** The cache after the writes of the pairs, one after the other. *)
Definition storePairs (l : list (string * string)) (m : gmap string string)
  : gmap string string :=
  foldl (λ m pv, <[pv.1 := pv.2]> m) m l.

(** A step that makes no call to the vault server. *)
Definition noFetch {W} (s s' : @State W) : Prop :=
  fetches (trace s') = fetches (trace s).

(** Whether the loop fetches the entry it has popped: the mount type it
    finds under the first segment of the path is versionable and the
    version period is not zero, or the type is leasable. *)
Definition serviced (c : vaultClient) (event : Watchable) : bool :=
  match watchConfig c, eventVaultTypeOf c event with
  | Some cfg, Some vt =>
      bool_decide (VersionPeriod cfg ≠ 0) && isVersionable vt
      || isLeasable vt
  | _, _ => false
  end.


(** * Theorems *)

(** ** The queue *)

Section heap_facts.

Import watchableHeap_.

Implicit Types (h : watchableHeap) (i j k n : nat).

Lemma parent_children k :
  (0 < k)%nat → (k = 2 * parent k + 1 ∨ k = 2 * parent k + 2)%nat.
Proof.
  intros Hk. unfold parent.
  pose proof (Nat.div_mod_eq (k - 1) 2).
  pose proof (Nat.mod_upper_bound (k - 1) 2). lia.
Qed.

Lemma parent_lt k : (0 < k)%nat → (parent k < k)%nat.
Proof. intros Hk. destruct (parent_children k Hk); lia. Qed.

Lemma parent_of_left i : parent (2 * i + 1) = i.
Proof.
  unfold parent. replace (2 * i + 1 - 1)%nat with (i * 2)%nat by lia.
  apply Nat.div_mul. lia.
Qed.

Lemma parent_of_right i : parent (2 * i + 2) = i.
Proof.
  pose proof (parent_children (2 * i + 2)). lia.
Qed.

Lemma Less_Some h i j b :
  Less h i j = Some b →
  ∃ x y, h !! i = Some x ∧ h !! j = Some y
         ∧ b = (dueSecond x <? dueSecond y)%Z.
Proof.
  unfold Less. intros Hl.
  destruct (h !! i) as [x|]; [|done].
  destruct (h !! j) as [y|]; [|done].
  simpl in Hl. exists x, y. naive_solver.
Qed.

Lemma Less_defined h i j :
  (i < length h)%nat → (j < length h)%nat → is_Some (Less h i j).
Proof.
  intros [x Hx]%lookup_lt_is_Some [y Hy]%lookup_lt_is_Some.
  unfold Less. rewrite Hx, Hy. simpl. eauto.
Qed.

Lemma Swap_defined h i j :
  (i < length h)%nat → (j < length h)%nat → is_Some (Swap h i j).
Proof.
  intros [x Hx]%lookup_lt_is_Some [y Hy]%lookup_lt_is_Some.
  unfold Swap. rewrite Hx, Hy. simpl. eauto.
Qed.

Lemma Swap_Some h i j h' :
  Swap h i j = Some h' →
  length h' = length h ∧ h' ≡ₚ h ∧ (i < length h)%nat ∧ (j < length h)%nat
  ∧ h' !! i = h !! j ∧ h' !! j = h !! i
  ∧ ∀ k, k ≠ i → k ≠ j → h' !! k = h !! k.
Proof.
  unfold Swap. intros Hs.
  destruct (h !! i) as [x|] eqn:Hx; [|done].
  destruct (h !! j) as [y|] eqn:Hy; [|done].
  simpl in Hs. injection Hs as <-.
  pose proof (lookup_lt_Some _ _ _ Hx). pose proof (lookup_lt_Some _ _ _ Hy).
  split_and!; try done.
  - by rewrite !length_insert.
  - by apply Permutation_insert_swap.
  - destruct (decide (i = j)) as [->|Hne].
    + rewrite list_lookup_insert_eq by (by rewrite length_insert). congruence.
    + rewrite list_lookup_insert_ne by done.
      by rewrite list_lookup_insert_eq.
  - by rewrite list_lookup_insert_eq by (by rewrite length_insert).
  - intros k Hi Hj.
    rewrite list_lookup_insert_ne by done.
    by rewrite list_lookup_insert_ne.
Qed.

Lemma up_loop_S fuel h j :
  heap.up_loop (S fuel) h j =
    if decide (parent j = j) then Some h
    else
      less ← Less h j (parent j);
      if negb less then Some h
      else h' ← Swap h (parent j) j; heap.up_loop fuel h' (parent j).
Proof. reflexivity. Qed.

Lemma down_loop_S fuel h i n :
  heap.down_loop (S fuel) h i n =
    if decide (n ≤ 2 * i + 1)%nat then Some h
    else
      j ← (if decide (2 * i + 1 + 1 < n)%nat
           then less ← Less h (2 * i + 1 + 1) (2 * i + 1);
                Some (if less : bool then 2 * i + 1 + 1 else 2 * i + 1)%nat
           else Some (2 * i + 1)%nat);
      less ← Less h j i;
      if negb less then Some h
      else h' ← Swap h i j; heap.down_loop fuel h' j n.
Proof. reflexivity. Qed.

(** Sifting up: the heap order may fail only on the edge above [j], and
    the entry above [j] is no later than the entries below it. *)
Lemma up_loop_spec fuel : ∀ h j,
  (j < fuel)%nat → (j < length h)%nat →
  (∀ k, (0 < k < length h)%nat → k ≠ j → leAt h (parent k) k) →
  (∀ c, (0 < c < length h)%nat → parent c = j → (0 < j)%nat →
        leAt h (parent j) c) →
  ∃ h', heap.up_loop fuel h j = Some h' ∧ heapOrdered h' ∧ h' ≡ₚ h.
Proof.
  induction fuel as [|fuel IH]; intros h j Hfuel Hj Hout Hgrand; [lia|].
  rewrite up_loop_S.
  destruct (decide (parent j = j)) as [Heq|Hne].
  { exists h. split_and!; [done| |done].
    intros k Hk. apply Hout; [done|].
    destruct (decide (j = 0%nat)) as [->|]; [lia|].
    pose proof (parent_lt j). lia. }
  assert (0 < j)%nat as Hpos.
  { destruct j; [|lia]. by compute in Hne. }
  pose proof (parent_lt j Hpos) as Hpj.
  destruct (Less_defined h j (parent j)) as [b Hb]; [lia..|].
  rewrite Hb. simpl.
  apply Less_Some in Hb as (x & y & Hx & Hy & ->).
  destruct (dueSecond x <? dueSecond y)%Z eqn:Hlt; simpl.
  2:{ exists h. split_and!; [done| |done].
      intros k Hk. destruct (decide (k = j)) as [->|Hkj]; [|by apply Hout].
      intros a b Ha Hb. simplify_eq. apply Z.ltb_ge in Hlt. lia. }
  apply Z.ltb_lt in Hlt.
  destruct (Swap_defined h (parent j) j) as [h' Hs]; [lia..|].
  rewrite Hs. simpl.
  apply Swap_Some in Hs as (Hlen & Hperm & _ & _ & Hi & Hjj & Hother).
  destruct (IH h' (parent j)) as (h'' & Hup & Hord & Hp); [lia|lia| | |].
  - intros k Hk Hkp a b Ha Hb. rewrite Hlen in Hk.
    destruct (decide (k = j)) as [->|Hkj].
    { rewrite Hi in Ha. rewrite Hjj in Hb. simplify_eq. lia. }
    rewrite Hother in Hb by done.
    destruct (decide (parent k = parent j)) as [Hsib|Hnsib].
    { rewrite Hsib, Hi in Ha. simplify_eq.
      assert (dueSecond y ≤ dueSecond b); [|lia].
      eapply (Hout k); [done|done| |done]. by rewrite Hsib. }
    destruct (decide (parent k = j)) as [Hch|Hnch].
    { rewrite Hch, Hjj in Ha. simplify_eq.
      eapply (Hgrand k); done. }
    rewrite Hother in Ha by done.
    eapply (Hout k); done.
  - intros c Hc Hpc Hppos a b Ha Hb. rewrite Hlen in Hc.
    assert (parent (parent j) < parent j)%nat by by apply parent_lt.
    rewrite Hother in Ha by lia.
    assert (dueSecond a ≤ dueSecond y) as Hay.
    { eapply (Hout (parent j)); [lia|lia|done|done]. }
    destruct (decide (c = j)) as [->|Hcj].
    { rewrite Hjj in Hb. by simplify_eq. }
    assert (c ≠ parent j).
    { pose proof (parent_lt c). lia. }
    rewrite Hother in Hb by done.
    assert (dueSecond y ≤ dueSecond b); [|lia].
    eapply (Hout c); [done|done| |done]. by rewrite Hpc.
  - exists h''. split_and!; [done|done|]. by rewrite Hp.
Qed.

(** The child [down] compares the entry at [i] with: the one due first. *)
Lemma down_child h i n :
  (2 * i + 1 < n)%nat → (n ≤ length h)%nat →
  ∃ j, (if decide (2 * i + 1 + 1 < n)%nat
        then less ← Less h (2 * i + 1 + 1) (2 * i + 1);
             Some (if less : bool then 2 * i + 1 + 1 else 2 * i + 1)%nat
        else Some (2 * i + 1)%nat) = Some j
       ∧ parent j = i ∧ (i < j < n)%nat
       ∧ ∀ c, (0 < c < n)%nat → parent c = i → leAt h j c.
Proof.
  intros Hj1 Hn.
  pose proof (parent_of_left i) as Hl. pose proof (parent_of_right i) as Hr.
  replace (2 * i + 1 + 1)%nat with (2 * i + 2)%nat by lia.
  assert (∀ c, (0 < c)%nat → parent c = i →
               c = (2 * i + 1)%nat ∨ c = (2 * i + 2)%nat) as Hcases.
  { intros c Hc Hpc. destruct (parent_children c Hc); lia. }
  assert (∀ c, leAt h c c) as Hrefl.
  { intros c a b Ha Hb. simplify_eq. lia. }
  case_decide as Hj2.
  - destruct (Less_defined h (2 * i + 2) (2 * i + 1)) as [b Hb]; [lia..|].
    rewrite Hb. simpl.
    apply Less_Some in Hb as (x & y & Hx & Hy & ->).
    destruct (dueSecond x <? dueSecond y)%Z eqn:Hlt.
    + apply Z.ltb_lt in Hlt. exists (2 * i + 2)%nat.
      split_and!; [done|done|lia|lia|].
      intros c Hc Hpc. destruct (Hcases c) as [->| ->]; [lia|done| |done].
      intros a b Ha Hb. simplify_eq. lia.
    + apply Z.ltb_ge in Hlt. exists (2 * i + 1)%nat.
      split_and!; [done|done|lia|lia|].
      intros c Hc Hpc. destruct (Hcases c) as [->| ->]; [lia|done|done|].
      intros a b Ha Hb. simplify_eq. lia.
  - exists (2 * i + 1)%nat. split_and!; [done|done|lia|lia|].
    intros c Hc Hpc. destruct (Hcases c) as [->| ->]; [lia|done|done|lia].
Qed.

(** Sifting down within the first [n] entries: the heap order may fail
    only on the edges below [i], and the entry above [i] is no later
    than the entries below it.  The entries from [n] on stay put. *)
Lemma down_loop_spec fuel : ∀ h i n,
  (n < fuel + i)%nat → (i ≤ n)%nat → (n ≤ length h)%nat →
  (∀ k, (0 < k < n)%nat → parent k ≠ i → leAt h (parent k) k) →
  (∀ c, (0 < c < n)%nat → parent c = i → (0 < i)%nat →
        leAt h (parent i) c) →
  ∃ h', heap.down_loop fuel h i n = Some h' ∧ heapUpTo n h' ∧ h' ≡ₚ h
        ∧ length h' = length h ∧ ∀ k, (n ≤ k)%nat → h' !! k = h !! k.
Proof.
  induction fuel as [|fuel IH]; intros h i n Hfuel Hi Hn Hout Hgrand; [lia|].
  rewrite down_loop_S.
  case_decide as Hleaf.
  { exists h. split_and!; try done.
    intros k Hk. apply Hout; [done|].
    intros Hpk. destruct (parent_children k); lia. }
  destruct (down_child h i n) as (j & -> & <- & Hjn & Hmin); [lia|done|].
  simpl.
  destruct (Less_defined h j (parent j)) as [b Hb]; [lia..|].
  rewrite Hb. simpl.
  apply Less_Some in Hb as (x & y & Hx & Hy & ->).
  destruct (dueSecond x <? dueSecond y)%Z eqn:Hlt; simpl.
  2:{ apply Z.ltb_ge in Hlt. exists h. split_and!; try done.
      intros k Hk.
      destruct (decide (parent k = parent j)) as [Hpk|Hpk]; [|by apply Hout].
      intros a b Ha Hb. rewrite Hpk in Ha. simplify_eq.
      assert (dueSecond x ≤ dueSecond b); [|lia].
      by eapply (Hmin k). }
  apply Z.ltb_lt in Hlt.
  destruct (Swap_defined h (parent j) j) as [h' Hs]; [lia..|].
  rewrite Hs. simpl.
  apply Swap_Some in Hs as (Hlen & Hperm & _ & _ & Hii & Hjj & Hother).
  destruct (IH h' j n) as (h'' & Hdown & Hord & Hp & Hlen' & Hrest);
    [lia|lia|lia| | |].
  - intros k Hk Hkp a b Ha Hb.
    destruct (decide (parent k = parent j)) as [Hpk|Hpk].
    + rewrite Hpk, Hii in Ha. simplify_eq.
      destruct (decide (k = j)) as [->|Hkj].
      { rewrite Hjj in Hb. simplify_eq. lia. }
      assert (k ≠ parent j) by (pose proof (parent_lt k); lia).
      rewrite Hother in Hb by done.
      by eapply (Hmin k).
    + rewrite Hother in Ha by done.
      assert (k ≠ j) by congruence.
      destruct (decide (k = parent j)) as [->|Hki].
      * rewrite Hii in Hb. simplify_eq.
        eapply (Hgrand j); [lia|done|lia|done|done].
      * rewrite Hother in Hb by done. eapply (Hout k); done.
  - intros c Hc Hpc _ a b Ha Hb.
    rewrite Hii, Hx in Ha. injection Ha as <-.
    assert (c ≠ j) by (pose proof (parent_lt c); lia).
    assert (c ≠ parent j) by (pose proof (parent_lt c); lia).
    rewrite Hother in Hb by done.
    eapply (Hout c); [done|lia|by rewrite Hpc|done].
  - exists h''. split_and!; [done|done|by rewrite Hp|lia|].
    intros k Hk. rewrite Hrest by done. apply Hother; lia.
Qed.

Lemma heapOrdered_nil : heapOrdered [].
Proof. intros k Hk. simpl in Hk. lia. Qed.

(** In a heap the first entry is due no later than any other. *)
Lemma root_min h r :
  heapOrdered h → h !! 0%nat = Some r →
  ∀ y, y ∈ h → dueSecond r ≤ dueSecond y.
Proof.
  intros Hord Hr y [k Hk]%list_elem_of_lookup. revert y Hk.
  induction (lt_wf k) as [k _ IH]. intros y Hk.
  destruct (decide (k = 0%nat)) as [->|Hpos].
  { simplify_eq. lia. }
  pose proof (lookup_lt_Some _ _ _ Hk) as Hlen.
  pose proof (parent_lt k) as Hpk.
  destruct (lookup_lt_is_Some_2 h (parent k)) as [a Ha]; [lia|].
  specialize (IH (parent k) ltac:(lia) a Ha).
  specialize (Hord k ltac:(lia) a y Ha Hk). lia.
Qed.

Lemma Push_spec h x :
  heapOrdered h →
  ∃ h', heap.Push h x = Some h' ∧ heapOrdered h' ∧ h' ≡ₚ x :: h.
Proof.
  intros Hord. unfold heap.Push, heap.up, Push, Len.
  rewrite length_app. simpl.
  replace (length h + 1 - 1)%nat with (length h) by lia.
  destruct (up_loop_spec (S (length h)) (h ++ [x]) (length h))
    as (h' & Hup & Hord' & Hperm).
  - lia.
  - rewrite length_app. simpl. lia.
  - intros k Hk Hne a b Ha Hb.
    rewrite length_app in Hk. simpl in Hk.
    pose proof (parent_lt k).
    rewrite lookup_app_l in Ha by lia. rewrite lookup_app_l in Hb by lia.
    eapply (Hord k); [lia|done|done].
  - intros c Hc Hpc _. rewrite length_app in Hc. simpl in Hc.
    destruct (parent_children c); lia.
  - exists h'. split_and!; [done|done|].
    rewrite Hperm. by rewrite Permutation_app_comm.
Qed.

Lemma Pop_spec h :
  heapOrdered h → h ≠ [] →
  ∃ x h', heap.Pop h = Some (x, h') ∧ heapOrdered h' ∧ h ≡ₚ x :: h'
          ∧ ∀ y, y ∈ h → dueSecond x ≤ dueSecond y.
Proof.
  intros Hord Hne. unfold heap.Pop, heap.down, Len.
  assert (0 < length h)%nat as Hlen by (destruct h; [done|simpl; lia]).
  case_decide; [lia|].
  set (n := (length h - 1)%nat).
  destruct (Swap_defined h 0 n) as [h1 Hs]; [lia..|].
  rewrite Hs. cbn [mbind option_bind].
  apply Swap_Some in Hs as (Hlen1 & Hperm1 & _ & _ & H0 & Hn & Hother).
  destruct (lookup_lt_is_Some_2 h 0) as [r Hr]; [lia|].
  destruct (down_loop_spec (S n) h1 0 n)
    as (h2 & -> & Hord2 & Hperm2 & Hlen2 & Hrest); [lia|lia|lia| | |].
  - intros k Hk Hpk a b Ha Hb.
    pose proof (parent_lt k).
    rewrite Hother in Ha by lia. rewrite Hother in Hb by lia.
    eapply (Hord k); [lia|done|done].
  - intros c _ _ Hc. lia.
  - cbn [mbind option_bind]. unfold Pop.
    replace (length h2 - 1)%nat with n by lia.
    assert (h2 !! n = Some r) as Hlast.
    { rewrite Hrest by lia. by rewrite Hn. }
    rewrite Hlast. simpl. case_decide; [lia|].
    exists r, (take n h2). split_and!; [done| | |].
    + intros k Hk a b Ha Hb. rewrite length_take in Hk.
      pose proof (parent_lt k).
      rewrite lookup_take_lt in Ha by lia.
      rewrite lookup_take_lt in Hb by lia.
      eapply (Hord2 k); [lia|done|done].
    + rewrite <- Hperm1, <- Hperm2.
      rewrite <- (take_drop n h2) at 1.
      rewrite (drop_S h2 r n Hlast).
      rewrite drop_ge by lia.
      by rewrite Permutation_app_comm.
    + by apply root_min.
Qed.

Lemma runOps_ordered ops : ∀ h hf popped,
  heapOrdered h → runOps ops h = Some (hf, popped) → heapOrdered hf.
Proof.
  induction ops as [|[x|] ops IH]; intros h hf popped Hord Hrun; simpl in Hrun.
  - by simplify_eq.
  - destruct (Push_spec h x Hord) as (h' & Hp & Hord' & _).
    rewrite Hp in Hrun. simpl in Hrun. eauto.
  - destruct (heap.Pop h) as [[x h']|] eqn:Hp; [|done]. simpl in Hrun.
    destruct (runOps ops h') as [[hf' popped']|] eqn:Hrest; [|done].
    simpl in Hrun. simplify_eq.
    destruct h as [|w h]; [done|].
    destruct (Pop_spec (w :: h) Hord) as (x' & h'' & Hp' & Hord' & _);
      [done|].
    rewrite Hp in Hp'. simplify_eq. eauto.
Qed.


End heap_facts.

(** ** The program: what a computation leaves alone *)

Section frame_facts.

Context {W : Type} `{!Env W}.

Global Instance quiet_preorder : PreOrder (@quiet W).
Proof.
  split.
  - by intros s.
  - intros s1 s2 s3 (? & ? & ? & ?) (? & ? & ? & ?).
    unfold quiet. split_and!; congruence.
Qed.

Global Instance worldOnly_preorder : PreOrder (@worldOnly W).
Proof.
  split.
  - by intros s.
  - intros s1 s2 s3 (? & ? & ?) (? & ? & ?).
    unfold worldOnly. split_and!; congruence.
Qed.

Lemma worldOnly_quiet (s s' : @State W) : worldOnly s s' → quiet s s'.
Proof. intros (? & ? & ?). unfold quiet. split_and!; congruence. Qed.

Section rules.

Context (R : relation (@State W)) `{!PreOrder R}.

Lemma keeps_ret {A} (a : A) : keeps R (mret a).
Proof. intros s. simpl. reflexivity. Qed.

Lemma keeps_panic {A} msg : keeps R (panic (A:=A) msg).
Proof. intros s. simpl. reflexivity. Qed.

Lemma keeps_getState : keeps R getState.
Proof. intros s. simpl. reflexivity. Qed.

Lemma keeps_liftOption {A} msg (o : option A) : keeps R (liftOption msg o).
Proof. destruct o; [apply keeps_ret|apply keeps_panic]. Qed.

Lemma keeps_bind {A B} (m : M A) (f : A → M B) :
  keeps R m → (∀ a, keeps R (f a)) → keeps R (m ≫= f).
Proof.
  intros Hm Hf s. specialize (Hm s).
  unfold mbind, M_bind. destruct (m s) as [a s'|msg s']; simpl in *.
  - etrans; [done|]. apply Hf.
  - done.
Qed.

End rules.

Lemma worldOnly_call {A} (op : W → W * A) : keeps worldOnly (call op).
Proof. intros s. unfold call. by destruct (op (world s)). Qed.

Lemma quiet_call {A} (op : W → W * A) : keeps quiet (call op).
Proof. intros s. apply worldOnly_quiet, worldOnly_call. Qed.

Lemma outputs_snoc t e :
  outputs (t ++ [e]) = outputs t ++ (if isOutput e then [e] else []).
Proof.
  unfold outputs. rewrite filter_app. f_equal.
  rewrite filter_cons, filter_nil. by destruct (isOutput e).
Qed.

Lemma quiet_emit e : isOutput e = false → keeps quiet (emit (W:=W) e).
Proof.
  intros He s. unfold quiet. simpl. split_and!; try done.
  rewrite outputs_snoc, He. apply app_nil_r.
Qed.

Lemma quiet_setClient f :
  (∀ c, vaults (f c) = vaults c ∧ watchConfig (f c) = watchConfig c) →
  keeps quiet (setClient (W:=W) f).
Proof.
  intros Hf s. unfold quiet. simpl. destruct (Hf (client s)). done.
Qed.

Lemma quiet_range {V} (m : gmap string V) : keeps quiet (range m).
Proof.
  apply keeps_bind; [apply _|apply quiet_call|].
  intros choices. apply keeps_ret, _.
Qed.

Lemma quiet_findMount key items : keeps quiet (findMount (W:=W) key items).
Proof.
  induction items as [|[vault vtype] items IH]; simpl.
  - apply keeps_ret, _.
  - destruct (strings.HasPrefix key vault); [|done].
    apply keeps_bind; [apply _|apply keeps_liftOption, _|].
    intros mp. apply keeps_ret, _.
Qed.

Lemma quiet_getVaultTypePath key : keeps quiet (getVaultTypePath key).
Proof.
  apply keeps_bind; [apply _|apply keeps_getState, _|]. intros s.
  apply keeps_bind; [apply _|apply quiet_range|]. intros items.
  apply quiet_findMount.
Qed.

Lemma quiet_getKV2 mountPath key secretName :
  keeps quiet (getKV2 mountPath key secretName).
Proof.
  apply keeps_bind; [apply _|by apply quiet_emit|]. intros _.
  apply keeps_bind; [apply _|apply quiet_call|]. intros [err|data].
  { apply keeps_ret, _. }
  destruct (kvData data !! secretName) as [[secret|]|];
    try apply keeps_ret, _.
  destruct (kvVersion data);
    [apply keeps_panic, _|apply keeps_ret, _|apply keeps_ret, _].
Qed.

Lemma quiet_getDBCreds mountPath role :
  keeps quiet (getDBCreds mountPath role).
Proof.
  apply keeps_bind; [apply _|by apply quiet_emit|]. intros _.
  apply keeps_bind; [apply _|apply quiet_call|]. intros [err|data].
  { apply keeps_ret, _. }
  destruct (dbUsername data), (dbPassword data);
    first [apply keeps_ret, _|apply keeps_panic, _].
Qed.

(** A fetch writes nothing to the cache, sends nothing, and leaves the
    mount table and the watch configuration as they are. *)
Lemma quiet_get key : keeps quiet (get key).
Proof.
  unfold get.
  apply keeps_bind; [apply _|apply quiet_getVaultTypePath|].
  intros [[vaultType mountPath] [e|]]; [apply keeps_ret, _|].
  destruct (String.eqb vaultType "kv").
  { destruct (_ !! 0%nat) as [key0|]; [|apply keeps_panic, _].
    destruct (_ !! 1%nat) as [key1|]; [|apply keeps_panic, _].
    apply keeps_bind; [apply _|apply quiet_getKV2|].
    intros [e|[resp version]]; [apply keeps_ret, _|].
    apply keeps_bind; [apply _|apply keeps_getState, _|]. intros s.
    apply keeps_bind; [apply _| |intros _; apply keeps_ret, _].
    destruct (watchConfig (client s)) as [cfg|]; [|apply keeps_ret, _].
    case_decide; [|apply keeps_ret, _].
    by apply quiet_setClient. }
  destruct (String.eqb vaultType "database"); [|apply keeps_ret, _].
  apply keeps_bind; [apply _|apply quiet_getDBCreds|].
  intros [e|[resp leaseTime]]; [apply keeps_ret, _|].
  apply keeps_bind; [apply _|apply keeps_getState, _|]. intros s.
  apply keeps_bind; [apply _| |intros _; apply keeps_ret, _].
  destruct (watchConfig (client s)) as [cfg|]; [|apply keeps_ret, _].
  by apply quiet_setClient.
Qed.

Lemma quiet_Get key : keeps quiet (Get key).
Proof.
  apply keeps_bind; [apply _|apply quiet_get|].
  intros [e|[bts n]]; apply keeps_ret, _.
Qed.

(** *** Running a bind *)

Lemma bind_Done {A B} (m : @M W A) (f : A → @M W B) s a s1 :
  m s = Done a s1 → (m ≫= f) s = f a s1.
Proof. intros Hm. unfold mbind, M_bind. by rewrite Hm. Qed.

Lemma bind_Panic {A B} (m : @M W A) (f : A → @M W B) s msg s1 :
  m s = Panic msg s1 → (m ≫= f) s = Panic msg s1.
Proof. intros Hm. unfold mbind, M_bind. by rewrite Hm. Qed.

Lemma bind_inv {A B} (m : @M W A) (f : A → @M W B) s b s' :
  (m ≫= f) s = Done b s' → ∃ a s1, m s = Done a s1 ∧ f a s1 = Done b s'.
Proof.
  unfold mbind, M_bind. destruct (m s) as [a s1|]; [eauto|done].
Qed.

Lemma publish_Done path data (s : @State W) :
  (_ ← store path data; send (mkKVEntry path data)) s
  = Done tt (afterPublish path data s).
Proof.
  unfold afterPublish, store, send, emit, setViper, call, mbind, M_bind.
  simpl. by rewrite <- app_assoc.
Qed.

Lemma publish_then {B} path data (k : @M W B) (s : @State W) :
  (_ ← store path data; _ ← send (mkKVEntry path data); k) s
  = k (afterPublish path data s).
Proof.
  unfold afterPublish, store, send, emit, setViper, call, mbind, M_bind.
  simpl. by rewrite <- app_assoc.
Qed.

Lemma outputs_afterPublish path data (s : @State W) :
  outputs (trace (afterPublish path data s))
  = outputs (trace s) ++ [EStore path data; ESend (mkKVEntry path data)].
Proof. unfold outputs. simpl. by rewrite filter_app. Qed.

Lemma awaitDue_Done event s :
  ∃ sa, awaitDue event s = Done tt sa
        ∧ client sa = client s ∧ viper sa = viper s
        ∧ outputs (trace sa) = outputs (trace s)
        ∧ fetches (trace sa) = fetches (trace s).
Proof.
  unfold awaitDue, sleep, call, emit, mbind, M_bind. simpl.
  destruct (Now (world s)) as [w now]. simpl.
  eexists. split; [done|]. simpl. split_and!; try done.
  - rewrite outputs_snoc. apply app_nil_r.
  - unfold fetches. rewrite filter_app. apply app_nil_r.
Qed.

Lemma awake_Done event s : awaitDue event s = Done tt (awake event s).
Proof.
  destruct (awaitDue_Done event s) as (sa & Hsa & _).
  unfold awake. by rewrite Hsa.
Qed.

(** *** The client during a fetch *)

Global Instance sameClient_preorder : PreOrder (@sameClient W).
Proof.
  split.
  - by intros s.
  - intros s1 s2 s3 [? ?] [? ?]. unfold sameClient. split; congruence.
Qed.

Lemma worldOnly_sameClient (s s' : @State W) :
  worldOnly s s' → sameClient s s'.
Proof. by intros (? & ? & ?). Qed.

Lemma sameClient_call {A} (op : W → W * A) : keeps sameClient (call op).
Proof. intros s. apply worldOnly_sameClient, worldOnly_call. Qed.

Lemma sameClient_emit e : keeps sameClient (emit (W:=W) e).
Proof. by intros s. Qed.

Lemma sameClient_getKV2 mountPath key secretName :
  keeps sameClient (getKV2 mountPath key secretName).
Proof.
  apply keeps_bind; [apply _|by apply sameClient_emit|]. intros _.
  apply keeps_bind; [apply _|apply sameClient_call|]. intros [err|data].
  { apply keeps_ret, _. }
  destruct (kvData data !! secretName) as [[secret|]|];
    try apply keeps_ret, _.
  destruct (kvVersion data);
    [apply keeps_panic, _|apply keeps_ret, _|apply keeps_ret, _].
Qed.

Lemma rangeOrder_nil {A} cs : rangeOrder cs (@nil A) = [].
Proof. by destruct cs. Qed.

(** A [range] visits every entry exactly once. *)
Lemma rangeOrder_perm {A} cs : ∀ l : list A, rangeOrder cs l ≡ₚ l.
Proof.
  induction cs as [|c cs IH]; intros l; simpl; [done|].
  destruct l as [|x l]; [done|].
  set (i := (c `mod` length (x :: l))%nat).
  assert (i < length (x :: l))%nat as Hi.
  { apply Nat.mod_upper_bound. simpl. lia. }
  destruct (lookup_lt_is_Some_2 (x :: l) i Hi) as [y Hy].
  rewrite (nth_lookup_Some _ _ _ _ Hy), IH.
  symmetry. by apply delete_Permutation.
Qed.

Lemma range_Done {V} (m : gmap string V) s :
  ∃ cs s', range m s = Done (rangeOrder cs (map_to_list m)) s'
           ∧ worldOnly s s'.
Proof.
  unfold range, call, mbind, M_bind.
  destruct (RangeChoices (world s)) as [w cs]. simpl.
  by exists cs, (mkState w (client s) (viper s) (trace s)).
Qed.

Lemma findMount_inv key items (s : @State W) vt mp s' :
  findMount key items s = Done (vt, mp, None) s' →
  s' = s ∧ ∃ vault, (vault, vt) ∈ items
                    ∧ strings.HasPrefix key vault = true
                    ∧ strings.dropLast vault = Some mp.
Proof.
  induction items as [|[vault vtype] items IH]; simpl; [done|].
  destruct (strings.HasPrefix key vault) eqn:Hpre.
  - unfold mbind, M_bind.
    destruct (strings.dropLast vault) as [mp'|] eqn:Hdrop; simpl; [|done].
    intros [= -> -> ->]. split; [done|].
    exists vault. split_and!; [left|done|done].
  - intros [-> (v & Hin & ? & ?)]%IH. split; [done|].
    exists v. split_and!; [by right|done|done].
Qed.

(** The mount [getVaultTypePath] settles on is one of the client's
    mounts and a prefix of the key. *)
Lemma getVaultTypePath_inv key s vt mp s' :
  getVaultTypePath key s = Done (vt, mp, None) s' →
  worldOnly s s'
  ∧ ∃ vault, vaults (client s) !! vault = Some vt
             ∧ strings.HasPrefix key vault = true
             ∧ strings.dropLast vault = Some mp.
Proof.
  unfold getVaultTypePath. rewrite (bind_Done _ _ s s s) by done.
  destruct (range_Done (vaults (client s)) s) as (cs & s1 & Hr & Hw).
  rewrite (bind_Done _ _ _ _ _ Hr).
  intros [-> (vault & Hin & ? & ?)]%findMount_inv. split; [done|].
  exists vault. split_and!; [|done|done].
  rewrite rangeOrder_perm in Hin. by apply elem_of_map_to_list in Hin.
Qed.

(** *** Strings *)

Ltac append_cons :=
  repeat match goal with
    | |- context [String ?x ?a +:+ ?b] =>
        change (String x a +:+ b) with (String x (a +:+ b))
    | |- context [EmptyString +:+ ?b] => change (EmptyString +:+ b) with b
    end.

Lemma append_assoc (a b c : string) : (a +:+ b) +:+ c = a +:+ b +:+ c.
Proof. induction a as [|x a IH]; append_cons; [done|]. by rewrite IH. Qed.

Lemma HasPrefix_strip pre : ∀ s,
  strings.HasPrefix s pre = true →
  ∃ rest, strings.strip s pre = Some rest ∧ pre +:+ rest = s.
Proof.
  induction pre as [|a pre IH]; intros s; simpl; [by exists s|].
  destruct s as [|b s]; [done|].
  destruct (Ascii.eqb a b) eqn:Hab; [|done].
  apply Ascii.eqb_eq in Hab as ->.
  intros (rest & -> & <-)%IH. by exists rest.
Qed.

Lemma HasPrefix_TrimPrefix s pre :
  strings.HasPrefix s pre = true → pre +:+ strings.TrimPrefix s pre = s.
Proof.
  intros (rest & Hrest & <-)%HasPrefix_strip.
  unfold strings.TrimPrefix. by rewrite Hrest.
Qed.

Lemma dropLast_snoc m c :
  strings.dropLast (m +:+ String c EmptyString) = Some m.
Proof.
  induction m as [|a m IH]; append_cons; [done|].
  cbn [strings.dropLast]. rewrite IH.
  destruct m; by append_cons.
Qed.

Lemma Split_head s sep : is_Some (strings.Split s sep !! 0%nat).
Proof.
  destruct s as [|a s]; simpl; [eauto|].
  destruct (Ascii.eqb a sep); [eauto|].
  destruct (strings.Split s sep); eauto.
Qed.

Lemma Split_no_sep s sep :
  strings.Contains s sep = false → strings.Split s sep = [s].
Proof.
  induction s as [|a s IH]; simpl; [done|].
  destruct (Ascii.eqb a sep); [done|].
  intros Hs. by rewrite (IH Hs).
Qed.

End frame_facts.

(** ** The queue inside the program *)

Section queue_total.

Import watchableHeap_.

Lemma up_loop_total fuel : ∀ (h : watchableHeap) j,
  (j < fuel)%nat → (j < length h)%nat →
  ∃ h', heap.up_loop fuel h j = Some h' ∧ h' ≡ₚ h.
Proof.
  induction fuel as [|fuel IH]; intros h j Hfuel Hj; [lia|].
  rewrite up_loop_S.
  case_decide as Hroot; [by exists h|].
  assert (0 < j)%nat as Hpos.
  { destruct j; [|lia]. by compute in Hroot. }
  pose proof (parent_lt j Hpos) as Hpj.
  destruct (Less_defined h j (parent j)) as [b ->]; [lia..|]. simpl.
  destruct b; simpl; [|by exists h].
  destruct (Swap_defined h (parent j) j) as [h' Hs]; [lia..|].
  rewrite Hs. simpl.
  apply Swap_Some in Hs as (Hlen & Hperm & _).
  destruct (IH h' (parent j)) as (h'' & -> & Hp); [lia|lia|].
  exists h''. split; [done|]. by rewrite Hp.
Qed.

(** [heap.Push] never panics and adds exactly the entry. *)
Lemma Push_total (h : watchableHeap) x :
  ∃ h', heap.Push h x = Some h' ∧ h' ≡ₚ x :: h.
Proof.
  unfold heap.Push, heap.up, Push, Len. rewrite length_app. simpl.
  replace (length h + 1 - 1)%nat with (length h) by lia.
  destruct (up_loop_total (S (length h)) (h ++ [x]) (length h))
    as (h' & Hup & Hperm); [lia|rewrite length_app; simpl; lia|].
  exists h'. split; [done|].
  rewrite Hperm. by rewrite Permutation_app_comm.
Qed.

Lemma Pop_Some_length (h : watchableHeap) x h' :
  heap.Pop h = Some (x, h') → length h ≠ 0%nat.
Proof. unfold heap.Pop, Len. by case_decide. Qed.

End queue_total.

(** ** One turn of the watch loop *)

Section watch_loop.

Context {W : Type} `{!Env W}.

Implicit Types (s : @State W) (h : watchableHeap) (event : Watchable).

Lemma loopBody_service h s event h0 vt :
  heap.Pop h = Some (event, h0) →
  eventVaultTypeOf (client s) event = Some vt →
  loopBody h s = service vt event h0 (awake event s).
Proof.
  intros Hpop Hvt. unfold loopBody.
  case_decide as Hlen; [by apply Pop_Some_length in Hpop|].
  unfold heapPop. rewrite Hpop.
  unfold mbind, M_bind at 1 2 3. simpl. rewrite Hvt. simpl.
  unfold mbind, M_bind. by rewrite awake_Done.
Qed.

(** Pushing the serviced entry back, due at [period] after the clock
    is read in state [sp]. *)
Lemma reschedule event h0 sp period (k : watchableHeap → @M W LoopCtl) :
  ∃ h', heap.Push h0 (mkWatchable (path event)
                        (time.Add (Now (world sp)).2 period)) = Some h'
        ∧ h' ≡ₚ mkWatchable (path event)
                  (time.Add (Now (world sp)).2 period) :: h0
        ∧ (now ← call Now;
           h ← heapPush h0 (mkWatchable (path event) (time.Add now period));
           k h) sp
          = k h' (mkState (Now (world sp)).1 (client sp) (viper sp)
                    (trace sp)).
Proof.
  unfold call, mbind, M_bind.
  destruct (Now (world sp)) as [w now]. simpl.
  destruct (Push_total h0 (mkWatchable (path event) (time.Add now period)))
    as (h' & Hpush & Hperm).
  exists h'. split_and!; [done|done|]. unfold heapPush. by rewrite Hpush.
Qed.

Lemma service_versioned event h0 s cfg data version s1 :
  watchConfig (client s) = Some cfg → VersionPeriod cfg ≠ 0 →
  get (path event) s = Done (inr (data, version)) s1 →
  let sp := if decide (version > default 0 (versions (client s) !! path event))
            then afterPublish (path event) data s1 else s1 in
  ∃ h', heap.Push h0 (mkWatchable (path event)
                        (time.Add (Now (world sp)).2 (VersionPeriod cfg)))
        = Some h'
        ∧ h' ≡ₚ mkWatchable (path event)
                  (time.Add (Now (world sp)).2 (VersionPeriod cfg)) :: h0
        ∧ service "kv" event h0 s
          = Done (Continue h')
              (mkState (Now (world sp)).1 (client sp) (viper sp) (trace sp)).
Proof.
  intros Hcfg Hperiod Hget sp.
  destruct (reschedule event h0 sp (VersionPeriod cfg) (λ h, mret (Continue h)))
    as (h' & Hheap & Hperm & Hpush).
  exists h'. split_and!; [done|done|].
  unfold service. rewrite (bind_Done _ _ s s s) by done.
  rewrite Hcfg. rewrite (bind_Done _ _ s cfg s) by done.
  rewrite bool_decide_eq_true_2 by done. simpl.
  rewrite (bind_Done _ _ _ _ _ Hget).
  rewrite (bind_Done _ _ s1 tt sp); [done|].
  subst sp. case_decide; [apply publish_Done|done].
Qed.

Lemma service_leased event h0 s cfg data leaseTime s1 :
  watchConfig (client s) = Some cfg →
  get (path event) s = Done (inr (data, leaseTime)) s1 →
  let sp := afterPublish (path event) data s1 in
  ∃ h', heap.Push h0 (mkWatchable (path event)
                        (time.Add (Now (world sp)).2 (time.Seconds leaseTime)))
        = Some h'
        ∧ h' ≡ₚ mkWatchable (path event)
                  (time.Add (Now (world sp)).2 (time.Seconds leaseTime)) :: h0
        ∧ service "database" event h0 s
          = Done (Continue h')
              (mkState (Now (world sp)).1 (client sp) (viper sp) (trace sp)).
Proof.
  intros Hcfg Hget sp.
  destruct (reschedule event h0 sp (time.Seconds leaseTime)
              (λ h, mret (Continue h))) as (h' & Hheap & Hperm & Hpush).
  exists h'. split_and!; [done|done|].
  unfold service. rewrite (bind_Done _ _ s s s) by done.
  rewrite Hcfg. rewrite (bind_Done _ _ s cfg s) by done.
  rewrite andb_false_r. simpl.
  rewrite (bind_Done _ _ _ _ _ Hget).
  by rewrite publish_then.
Qed.

Lemma awake_facts event s :
  client (awake event s) = client s
  ∧ viper (awake event s) = viper s
  ∧ outputs (trace (awake event s)) = outputs (trace s).
Proof.
  destruct (awaitDue_Done event s) as (sa & Hsa & ? & ? & ? & ?).
  unfold awake. by rewrite Hsa.
Qed.

Lemma get_quiet key s r s1 : get key s = Done r s1 → quiet s s1.
Proof. intros Hget. pose proof (quiet_get key s) as Hq. by rewrite Hget in Hq. Qed.

Lemma database_not_versionable cfg :
  bool_decide (VersionPeriod cfg ≠ 0) && isVersionable "database" = false.
Proof. apply andb_false_r. Qed.

(** What a successful fetch records when every mount the key could
    resolve to is a kv mount with a name ending in a slash. *)
Lemma get_kv_records key s cfg data n s1 :
  watchConfig (client s) = Some cfg → VersionPeriod cfg ≠ 0 →
  (∀ vault vtype,
     vaults (client s) !! vault = Some vtype →
     strings.HasPrefix key vault = true →
     vtype = "kv" ∧ ∃ m, vault = m +:+ "/") →
  get key s = Done (inr (data, n)) s1 →
  versions (client s1) = <[key := n]> (versions (client s))
  ∧ leases (client s1) = leases (client s).
Proof.
  intros Hcfg Hperiod Hmounts Hget. unfold get in Hget.
  apply bind_inv in Hget as ([[vt mp] err] & s0 & Hgv & Hget).
  destruct err as [e|]; [done|].
  apply getVaultTypePath_inv in Hgv as ((_ & Hc0 & _) & vault & Hlook & Hpre & Hdrop).
  destruct (Hmounts vault vt Hlook Hpre) as [-> [m ->]].
  rewrite dropLast_snoc in Hdrop. injection Hdrop as <-.
  change (String.eqb "kv" "kv") with true in Hget. cbv iota in Hget.
  destruct (_ !! 0%nat) as [key0|]; [|done].
  destruct (_ !! 1%nat) as [key1|]; [|done].
  apply bind_inv in Hget as (r & s2 & Hkv & Hget).
  pose proof (sameClient_getKV2 m key0 key1 s0) as [Hc2 _].
  rewrite Hkv in Hc2. simpl in Hc2.
  destruct r as [e|[resp version]]; [done|].
  unfold mbind, M_bind, getState in Hget.
  rewrite Hc2, Hc0, Hcfg in Hget.
  rewrite decide_True in Hget by done.
  simpl in Hget. injection Hget as <- <- <-. simpl.
  rewrite Hc2, Hc0.
  rewrite <- append_assoc, (HasPrefix_TrimPrefix _ _ Hpre). done.
Qed.

(** C5.  A turn of the loop that services a leased (database) path and
    whose fetch succeeds writes the fetched value to the cache and sends
    it on the alert channel, once each and whatever the value is: these
    two are all the turn shows to the cache and the subscriber. *)
Theorem leased_fetch_always_publishes h s event h0 cfg data leaseTime s1 :
  heap.Pop h = Some (event, h0) →
  eventVaultTypeOf (client s) event = Some "database" →
  watchConfig (client s) = Some cfg →
  get (path event) (awake event s) = Done (inr (data, leaseTime)) s1 →
  ∃ h' s', loopBody h s = Done (Continue h') s'
    ∧ outputs (trace s')
      = outputs (trace s)
        ++ [EStore (path event) data; ESend (mkKVEntry (path event) data)]
    ∧ secretstore (viper s') = <[path event := data]> (secretstore (viper s)).
Proof.
  intros Hpop Hvt Hcfg Hget.
  destruct (awake_facts event s) as (Hc & Hv & Ho).
  destruct (get_quiet _ _ _ _ Hget) as (Hv1 & _ & _ & Ho1).
  destruct (service_leased event h0 (awake event s) cfg data leaseTime s1)
    as (h' & _ & _ & Hsvc); [by rewrite Hc|done|].
  eexists h', _. split.
  { rewrite (loopBody_service h s event h0 "database") by done. exact Hsvc. }
  cbn [trace viper]. rewrite outputs_afterPublish. simpl.
  split; congruence.
Qed.

(** C6, as amended.  A turn that services a leased path and whose fetch
    succeeds pushes the path back, due at the lease of that fetch after
    the clock reading taken once the value is in the cache and the
    subscriber has accepted the event.  The lease enters as the 64-bit
    duration [time.Seconds leaseTime], which is the lease in seconds
    whenever that fits. *)
Theorem leased_due_after_delivery h s event h0 cfg data leaseTime s1 :
  heap.Pop h = Some (event, h0) →
  eventVaultTypeOf (client s) event = Some "database" →
  watchConfig (client s) = Some cfg →
  get (path event) (awake event s) = Done (inr (data, leaseTime)) s1 →
  let delivered := afterPublish (path event) data s1 in
  let due := time.Add (Now (world delivered)).2 (time.Seconds leaseTime) in
  (∃ h' s', loopBody h s = Done (Continue h') s'
     ∧ heap.Push h0 (mkWatchable (path event) due) = Some h'
     ∧ h' ≡ₚ mkWatchable (path event) due :: h0)
  ∧ (- 2 ^ 63 ≤ leaseTime * time.Second < 2 ^ 63 →
     time.Seconds leaseTime = leaseTime * time.Second).
Proof.
  intros Hpop Hvt Hcfg Hget delivered due. split.
  - destruct (awake_facts event s) as (Hc & _).
    destruct (service_leased event h0 (awake event s) cfg data leaseTime s1)
      as (h' & Hpush & Hperm & Hsvc); [by rewrite Hc|done|].
    eexists h', _. split_and!; [|exact Hpush|exact Hperm].
    rewrite (loopBody_service h s event h0 "database") by done. exact Hsvc.
  - intros Hfit. unfold time.Seconds, time.wrap64.
    rewrite Z.mod_small by lia. lia.
Qed.

(** C1.  A turn of the loop that services a versioned (kv) path and
    whose fetch succeeds writes the fetched value to the cache and sends
    it on the alert channel, once each, if the fetched version is
    strictly greater than the version on record for the path when the
    turn starts; otherwise it writes nothing and sends nothing. *)
Theorem versioned_fetch_publishes_iff_newer h s event h0 cfg data version s1 :
  heap.Pop h = Some (event, h0) →
  eventVaultTypeOf (client s) event = Some "kv" →
  watchConfig (client s) = Some cfg → VersionPeriod cfg ≠ 0 →
  get (path event) (awake event s) = Done (inr (data, version)) s1 →
  let oldVersion := default 0 (versions (client s) !! path event) in
  ∃ h' s', loopBody h s = Done (Continue h') s'
    ∧ outputs (trace s')
      = outputs (trace s)
        ++ (if decide (version > oldVersion)
            then [EStore (path event) data;
                  ESend (mkKVEntry (path event) data)]
            else [])
    ∧ secretstore (viper s')
      = if decide (version > oldVersion)
        then <[path event := data]> (secretstore (viper s))
        else secretstore (viper s).
Proof.
  intros Hpop Hvt Hcfg Hperiod Hget oldVersion.
  destruct (awake_facts event s) as (Hc & Hv & Ho).
  destruct (get_quiet _ _ _ _ Hget) as (Hv1 & _ & _ & Ho1).
  destruct (service_versioned event h0 (awake event s) cfg data version s1)
    as (h' & _ & _ & Hsvc); [by rewrite Hc|done|done|].
  eexists h', _. split.
  { rewrite (loopBody_service h s event h0 "kv") by done. exact Hsvc. }
  cbn [trace viper]. rewrite Hc. fold oldVersion.
  destruct (decide (version > oldVersion)).
  - rewrite outputs_afterPublish. simpl. split; congruence.
  - rewrite app_nil_r. split; congruence.
Qed.


(** C3, as amended.  A turn that services a versioned path and whose
    fetch succeeds leaves the fetched version on record for the path,
    whether it is greater than, equal to or lower than the version on
    record before, and leaves the record of every other path alone.  The
    mounts the path could resolve to are kv mounts whose names end in a
    slash, as the names the vault server lists do. *)
Theorem fetched_version_recorded h s event h0 cfg data version s1 :
  heap.Pop h = Some (event, h0) →
  eventVaultTypeOf (client s) event = Some "kv" →
  watchConfig (client s) = Some cfg → VersionPeriod cfg ≠ 0 →
  (∀ vault vtype,
     vaults (client s) !! vault = Some vtype →
     strings.HasPrefix (path event) vault = true →
     vtype = "kv" ∧ ∃ m, vault = m +:+ "/") →
  get (path event) (awake event s) = Done (inr (data, version)) s1 →
  ∃ h' s', loopBody h s = Done (Continue h') s'
    ∧ versions (client s') = <[path event := version]> (versions (client s)).
Proof.
  intros Hpop Hvt Hcfg Hperiod Hmounts Hget.
  destruct (awake_facts event s) as (Hc & _).
  destruct (get_kv_records (path event) (awake event s) cfg data version s1)
    as [Hrec _]; [by rewrite Hc|done|by rewrite Hc|done|].
  destruct (service_versioned event h0 (awake event s) cfg data version s1)
    as (h' & _ & _ & Hsvc); [by rewrite Hc|done|done|].
  eexists h', _. split.
  { rewrite (loopBody_service h s event h0 "kv") by done. exact Hsvc. }
  cbn [client]. rewrite <- Hc, <- Hrec. by case_decide.
Qed.

(** *** Errors and the empty watch set *)

Lemma service_error vt event h0 s cfg err s1 :
  watchConfig (client s) = Some cfg →
  (VersionPeriod cfg ≠ 0 ∧ vt = "kv") ∨ vt = "database" →
  get (path event) s = Done (inl err) s1 →
  ∃ msg, service vt event h0 s
         = Done (Return h0)
             (mkState (world s1) (client s1) (viper s1)
                (trace s1 ++ [ELogError [msg; path event; err]])).
Proof.
  intros Hcfg Hvt Hget. unfold service.
  rewrite (bind_Done _ _ s s s) by done.
  rewrite Hcfg. rewrite (bind_Done _ _ s cfg s) by done.
  destruct Hvt as [[Hperiod ->]| ->].
  - rewrite bool_decide_eq_true_2 by done. simpl.
    rewrite (bind_Done _ _ _ _ _ Hget). by eexists.
  - rewrite database_not_versionable. simpl.
    rewrite (bind_Done _ _ _ _ _ Hget). by eexists.
Qed.

Lemma loop_add k : ∀ n h s,
  loop (k + n) h s
  = match loop k h s with
    | Done (Continue h') s' => loop n h' s'
    | other => other
    end.
Proof.
  induction k as [|k IH]; intros n h s; [done|].
  cbn [Nat.add loop]. unfold mbind, M_bind.
  destruct (loopBody h s) as [[h'|h'] s'|msg s']; [apply IH|done|done].
Qed.

(** C2.  When the fetch of a turn fails, whatever the path and the
    error, the loop returns for good: however many more turns it is
    given, it ends in the state the failed fetch left, with one more
    line in the log, and with the queue as [heap.Pop] left it.  So the
    failed path is not pushed back, and no entry still queued is
    fetched. *)
Theorem fetch_error_ends_loop k h s hk sk event h0 vt cfg err s1 :
  loop k h s = Done (Continue hk) sk →
  heap.Pop hk = Some (event, h0) →
  eventVaultTypeOf (client sk) event = Some vt →
  watchConfig (client sk) = Some cfg →
  (VersionPeriod cfg ≠ 0 ∧ vt = "kv") ∨ vt = "database" →
  get (path event) (awake event sk) = Done (inl err) s1 →
  ∃ msg,
    let final := mkState (world s1) (client s1) (viper s1)
                   (trace s1 ++ [ELogError [msg; path event; err]]) in
    (∀ n, loop (k + S n) h s = Done (Return h0) final)
    ∧ viper final = viper sk
    ∧ outputs (trace final) = outputs (trace sk).
Proof.
  intros Hloop Hpop Hvt Hcfg Hkind Hget.
  destruct (awake_facts event sk) as (Hc & Hv & Ho).
  destruct (get_quiet _ _ _ _ Hget) as (Hv1 & _ & _ & Ho1).
  destruct (service_error vt event h0 (awake event sk) cfg err s1)
    as (msg & Hsvc); [by rewrite Hc|done|done|].
  exists msg. cbn zeta. split_and!.
  - intros n. rewrite loop_add, Hloop. cbn [loop].
    unfold mbind, M_bind.
    by rewrite (loopBody_service hk sk event h0 vt), Hsvc.
  - cbn [viper]. congruence.
  - cbn [trace]. rewrite outputs_snoc. simpl. rewrite app_nil_r. congruence.
Qed.

Lemma range_empty {V} s :
  ∃ s', range (∅ : gmap string V) s = Done [] s' ∧ worldOnly s s'.
Proof.
  destruct (range_Done (∅ : gmap string V) s) as (cs & s' & Hr & Hw).
  exists s'. split; [|done].
  by rewrite Hr, map_to_list_empty, rangeOrder_nil.
Qed.

(** C8.  With no leased path on record, and either a version period of
    zero or no versioned path on record, [watchVault] logs that there is
    nothing to watch, closes the alert channel and returns: the loop does
    not run, whatever the number of turns it would be given, and the
    trace gains no call to the vault server. *)
Theorem empty_watch_set_closes n s cfg :
  watchConfig (client s) = Some cfg →
  leases (client s) = ∅ →
  VersionPeriod cfg = 0 ∨ versions (client s) = ∅ →
  ∃ s', watchVault n s = Done WatchClosed s'
    ∧ trace s'
      = trace s ++ [ELogError ["No watchable paths found for vault watching."];
                    EClose]
    ∧ fetches (trace s') = fetches (trace s)
    ∧ client s' = client s ∧ viper s' = viper s.
Proof.
  intros Hcfg Hleases Hversions. unfold watchVault.
  rewrite (bind_Done _ _ s s s) by done. rewrite Hleases.
  destruct (range_empty (V:=Z) s) as (s1 & Hr1 & Hv1 & Hc1 & Ht1).
  rewrite (bind_Done _ _ _ _ _ Hr1). cbn [pushLeases].
  rewrite (bind_Done _ _ s1 [] s1) by done.
  rewrite Hcfg. rewrite (bind_Done _ _ s1 cfg s1) by done.
  assert (∃ s2, (if decide (VersionPeriod cfg ≠ 0)
                 then items ← range (versions (client s));
                      pushVersions (VersionPeriod cfg) items []
                 else mret []) s1 = Done [] s2 ∧ worldOnly s1 s2)
    as (s2 & Hr2 & Hv2 & Hc2 & Ht2).
  { case_decide as Hperiod; [|by exists s1].
    destruct Hversions as [?| ->]; [done|].
    destruct (range_empty (V:=Z) s1) as (s2 & Hr2 & Hw2).
    exists s2. split; [|done]. by rewrite (bind_Done _ _ _ _ _ Hr2). }
  rewrite (bind_Done _ _ _ _ _ Hr2).
  rewrite decide_True by done.
  eexists. split; [reflexivity|]. simpl.
  assert (∀ t : list Effect, (t ++ [ELogError
            ["No watchable paths found for vault watching."]]) ++ [EClose]
          = t ++ [ELogError ["No watchable paths found for vault watching."];
                  EClose]) as Happ by (intros t; by rewrite <- app_assoc).
  rewrite Happ, Ht2, Ht1.
  split_and!; [done| |congruence|congruence].
  unfold fetches. rewrite filter_app. apply app_nil_r.
Qed.

(** *** The queue across a turn *)


End watch_loop.

(** ** Registration *)

Section registration.

Context {W : Type} `{!Env W}.

Implicit Types (s : @State W).

Global Instance silent_preorder : PreOrder (@silent W).
Proof.
  split.
  - by intros s.
  - intros s1 s2 s3 [? ?] [? ?]. unfold silent. split; congruence.
Qed.

Lemma quiet_silent s s' : quiet s s' → silent s s'.
Proof. by intros (? & _ & _ & ?). Qed.

Lemma silent_setClient f : keeps silent (setClient (W:=W) f).
Proof. by intros s. Qed.

Lemma silent_range {V} (m : gmap string V) : keeps silent (range m).
Proof. intros s. apply quiet_silent, quiet_range. Qed.

Lemma silent_configureMounts items :
  keeps silent (configureMounts (W:=W) items).
Proof.
  induction items as [|[vault data] items IH]; simpl.
  - apply keeps_ret, _.
  - destruct (_ || _); [done|].
    destruct data as [[vtype|]|]; try apply keeps_panic, _.
    apply keeps_bind; [apply _|apply silent_setClient|done].
Qed.

Lemma silent_ConfigureVault : keeps silent ConfigureVault.
Proof.
  apply keeps_bind; [apply _| |].
  { intros s. apply quiet_silent, quiet_call. }
  intros [err|secret]; [apply keeps_ret, _|].
  apply keeps_bind; [apply _|apply silent_setClient|]. intros _.
  apply keeps_bind; [apply _|apply silent_range|]. intros items.
  apply keeps_bind; [apply _|apply silent_configureMounts|]. intros _.
  apply keeps_ret, _.
Qed.

(** Setting the client up touches neither the cache nor the channel. *)
Lemma silent_newClient watchConfig : keeps silent (newClient watchConfig).
Proof.
  apply keeps_bind; [apply _|apply silent_setClient|]. intros _.
  apply keeps_bind; [apply _|apply silent_ConfigureVault|].
  intros [e|]; [apply keeps_ret, _|].
  apply keeps_bind; [apply _| |intros _; apply keeps_ret, _].
  destruct watchConfig as [cfg|]; [|apply keeps_ret, _].
  apply keeps_bind; [apply _|apply silent_setClient|]. intros _.
  apply keeps_bind; [apply _|apply silent_setClient|]. intros _.
  case_decide; [apply silent_setClient|apply keeps_ret, _].
Qed.

Lemma Get_quiet key s r s1 : Get key s = Done r s1 → quiet s s1.
Proof. intros Hget. pose proof (quiet_Get key s) as Hq. by rewrite Hget in Hq. Qed.

(** Registering paths with success stores one value per path, in the
    order of the paths, and shows nothing else. *)
Lemma addPaths_Done_None paths : ∀ s s1,
  addPaths paths s = Done None s1 →
  ∃ values, length values = length paths
    ∧ outputs (trace s1) = outputs (trace s) ++ zip_with EStore paths values
    ∧ secretstore (viper s1) = storeAll paths values (secretstore (viper s)).
Proof.
  induction paths as [|p paths IH]; intros s s1 Hadd.
  { injection Hadd as <-. exists []. by rewrite app_nil_r. }
  cbn [addPaths] in Hadd.
  apply bind_inv in Hadd as ([data [e|]] & sa & Hget & Hadd); [done|].
  destruct (Get_quiet _ _ _ _ Hget) as (Hv & _ & _ & Ho).
  unfold store, emit, setViper, mbind, M_bind in Hadd. simpl in Hadd.
  apply IH in Hadd as (values & Hlen & Hout & Hstore). simpl in *.
  exists (data :: values). split_and!.
  - simpl. by rewrite Hlen.
  - rewrite Hout, outputs_snoc, Ho. simpl. by rewrite <- app_assoc.
  - rewrite Hstore, Hv. done.
Qed.

Lemma addPaths_app pre : ∀ rest s s1,
  addPaths pre s = Done None s1 →
  addPaths (pre ++ rest) s = addPaths rest s1.
Proof.
  induction pre as [|p pre IH]; intros rest s s1 Hadd.
  { by injection Hadd as <-. }
  cbn [addPaths app] in *. unfold mbind, M_bind in *.
  destruct (Get p s) as [[data [e|]] sa|msg sa]; [done| |done].
  by apply IH.
Qed.

(** C10.  When the first fetch of a requested path fails, [AddVault]
    returns the error and starts no watch loop, and what it wrote to the
    cache for the paths before it stays: the cache holds one value for
    each of them, written in their order, and nothing else was shown to
    the cache or the subscriber. *)
Theorem AddVault_keeps_earlier_writes
    watchConfig pre p rest s s0 s1 bts e s2 :
  newClient watchConfig s = Done None s0 →
  addPaths pre s0 = Done None s1 →
  Get p s1 = Done (bts, Some e) s2 →
  ∃ values, length values = length pre
    ∧ AddVault watchConfig (pre ++ p :: rest) s
      = Done (Some (addError e p)) s2
    ∧ outputs (trace s2) = outputs (trace s) ++ zip_with EStore pre values
    ∧ secretstore (viper s2) = storeAll pre values (secretstore (viper s))
    ∧ ∀ n, AddVaultAndWatch n watchConfig (pre ++ p :: rest) s
           = Done (Some (addError e p), None) s2.
Proof.
  intros Hnew Hpre Hget.
  pose proof (silent_newClient watchConfig s) as [Hv0 Ho0].
  rewrite Hnew in Hv0, Ho0. simpl in Hv0, Ho0.
  destruct (addPaths_Done_None pre s0 s1 Hpre)
    as (values & Hlen & Hout & Hstore).
  destruct (Get_quiet _ _ _ _ Hget) as (Hv2 & _ & _ & Ho2).
  assert (AddVault watchConfig (pre ++ p :: rest) s
          = Done (Some (addError e p)) s2) as Hadd.
  { unfold AddVault. rewrite (bind_Done _ _ _ _ _ Hnew).
    rewrite (bind_Done _ (λ err, match err with Some _ => _ | None => _ end)
               s0 (Some (addError e p)) s2); [done|].
    rewrite (addPaths_app pre (p :: rest) s0 s1 Hpre).
    cbn [addPaths]. by rewrite (bind_Done _ _ _ _ _ Hget). }
  exists values. split_and!; [done|done| | |].
  - congruence.
  - congruence.
  - intros n. unfold AddVaultAndWatch.
    by rewrite (bind_Done _ _ _ _ _ Hadd).
Qed.

(** C9.  A key that resolves to a kv mount and has no colon after the
    mount panics in [get] with an index out of range, before any call
    to the vault server; [Get], the registration loop and [AddVault]
    panic with it, none of them returns an error. *)
Theorem kv_key_without_colon_panics key s mountPath s1 :
  getVaultTypePath key s = Done ("kv", mountPath, None) s1 →
  strings.Contains (strings.TrimPrefix key (mountPath +:+ "/")) ":" = false →
  get key s = Panic "index out of range" s1
  ∧ Get key s = Panic "index out of range" s1
  ∧ (∀ rest, addPaths (key :: rest) s = Panic "index out of range" s1)
  ∧ (∀ watchConfig s0 rest,
       newClient watchConfig s0 = Done None s →
       AddVault watchConfig (key :: rest) s0
       = Panic "index out of range" s1)
  ∧ trace s1 = trace s.
Proof.
  intros Hmount Hcolon.
  assert (get key s = Panic "index out of range" s1) as Hget.
  { unfold get. rewrite (bind_Done _ _ _ _ _ Hmount). cbn beta iota.
    change (String.eqb "kv" "kv") with true. cbv iota.
    by rewrite (Split_no_sep _ _ Hcolon). }
  assert (Get key s = Panic "index out of range" s1) as HGet.
  { unfold Get. by rewrite (bind_Panic _ _ _ _ _ Hget). }
  assert (∀ rest, addPaths (key :: rest) s = Panic "index out of range" s1)
    as Hadd.
  { intros rest. cbn [addPaths]. by rewrite (bind_Panic _ _ _ _ _ HGet). }
  split_and!; [done|done|done| |].
  - intros watchConfig s0 rest Hnew. unfold AddVault.
    rewrite (bind_Done _ _ _ _ _ Hnew).
    by rewrite (bind_Panic _ _ _ _ _ (Hadd rest)).
  - by apply getVaultTypePath_inv in Hmount as ((_ & _ & ?) & _).
Qed.

End registration.

(** ** The order of service *)

Section service_order.

Context {W : Type} `{!Env W}.

(** *** The calls to the server in a turn *)

Global Instance noFetch_preorder : PreOrder (@noFetch W).
Proof.
  split.
  - by intros s.
  - intros s1 s2 s3 H1 H2. unfold noFetch in *. congruence.
Qed.










End service_order.

(** * Worked instances

    The theorems above at the inputs of module [Script], and the inputs
    at which the amended claims part from their first wording. *)

Section instances.

Import Script.


(** Two leased paths due in different seconds, queued later one first:
    the loop fetches the one due in the earlier second, then the
    other. *)
Lemma earlier_second_fetched_first :
  let A := mkWatchable "db/a" 300000000000 in
  let B := mkWatchable "db/b" 400000000000 in
  let s := mkState
             (mkWorld 0 dbMount [] [dbOk "u1" "p1" 600; dbOk "u2" "p2" 600] 0)
             (mkClient {[ "db/" := "database" ]}
                {[ "db/a" := 300; "db/b" := 400 ]} ∅ (Some (mkWatchConfig 0)))
             (mkViper ∅) [] in
  runOps [OpPush B; OpPush A] [] = Some ([A; B], [])
  ∧ fetches (trace (stateOf (loop 1 [A; B] s)))
    = [EDatabaseGenerateCredentials "db" "a"]
  ∧ fetches (trace (stateOf (loop 2 [A; B] s)))
    = [EDatabaseGenerateCredentials "db" "a";
       EDatabaseGenerateCredentials "db" "b"].
Proof. split_and!; vm_compute; reflexivity. Qed.

(** An entry whose path starts with a segment that is no mount is due
    first and popped first, but never fetched: the loop fetches the entry
    due later and goes on without the first. *)
Lemma earlier_entry_dropped_unfetched :
  let A := Cases.strayEvent in
  let B := mkWatchable "db/role" 400000000000 in
  let s := leasedState 0 in
  runOps [OpPush B; OpPush A] [] = Some ([A; B], [])
  ∧ dueSecond A < dueSecond B
  ∧ serviced (client s) A = false
  ∧ fetches (trace (stateOf (loop 1 [A; B] s))) = []
  ∧ fetches (trace (stateOf (loop 2 [A; B] s)))
    = [EDatabaseGenerateCredentials "db" "role"]
  ∧ ∃ s', loop 2 [A; B] s
          = Done (Continue [mkWatchable "db/role" 460000000000]) s'.
Proof.
  split_and!; try (vm_compute; reflexivity).
  eexists. vm_compute. reflexivity.
Qed.


(** Entries due in the same second do not leave in the order they came:
    pushed first, second and third, three such entries are popped first,
    third and second. *)
Lemma same_second_not_first_in_first_out :
  let first := mkWatchable "a/x" 1100000000 in
  let second := mkWatchable "b/y" 1200000000 in
  let third := mkWatchable "c/z" 1300000000 in
  runOps [OpPush first; OpPush second; OpPush third; OpPop; OpPop; OpPop] []
  = Some ([], [first; third; second]).
Proof. reflexivity. Qed.

Lemma leased_fetch_always_publishes_witness :
  let s := leasedState 0 in
  let s1 := stateOf (get "db/role" (awake leasedEvent s)) in
  heap.Pop [leasedEvent] = Some (leasedEvent, [])
  ∧ eventVaultTypeOf (client s) leasedEvent = Some "database"
  ∧ watchConfig (client s) = Some (mkWatchConfig 0)
  ∧ get "db/role" (awake leasedEvent s) = Done (inr ("u2:p2", 60)) s1
  ∧ ∃ h' s', loopBody [leasedEvent] s = Done (Continue h') s'
      ∧ outputs (trace s')
        = outputs (trace s)
          ++ [EStore "db/role" "u2:p2"; ESend (mkKVEntry "db/role" "u2:p2")]
      ∧ secretstore (viper s')
        = <["db/role" := "u2:p2"]> (secretstore (viper s)).
Proof.
  intros s s1.
  assert (heap.Pop [leasedEvent] = Some (leasedEvent, [])) as H1
    by reflexivity.
  assert (eventVaultTypeOf (client s) leasedEvent = Some "database") as H2
    by (vm_compute; reflexivity).
  assert (watchConfig (client s) = Some (mkWatchConfig 0)) as H3
    by reflexivity.
  assert (get "db/role" (awake leasedEvent s) = Done (inr ("u2:p2", 60)) s1)
    as H4 by (vm_compute; reflexivity).
  split_and!; [done..|].
  exact (leased_fetch_always_publishes [leasedEvent] s leasedEvent []
           _ _ _ s1 H1 H2 H3 H4).
Defined.

Lemma leased_due_after_delivery_witness :
  let s := leasedState 5000000000 in
  let s1 := stateOf (get "db/role" (awake leasedEvent s)) in
  heap.Pop [leasedEvent] = Some (leasedEvent, [])
  ∧ eventVaultTypeOf (client s) leasedEvent = Some "database"
  ∧ watchConfig (client s) = Some (mkWatchConfig 0)
  ∧ get "db/role" (awake leasedEvent s) = Done (inr ("u2:p2", 60)) s1
  ∧ (∃ h' s', loopBody [leasedEvent] s = Done (Continue h') s'
       ∧ heap.Push [] (mkWatchable "db/role" 365000000000) = Some h'
       ∧ h' ≡ₚ [mkWatchable "db/role" 365000000000])
  ∧ (- 2 ^ 63 ≤ 60 * time.Second < 2 ^ 63 →
     time.Seconds 60 = 60 * time.Second).
Proof.
  intros s s1.
  assert (heap.Pop [leasedEvent] = Some (leasedEvent, [])) as H1
    by reflexivity.
  assert (eventVaultTypeOf (client s) leasedEvent = Some "database") as H2
    by (vm_compute; reflexivity).
  assert (watchConfig (client s) = Some (mkWatchConfig 0)) as H3
    by reflexivity.
  assert (get "db/role" (awake leasedEvent s) = Done (inr ("u2:p2", 60)) s1)
    as H4 by (vm_compute; reflexivity).
  split_and!; [done..| |];
    apply (leased_due_after_delivery [leasedEvent] s leasedEvent []
             _ _ _ s1 H1 H2 H3 H4).
Defined.

(** C6 as first worded fails when the subscriber is slow to accept the
    event.  The lease on record runs out at 300 s; the fetch is made and
    answered at 300 s with a lease of 60 s; the subscriber needs 5 s to
    take the event; the path is pushed back due at 365 s, not at the
    300 s + 60 s of the fetch's completion plus its lease. *)
Lemma leased_due_not_at_fetch_completion :
  let s := leasedState 5000000000 in
  let s1 := stateOf (get "db/role" (awake leasedEvent s)) in
  get "db/role" (awake leasedEvent s) = Done (inr ("u2:p2", 60)) s1
  ∧ (Now (world s1)).2 = 300000000000
  ∧ valueOf (loopBody [leasedEvent] s)
    = Some (Continue [mkWatchable "db/role" 365000000000])
  ∧ mkWatchable "db/role" (time.Add (Now (world s1)).2 (time.Seconds 60))
    ∉ [mkWatchable "db/role" 365000000000].
Proof.
  split_and!; [by vm_compute..|].
  intros [Heq|Hin%elem_of_nil]%elem_of_cons; [|done].
  by vm_compute in Heq.
Qed.

Lemma versioned_fetch_publishes_iff_newer_witness :
  let s := versionedState 1 2 0 in
  let s1 := stateOf (get "kv/p:f" (awake versionedEvent s)) in
  heap.Pop [versionedEvent] = Some (versionedEvent, [])
  ∧ eventVaultTypeOf (client s) versionedEvent = Some "kv"
  ∧ watchConfig (client s) = Some (mkWatchConfig 10000000000)
  ∧ 10000000000 ≠ 0
  ∧ get "kv/p:f" (awake versionedEvent s) = Done (inr ("v2", 2)) s1
  ∧ ∃ h' s', loopBody [versionedEvent] s = Done (Continue h') s'
      ∧ outputs (trace s')
        = outputs (trace s)
          ++ (if decide (2 > default 0 (versions (client s) !! "kv/p:f"))
              then [EStore "kv/p:f" "v2"; ESend (mkKVEntry "kv/p:f" "v2")]
              else [])
      ∧ secretstore (viper s')
        = if decide (2 > default 0 (versions (client s) !! "kv/p:f"))
          then <["kv/p:f" := "v2"]> (secretstore (viper s))
          else secretstore (viper s).
Proof.
  intros s s1.
  assert (heap.Pop [versionedEvent] = Some (versionedEvent, [])) as H1
    by reflexivity.
  assert (eventVaultTypeOf (client s) versionedEvent = Some "kv") as H2
    by (vm_compute; reflexivity).
  assert (watchConfig (client s) = Some (mkWatchConfig 10000000000)) as H3
    by reflexivity.
  assert (VersionPeriod (mkWatchConfig 10000000000) ≠ 0) as H4 by (simpl; lia).
  assert (get "kv/p:f" (awake versionedEvent s) = Done (inr ("v2", 2)) s1)
    as H5 by (vm_compute; reflexivity).
  split_and!; [done..|].
  exact (versioned_fetch_publishes_iff_newer [versionedEvent] s versionedEvent
           [] _ _ _ s1 H1 H2 H3 H4 H5).
Defined.



Lemma fetched_version_recorded_witness :
  let s := versionedState 5 3 0 in
  let s1 := stateOf (get "kv/p:f" (awake versionedEvent s)) in
  heap.Pop [versionedEvent] = Some (versionedEvent, [])
  ∧ eventVaultTypeOf (client s) versionedEvent = Some "kv"
  ∧ watchConfig (client s) = Some (mkWatchConfig 10000000000)
  ∧ 10000000000 ≠ 0
  ∧ (∀ vault vtype,
       vaults (client s) !! vault = Some vtype →
       strings.HasPrefix "kv/p:f" vault = true →
       vtype = "kv" ∧ ∃ m, vault = m +:+ "/")
  ∧ get "kv/p:f" (awake versionedEvent s) = Done (inr ("v2", 3)) s1
  ∧ ∃ h' s', loopBody [versionedEvent] s = Done (Continue h') s'
      ∧ versions (client s') = <["kv/p:f" := 3]> (versions (client s)).
Proof.
  intros s s1.
  assert (heap.Pop [versionedEvent] = Some (versionedEvent, [])) as H1
    by reflexivity.
  assert (eventVaultTypeOf (client s) versionedEvent = Some "kv") as H2
    by (vm_compute; reflexivity).
  assert (watchConfig (client s) = Some (mkWatchConfig 10000000000)) as H3
    by reflexivity.
  assert (VersionPeriod (mkWatchConfig 10000000000) ≠ 0) as H4 by (simpl; lia).
  assert (∀ vault vtype,
            vaults (client s) !! vault = Some vtype →
            strings.HasPrefix (path versionedEvent) vault = true →
            vtype = "kv" ∧ ∃ m, vault = m +:+ "/") as H5.
  { intros vault vtype Hlook _. simpl in Hlook.
    apply lookup_singleton_Some in Hlook as [<- <-].
    split; [done|]. by exists "kv". }
  assert (get "kv/p:f" (awake versionedEvent s) = Done (inr ("v2", 3)) s1)
    as H6 by (vm_compute; reflexivity).
  split_and!; [done..|].
  exact (fetched_version_recorded [versionedEvent] s versionedEvent
           [] _ _ _ s1 H1 H2 H3 H4 H5 H6).
Defined.

(** C3 as first worded fails when the fetch brings a lower version: with
    version 5 on record for the path, a fetch that succeeds with version 3
    leaves version 3 on record (and, the version not being newer, writes
    and sends nothing). *)
Lemma lower_version_overwrites_record :
  let s := versionedState 5 3 0 in
  versions (client s) !! "kv/p:f" = Some 5
  ∧ valueOf (get "kv/p:f" (awake versionedEvent s)) = Some (inr ("v2", 3))
  ∧ 3 ≤ 5
  ∧ valueOf (loopBody [versionedEvent] s)
    = Some (Continue [mkWatchable "kv/p:f" 20000000000])
  ∧ versions (client (stateOf (loopBody [versionedEvent] s))) !! "kv/p:f"
    = Some 3
  ∧ outputs (trace (stateOf (loopBody [versionedEvent] s))) = [].
Proof. split_and!; by vm_compute. Qed.

Lemma fetch_error_ends_loop_witness :
  let s := unreachableState in
  let s1 := stateOf (get "kv/p:f" (awake versionedEvent s)) in
  loop 0 [versionedEvent] s = Done (Continue [versionedEvent]) s
  ∧ heap.Pop [versionedEvent] = Some (versionedEvent, [])
  ∧ eventVaultTypeOf (client s) versionedEvent = Some "kv"
  ∧ watchConfig (client s) = Some (mkWatchConfig 10000000000)
  ∧ ((10000000000 ≠ 0 ∧ "kv" = "kv") ∨ "kv" = "database")
  ∧ get "kv/p:f" (awake versionedEvent s) = Done (inl "connection refused") s1
  ∧ ∃ msg,
      let final := mkState (world s1) (client s1) (viper s1)
                     (trace s1
                      ++ [ELogError [msg; "kv/p:f"; "connection refused"]]) in
      (∀ n, loop (0 + S n) [versionedEvent] s = Done (Return []) final)
      ∧ viper final = viper s
      ∧ outputs (trace final) = outputs (trace s).
Proof.
  intros s s1.
  assert (loop 0 [versionedEvent] s = Done (Continue [versionedEvent]) s)
    as H1 by reflexivity.
  assert (heap.Pop [versionedEvent] = Some (versionedEvent, [])) as H2
    by reflexivity.
  assert (eventVaultTypeOf (client s) versionedEvent = Some "kv") as H3
    by (vm_compute; reflexivity).
  assert (watchConfig (client s) = Some (mkWatchConfig 10000000000)) as H4
    by reflexivity.
  assert ((VersionPeriod (mkWatchConfig 10000000000) ≠ 0 ∧ "kv" = "kv")
          ∨ "kv" = "database") as H5 by (left; split; [simpl; lia|reflexivity]).
  assert (get "kv/p:f" (awake versionedEvent s)
          = Done (inl "connection refused") s1)
    as H6 by (vm_compute; reflexivity).
  split_and!; [done..|].
  exact (fetch_error_ends_loop 0 [versionedEvent] s [versionedEvent] s
           versionedEvent [] "kv" _ _ s1 H1 H2 H3 H4 H5 H6).
Defined.

Lemma empty_watch_set_closes_witness :
  let s := nothingToWatch in
  watchConfig (client s) = Some (mkWatchConfig 10000000000)
  ∧ leases (client s) = ∅
  ∧ (10000000000 = 0 ∨ versions (client s) = ∅)
  ∧ ∃ s', watchVault 3 s = Done WatchClosed s'
      ∧ trace s'
        = trace s ++ [ELogError ["No watchable paths found for vault watching."];
                      EClose]
      ∧ fetches (trace s') = fetches (trace s)
      ∧ client s' = client s ∧ viper s' = viper s.
Proof.
  intros s.
  assert (watchConfig (client s) = Some (mkWatchConfig 10000000000)) as H1
    by reflexivity.
  assert (leases (client s) = ∅) as H2 by reflexivity.
  assert (VersionPeriod (mkWatchConfig 10000000000) = 0
          ∨ versions (client s) = ∅) as H3 by (right; reflexivity).
  split_and!; [done..|].
  exact (empty_watch_set_closes 3 s _ H1 H2 H3).
Defined.

Lemma kv_key_without_colon_panics_witness :
  let s := nothingToWatch in
  let s1 := stateOf (getVaultTypePath "kv/role" s) in
  getVaultTypePath "kv/role" s = Done ("kv", "kv", None) s1
  ∧ strings.Contains (strings.TrimPrefix "kv/role" ("kv" +:+ "/")) ":" = false
  ∧ get "kv/role" s = Panic "index out of range" s1
  ∧ Get "kv/role" s = Panic "index out of range" s1
  ∧ (∀ rest, addPaths ("kv/role" :: rest) s = Panic "index out of range" s1)
  ∧ (∀ watchConfig s0 rest,
       newClient watchConfig s0 = Done None s →
       AddVault watchConfig ("kv/role" :: rest) s0
       = Panic "index out of range" s1)
  ∧ trace s1 = trace s.
Proof.
  intros s s1.
  assert (getVaultTypePath "kv/role" s = Done ("kv", "kv", None) s1) as H1
    by (vm_compute; reflexivity).
  assert (strings.Contains (strings.TrimPrefix "kv/role" ("kv" +:+ "/")) ":"
          = false) as H2 by (vm_compute; reflexivity).
  split_and!; [done..| | | | |];
    apply (kv_key_without_colon_panics "kv/role" s "kv" s1 H1 H2).
Defined.

Lemma AddVault_keeps_earlier_writes_witness :
  let s := beforeAddVault in
  let s0 := stateOf (newClient None s) in
  let s1 := stateOf (addPaths ["kv/p:f"] s0) in
  let s2 := stateOf (Get "kv/q:g" s1) in
  newClient None s = Done None s0
  ∧ addPaths ["kv/p:f"] s0 = Done None s1
  ∧ Get "kv/q:g" s1 = Done ("", Some "connection refused") s2
  ∧ ∃ values, length values = length ["kv/p:f"]
      ∧ AddVault None (["kv/p:f"] ++ "kv/q:g" :: []) s
        = Done (Some (addError "connection refused" "kv/q:g")) s2
      ∧ outputs (trace s2)
        = outputs (trace s) ++ zip_with EStore ["kv/p:f"] values
      ∧ secretstore (viper s2)
        = storeAll ["kv/p:f"] values (secretstore (viper s))
      ∧ ∀ n, AddVaultAndWatch n None (["kv/p:f"] ++ "kv/q:g" :: []) s
             = Done (Some (addError "connection refused" "kv/q:g"), None) s2.
Proof.
  intros s s0 s1 s2.
  assert (newClient None s = Done None s0) as H1 by (vm_compute; reflexivity).
  assert (addPaths ["kv/p:f"] s0 = Done None s1) as H2
    by (vm_compute; reflexivity).
  assert (Get "kv/q:g" s1 = Done ("", Some "connection refused") s2) as H3
    by (vm_compute; reflexivity).
  split_and!; [done..|].
  exact (AddVault_keeps_earlier_writes None ["kv/p:f"] "kv/q:g" [] s s0 s1
           "" "connection refused" s2 H1 H2 H3).
Defined.

End instances.

(** * More of the queue *)

Section queue_more.

Lemma Pop_nil : heap.Pop [] = None.
Proof. reflexivity. Qed.

Lemma popAll_spec n : ∀ h : watchableHeap,
  heapOrdered h → length h = n →
  ∃ popped, runOps (replicate n OpPop) h = Some ([], popped)
            ∧ popped ≡ₚ h ∧ dueSorted popped.
Proof.
  induction n as [|n IH]; intros h Hord Hlen.
  { destruct h; [|done]. exists []. split_and!; [done|done|constructor]. }
  destruct (Pop_spec h Hord) as (x & h' & Hpop & Hord' & Hperm & Hmin).
  { by destruct h. }
  assert (length h' = n) as Hlen'.
  { apply Permutation_length in Hperm. simpl in Hperm. lia. }
  destruct (IH h' Hord' Hlen') as (popped & Hrun & Hp & Hsorted).
  exists (x :: popped). cbn [replicate runOps].
  rewrite Hpop. simpl. rewrite Hrun. simpl. split_and!; [done| |].
  - by rewrite Hperm, Hp.
  - constructor; [done|].
    apply Forall_forall. intros y Hy. apply Hmin.
    rewrite Hperm. right. by rewrite <- Hp.
Qed.

(** X1.  Popping a queue the program can hold until it is empty never
    panics and returns every queued entry exactly once, in an order in
    which the whole second an entry is due in never decreases. *)
Theorem drain_sorted ops0 popped0 (h : watchableHeap) :
  runOps ops0 [] = Some (h, popped0) →
  ∃ popped, runOps (replicate (length h) OpPop) h = Some ([], popped)
            ∧ popped ≡ₚ h ∧ dueSorted popped.
Proof.
  intros Hreach. apply popAll_spec; [|done].
  eapply runOps_ordered; [apply heapOrdered_nil|done].
Qed.

Lemma runOps_conserves ops : ∀ (h hf : watchableHeap) popped,
  heapOrdered h → runOps ops h = Some (hf, popped) →
  popped ++ hf ≡ₚ h ++ pushedOf ops.
Proof.
  induction ops as [|[x|] ops IH]; intros h hf popped Hord Hrun;
    simpl in Hrun.
  - simplify_eq. simpl. by rewrite app_nil_r.
  - destruct (Push_spec h x Hord) as (h' & Hp & Hord' & Hperm).
    rewrite Hp in Hrun. simpl in Hrun.
    rewrite (IH h' hf popped Hord' Hrun), Hperm.
    cbn [pushedOf omap list_omap]. fold (pushedOf ops).
    simpl. apply Permutation_middle.
  - destruct (heap.Pop h) as [[x h']|] eqn:Hp; [|done]. simpl in Hrun.
    destruct (runOps ops h') as [[hf' popped']|] eqn:Hrest; [|done].
    simpl in Hrun. simplify_eq.
    destruct h as [|w h]; [done|].
    destruct (Pop_spec (w :: h) Hord) as (x' & h'' & Hp' & Hord' & Hperm & _);
      [done|].
    rewrite Hp in Hp'. simplify_eq.
    cbn [pushedOf omap list_omap]. fold (pushedOf ops).
    rewrite Hperm. simpl. f_equiv. by apply IH.
Qed.

(** X2.  Whatever is pushed and popped, starting from the empty queue,
    the queue neither loses nor duplicates an entry: the entries popped
    together with the entries still queued are exactly the entries
    pushed. *)
Theorem queue_conserves_entries ops (hf : watchableHeap) popped :
  runOps ops [] = Some (hf, popped) →
  popped ++ hf ≡ₚ pushedOf ops.
Proof.
  intros Hrun. by apply (runOps_conserves ops [] hf popped heapOrdered_nil).
Qed.

Lemma runOps_None ops : ∀ h : watchableHeap,
  heapOrdered h → runOps ops h = None →
  ∃ before after hb popped,
    ops = before ++ OpPop :: after ∧ runOps before h = Some (hb, popped)
    ∧ hb = [].
Proof.
  induction ops as [|[x|] ops IH]; intros h Hord Hrun; simpl in Hrun.
  - done.
  - destruct (Push_spec h x Hord) as (h' & Hp & Hord' & _).
    rewrite Hp in Hrun. simpl in Hrun.
    destruct (IH h' Hord' Hrun) as (before & after & hb & popped & -> & Hb & ->).
    exists (OpPush x :: before), after, [], popped.
    split_and!; [done| |done]. simpl. by rewrite Hp.
  - destruct h as [|w h].
    { by exists [], ops, [], []. }
    destruct (Pop_spec (w :: h) Hord) as (x & h' & Hp & Hord' & _); [done|].
    rewrite Hp in Hrun. simpl in Hrun.
    destruct (runOps ops h') as [[hf popped]|] eqn:Hrest; [done|].
    destruct (IH h' Hord' Hrest) as (before & after & hb & popped & -> & Hb & ->).
    exists (OpPop :: before), after, [], (x :: popped).
    split_and!; [done| |done]. simpl. rewrite Hp. simpl. by rewrite Hb.
Qed.

(** X3.  A sequence of queue operations that starts from the empty
    queue panics only by popping the empty queue: if it panics, the
    operations before some pop ran through and left the queue empty. *)
Theorem queue_panics_only_on_empty_pop ops :
  runOps ops [] = None →
  ∃ before after popped,
    ops = before ++ OpPop :: after ∧ runOps before [] = Some ([], popped).
Proof.
  intros Hrun.
  destruct (runOps_None ops [] heapOrdered_nil Hrun)
    as (before & after & hb & popped & -> & Hb & ->).
  by exists before, after, popped.
Qed.

End queue_more.

(** * More of the vault client *)

Section client_more.

Context {W : Type} `{!Env W}.

Implicit Types (s : @State W).

Lemma skippedMount_unfold vault :
  strings.HasPrefix vault "sys/"
  || String.eqb vault "cubbyhole/"
  || String.eqb vault "identity/" = skippedMount vault.
Proof. reflexivity. Qed.

Lemma elem_of_keys {A} (items : list (string * A)) v d :
  (v, d) ∈ items → v ∈ items.*1.
Proof. intros Hin. apply list_elem_of_fmap. by exists (v, d). Qed.

(** Where a key of the mount table comes from once one more listed
    mount has been looked at. *)
Lemma mount_step_iff (items : list (string * mountData)) v0 d0 v t
    (P : Prop) (old : Prop) :
  v0 ∉ items.*1 →
  (P ↔ (skippedMount v = false
        ∧ ∃ d, (v, d) ∈ items ∧ mountType d = Some t)
       ∨ ((v ∉ items.*1 ∨ skippedMount v = true)
          ∧ ((v = v0 ∧ skippedMount v0 = false ∧ mountType d0 = Some t)
             ∨ ((v ≠ v0 ∨ skippedMount v0 = true) ∧ old)))) →
  (skippedMount v0 = false → is_Some (mountType d0)) →
  (P ↔ (skippedMount v = false
        ∧ ∃ d, (v, d) ∈ (v0, d0) :: items ∧ mountType d = Some t)
       ∨ ((v ∉ ((v0, d0) :: items).*1 ∨ skippedMount v = true) ∧ old)).
Proof.
  intros Hfresh -> Hwf. rewrite fmap_cons, not_elem_of_cons. cbn [fst].
  split.
  - intros [(Hs & d & Hin & Ht)|[Hcond [(-> & Hs & Ht)|[Hne Hold]]]].
    + left. split; [done|]. exists d. split; [by right|done].
    + left. split; [done|]. exists d0. split; [by left|done].
    + right. split; [|done].
      destruct Hcond as [Hnin|Hs]; [|by right].
      destruct Hne as [Hne|Hs0]; [by left|].
      destruct (decide (v = v0)) as [->|?]; [by right|by left].
  - intros [(Hs & d & Hin & Ht)|[Hcond Hold]].
    + apply elem_of_cons in Hin as [[= -> ->]|Hin].
      * right. split; [by left|]. left. done.
      * left. split; [done|]. by exists d.
    + right. destruct Hcond as [[Hne Hnin]|Hs].
      * split; [by left|]. right. split; [by left|done].
      * split; [by right|]. right. split; [|done].
        destruct (decide (v = v0)) as [->|?]; [by right|by left].
Qed.

Lemma configureMounts_ok items :
  NoDup items.*1 →
  (∀ v d, (v, d) ∈ items → skippedMount v = false → is_Some (mountType d)) →
  ∀ s, ∃ s',
    configureMounts items s = Done tt s'
    ∧ world s' = world s ∧ viper s' = viper s ∧ trace s' = trace s
    ∧ leases (client s') = leases (client s)
    ∧ versions (client s') = versions (client s)
    ∧ watchConfig (client s') = watchConfig (client s)
    ∧ ∀ v t, vaults (client s') !! v = Some t ↔
        (skippedMount v = false
         ∧ ∃ d, (v, d) ∈ items ∧ mountType d = Some t)
        ∨ ((v ∉ items.*1 ∨ skippedMount v = true)
           ∧ vaults (client s) !! v = Some t).
Proof.
  induction items as [|[v0 d0] items IH]; intros Hnodup Hwf s.
  { exists s. split_and!; try done. intros v t. split.
    - intros Hv. right. split; [left; apply not_elem_of_nil|done].
    - intros [(_ & d & Hin & _)|[_ Hv]]; [by apply elem_of_nil in Hin|done]. }
  rewrite fmap_cons in Hnodup. cbn [fst] in Hnodup.
  apply NoDup_cons in Hnodup as [Hfresh Hnodup].
  assert (∀ v d, (v, d) ∈ items → skippedMount v = false
                 → is_Some (mountType d)) as Hwf'.
  { intros v d Hin. apply Hwf. by right. }
  assert (skippedMount v0 = false → is_Some (mountType d0)) as Hwf0.
  { apply Hwf. by left. }
  cbn [configureMounts]. rewrite skippedMount_unfold.
  destruct (skippedMount v0) eqn:Hskip.
  - destruct (IH Hnodup Hwf' s)
      as (s' & Hrun & ? & ? & ? & ? & ? & ? & Hlook).
    exists s'. split_and!; try done. intros v t.
    apply mount_step_iff; [done| |by rewrite Hskip].
    rewrite Hlook, Hskip. split.
    + intros [?|[? ?]]; [by left|]. right. split; [done|].
      right. split; [by right|done].
    + intros [?|[? [(_ & ? & _)|[_ ?]]]]; [by left|done|by right].
  - destruct (Hwf0 eq_refl) as [t0 Ht0].
    destruct d0 as [[vtype|]|]; try done.
    injection Ht0 as ->.
    set (s1 := mkState (world s)
                 (setVaults (<[v0 := t0]> (vaults (client s))) (client s))
                 (viper s) (trace s)).
    destruct (IH Hnodup Hwf' s1)
      as (s' & Hrun & ? & ? & ? & ? & ? & ? & Hlook).
    exists s'. split_and!; try done. intros v t.
    apply mount_step_iff; [done| |done].
    rewrite Hlook, Hskip. subst s1. cbn [client vaults setVaults mountType].
    destruct (decide (v = v0)) as [->|Hne].
    + rewrite lookup_insert_eq. split.
      * intros [?|[? [= ->]]]; [by left|]. right. split; [done|]. by left.
      * intros [?|[? [(_ & _ & [= ->])|[[?|?] _]]]]; [by left| |done|done].
        by right.
    + rewrite lookup_insert_ne by done. split.
      * intros [?|[? ?]]; [by left|]. right. split; [done|].
        right. split; [by left|done].
      * intros [?|[? [(? & _)|[_ ?]]]]; [by left|done|by right].
Qed.

(** X4.  When the server lists its mounts and every listed mount that
    is not passed over (those under [sys/], [cubbyhole/] and [identity/])
    is a map with a string type, [ConfigureVault] returns no error and
    the client's mount table holds exactly the mounts not passed over,
    each with its listed type, whatever the order the listing is visited
    in; nothing else of the client, the cache or the trace changes. *)
Theorem ConfigureVault_mounts s w' secret :
  InternalUiListEnabledVisibleMounts (world s) = (w', inr secret) →
  (∀ v d, secret !! v = Some d → skippedMount v = false
          → is_Some (mountType d)) →
  ∃ s', ConfigureVault s = Done None s'
    ∧ viper s' = viper s ∧ trace s' = trace s
    ∧ leases (client s') = leases (client s)
    ∧ versions (client s') = versions (client s)
    ∧ watchConfig (client s') = watchConfig (client s)
    ∧ ∀ v t, vaults (client s') !! v = Some t ↔
        skippedMount v = false
        ∧ ∃ d, secret !! v = Some d ∧ mountType d = Some t.
Proof.
  intros Hlist Hwf. unfold ConfigureVault.
  rewrite (bind_Done _ _ s (inr secret)
             (mkState w' (client s) (viper s) (trace s)));
    [|by unfold call; rewrite Hlist].
  rewrite (bind_Done _ _ _ tt
             (mkState w' (setVaults ∅ (client s)) (viper s) (trace s)))
    by done.
  destruct (range_Done secret
              (mkState w' (setVaults ∅ (client s)) (viper s) (trace s)))
    as (cs & s2 & Hrange & Hv2 & Hc2 & Ht2).
  rewrite (bind_Done _ _ _ _ _ Hrange).
  assert (∀ v d, (v, d) ∈ rangeOrder cs (map_to_list secret)
                 ↔ secret !! v = Some d) as Hmem.
  { intros v d. rewrite rangeOrder_perm. apply elem_of_map_to_list. }
  destruct (configureMounts_ok (rangeOrder cs (map_to_list secret))) with s2
    as (s' & Hrun & Hw & Hv & Ht & Hl & Hve & Hwc & Hlook).
  { rewrite rangeOrder_perm. apply NoDup_fst_map_to_list. }
  { intros v d Hin. apply Hwf. by apply Hmem. }
  rewrite (bind_Done _ _ _ _ _ Hrun).
  exists s'. split; [done|]. rewrite Hc2 in Hl, Hve, Hwc, Hlook.
  simpl in *. split_and!; try congruence.
  intros v t. rewrite Hlook, lookup_empty. split.
  - intros [(Hs & d & Hin & Hd)|[_ ?]]; [|done].
    split; [done|]. exists d. split; [by apply Hmem|done].
  - intros (Hs & d & Hin & Hd). left. split; [done|].
    exists d. split; [by apply Hmem|done].
Qed.

Lemma configureMounts_bad items : ∀ s,
  (∃ v d, (v, d) ∈ items ∧ skippedMount v = false ∧ mountType d = None) →
  ∃ s', configureMounts items s = Panic "interface conversion" s'
        ∧ viper s' = viper s ∧ trace s' = trace s.
Proof.
  induction items as [|[v0 d0] items IH]; intros s (v & d & Hin & Hs & Hd).
  { by apply elem_of_nil in Hin. }
  cbn [configureMounts]. rewrite skippedMount_unfold.
  apply elem_of_cons in Hin as [[= -> ->]|Hin].
  { rewrite Hs. destruct d0 as [[vtype|]|]; [done|by exists s|by exists s]. }
  destruct (skippedMount v0); [apply IH; eauto|].
  destruct d0 as [[vtype|]|]; [|by exists s|by exists s].
  unfold mbind, M_bind, setClient. simpl.
  edestruct IH as (s' & -> & ? & ?); [eauto|]. by exists s'.
Qed.

(** X5.  When the server lists a mount that is not passed over and whose
    data is not a map with a string type, [ConfigureVault] panics on the
    type assertion instead of returning an error, and [AddVault] panics
    with it, before any path is fetched or stored. *)
Theorem ConfigureVault_malformed_mount_panics s w' secret v d :
  InternalUiListEnabledVisibleMounts (world s) = (w', inr secret) →
  secret !! v = Some d → skippedMount v = false → mountType d = None →
  (∃ s', ConfigureVault s = Panic "interface conversion" s'
         ∧ viper s' = viper s ∧ trace s' = trace s)
  ∧ ∀ watchConfig paths,
      ∃ s', AddVault watchConfig paths s = Panic "interface conversion" s'
            ∧ viper s' = viper s ∧ trace s' = trace s.
Proof.
  intros Hlist Hv Hs Hd.
  assert (∀ c, ∃ s', ConfigureVault (mkState (world s) c (viper s) (trace s))
                     = Panic "interface conversion" s'
                     ∧ viper s' = viper s ∧ trace s' = trace s) as Hpanic.
  { intros c. unfold ConfigureVault.
    rewrite (bind_Done _ _ _ (inr secret)
               (mkState w' c (viper s) (trace s)));
      [|by unfold call; simpl; rewrite Hlist].
    rewrite (bind_Done _ _ _ tt
               (mkState w' (setVaults ∅ c) (viper s) (trace s))) by done.
    destruct (range_Done secret
                (mkState w' (setVaults ∅ c) (viper s) (trace s)))
      as (cs & s2 & Hrange & Hv2 & Hc2 & Ht2).
    rewrite (bind_Done _ _ _ _ _ Hrange).
    destruct (configureMounts_bad (rangeOrder cs (map_to_list secret)) s2)
      as (s' & Hrun & Hv' & Ht').
    { exists v, d. split_and!; [|done|done].
      rewrite rangeOrder_perm. by apply elem_of_map_to_list. }
    rewrite (bind_Panic _ _ _ _ _ Hrun).
    exists s'. split_and!; [done| |]; simpl in *; congruence. }
  split.
  - destruct (Hpanic (client s)) as (s' & Hrun & ? & ?).
    exists s'. by destruct s.
  - intros watchConfig paths.
    destruct (Hpanic (mkClient ∅ ∅ ∅ None)) as (s' & Hrun & ? & ?).
    exists s'. split_and!; [|done|done].
    unfold AddVault, newClient.
    rewrite (bind_Panic _ _ s "interface conversion" s'); [done|].
    rewrite (bind_Done _ _ s tt
               (mkState (world s) (mkClient ∅ ∅ ∅ None) (viper s) (trace s)))
      by done.
    by rewrite (bind_Panic _ _ _ _ _ Hrun).
Qed.

(** X6.  When the listing of the mounts fails, [AddVault] returns that
    error as it is (not wrapped as the error of a path), with a fresh
    client, and fetches nothing, stores nothing and starts no watch. *)
Theorem AddVault_listing_error s w' err watchConfig paths :
  InternalUiListEnabledVisibleMounts (world s) = (w', inl err) →
  AddVault watchConfig paths s
  = Done (Some err)
      (mkState w' (mkClient ∅ ∅ ∅ None) (viper s) (trace s))
  ∧ ∀ n, AddVaultAndWatch n watchConfig paths s
         = Done (Some err, None)
             (mkState w' (mkClient ∅ ∅ ∅ None) (viper s) (trace s)).
Proof.
  intros Hlist.
  assert (AddVault watchConfig paths s
          = Done (Some err)
              (mkState w' (mkClient ∅ ∅ ∅ None) (viper s) (trace s)))
    as Hadd.
  { unfold AddVault, newClient, ConfigureVault, call, setClient, mbind,
      M_bind. simpl. by rewrite Hlist. }
  split; [done|]. intros n. unfold AddVaultAndWatch.
  by rewrite (bind_Done _ _ _ _ _ Hadd).
Qed.

(** *** Resolving a key to its mount *)

Lemma findMount_none key items s :
  (∀ v t, (v, t) ∈ items → strings.HasPrefix key v = false) →
  findMount key items s
  = Done ("", "", Some ("Secrets engine for key ( " +:+ key
                          +:+ " ) does not exist.")) s.
Proof.
  induction items as [|[v t] items IH]; intros Hnone; [done|].
  cbn [findMount]. rewrite (Hnone v t) by by left.
  apply IH. intros v' t' Hin. apply (Hnone v' t'). by right.
Qed.

Lemma findMount_unique key items s m t :
  (m +:+ "/", t) ∈ items →
  strings.HasPrefix key (m +:+ "/") = true →
  (∀ v t', (v, t') ∈ items → strings.HasPrefix key v = true →
           v = m +:+ "/" ∧ t' = t) →
  findMount key items s = Done (t, m, None) s.
Proof.
  induction items as [|[v t'] items IH]; intros Hin Hpre Huniq.
  { by apply elem_of_nil in Hin. }
  cbn [findMount]. destruct (strings.HasPrefix key v) eqn:Hv.
  - destruct (Huniq v t') as [-> ->]; [by left|done|].
    by rewrite dropLast_snoc.
  - apply elem_of_cons in Hin as [[= <- <-]|Hin]; [congruence|].
    apply IH; [done|done|]. intros v' t'' Hin'. apply Huniq. by right.
Qed.

(** X7.  A key that no mount of the client is a prefix of is refused by
    [get] with the error that no secrets engine exists for it, whatever
    the order the mounts are visited in, without a call to the server,
    and with nothing recorded or stored; [Get] returns the same error. *)
Theorem get_unknown_mount key s :
  (∀ v t, vaults (client s) !! v = Some t →
          strings.HasPrefix key v = false) →
  ∃ s', get key s
        = Done (inl ("Secrets engine for key ( " +:+ key
                       +:+ " ) does not exist.")) s'
    ∧ Get key s
      = Done ("", Some ("Secrets engine for key ( " +:+ key
                          +:+ " ) does not exist.")) s'
    ∧ client s' = client s ∧ viper s' = viper s ∧ trace s' = trace s.
Proof.
  intros Hnone.
  destruct (range_Done (vaults (client s)) s) as (cs & s' & Hr & Hv & Hc & Ht).
  assert (getVaultTypePath key s
          = Done ("", "", Some ("Secrets engine for key ( " +:+ key
                                  +:+ " ) does not exist.")) s') as Hgv.
  { unfold getVaultTypePath. rewrite (bind_Done _ _ s s s) by done.
    rewrite (bind_Done _ _ _ _ _ Hr). apply findMount_none.
    intros v t Hin. apply (Hnone v t).
    rewrite rangeOrder_perm in Hin. by apply elem_of_map_to_list. }
  assert (get key s
          = Done (inl ("Secrets engine for key ( " +:+ key
                         +:+ " ) does not exist.")) s') as Hget.
  { unfold get. by rewrite (bind_Done _ _ _ _ _ Hgv). }
  exists s'. split_and!; try done.
  unfold Get. by rewrite (bind_Done _ _ _ _ _ Hget).
Qed.

Lemma resolve_unique key s m t :
  vaults (client s) !! (m +:+ "/") = Some t →
  strings.HasPrefix key (m +:+ "/") = true →
  (∀ v t', vaults (client s) !! v = Some t' →
           strings.HasPrefix key v = true → v = m +:+ "/") →
  ∃ s', getVaultTypePath key s = Done (t, m, None) s'
        ∧ client s' = client s ∧ viper s' = viper s ∧ trace s' = trace s.
Proof.
  intros Hm Hpre Huniq.
  destruct (range_Done (vaults (client s)) s) as (cs & s' & Hr & Hv & Hc & Ht).
  exists s'. split_and!; try done.
  unfold getVaultTypePath. rewrite (bind_Done _ _ s s s) by done.
  rewrite (bind_Done _ _ _ _ _ Hr). apply findMount_unique; [|done|].
  - rewrite rangeOrder_perm. by apply elem_of_map_to_list.
  - intros v t' Hin Hv'. rewrite rangeOrder_perm in Hin.
    apply elem_of_map_to_list in Hin.
    pose proof (Huniq v t' Hin Hv') as ->. split; [done|]. congruence.
Qed.

(** X8.  When exactly one mount of the client is a prefix of the key,
    and its name ends in a slash, [getVaultTypePath] returns its type and
    its name without the slash, whatever the order the mounts are visited
    in, and changes nothing but the world. *)
Theorem getVaultTypePath_unique key s m t :
  vaults (client s) !! (m +:+ "/") = Some t →
  strings.HasPrefix key (m +:+ "/") = true →
  (∀ v t', vaults (client s) !! v = Some t' →
           strings.HasPrefix key v = true → v = m +:+ "/") →
  ∃ s', getVaultTypePath key s = Done (t, m, None) s'
        ∧ client s' = client s ∧ viper s' = viper s ∧ trace s' = trace s.
Proof. apply resolve_unique. Qed.

(** X9.  A key whose only mount has a type other than kv and database is
    refused by [get] with the error that the type is not supported,
    without a call to the server and with nothing recorded or stored. *)
Theorem get_unsupported_type key s m t :
  vaults (client s) !! (m +:+ "/") = Some t →
  strings.HasPrefix key (m +:+ "/") = true →
  (∀ v t', vaults (client s) !! v = Some t' →
           strings.HasPrefix key v = true → v = m +:+ "/") →
  t ≠ "kv" → t ≠ "database" →
  ∃ s', get key s
        = Done (inl ("Vault type ( " +:+ t +:+ " ) is not supported.")) s'
    ∧ client s' = client s ∧ viper s' = viper s ∧ trace s' = trace s.
Proof.
  intros Hm Hpre Huniq Hkv Hdb.
  destruct (resolve_unique key s m t Hm Hpre Huniq)
    as (s' & Hgv & ? & ? & ?).
  exists s'. split_and!; try done.
  unfold get. rewrite (bind_Done _ _ _ _ _ Hgv). cbn beta iota.
  apply String.eqb_neq in Hkv, Hdb. by rewrite Hkv, Hdb.
Qed.

(** *** What a fetch records *)

Lemma sameClient_getVaultTypePath key : keeps sameClient (getVaultTypePath key).
Proof.
  apply keeps_bind; [apply _|apply keeps_getState, _|]. intros s.
  apply keeps_bind; [apply _| |].
  { apply keeps_bind; [apply _|apply sameClient_call|].
    intros cs. apply keeps_ret, _. }
  intros items. induction items as [|[vault vtype] items IH]; simpl.
  - apply keeps_ret, _.
  - destruct (strings.HasPrefix key vault); [|done].
    apply keeps_bind; [apply _|apply keeps_liftOption, _|].
    intros mp. apply keeps_ret, _.
Qed.

Lemma sameClient_getDBCreds mountPath role :
  keeps sameClient (getDBCreds mountPath role).
Proof.
  apply keeps_bind; [apply _|by apply sameClient_emit|]. intros _.
  apply keeps_bind; [apply _|apply sameClient_call|]. intros [err|data].
  { apply keeps_ret, _. }
  destruct (dbUsername data), (dbPassword data);
    first [apply keeps_ret, _|apply keeps_panic, _].
Qed.

(** A fetch leaves the client as it is, unless it succeeds while
    watching: then it records one version or one lease. *)
Lemma get_client key s :
  client (stateOf (get key s)) = client s
  ∨ ∃ cfg data n k,
      watchConfig (client s) = Some cfg
      ∧ valueOf (get key s) = Some (inr (data, n))
      ∧ ((VersionPeriod cfg ≠ 0
          ∧ client (stateOf (get key s))
            = setVersions (<[k := n]> (versions (client s))) (client s))
         ∨ client (stateOf (get key s))
           = setLeases (<[k := n]> (leases (client s))) (client s)).
Proof.
  unfold get.
  pose proof (sameClient_getVaultTypePath key s) as [Hc0 _].
  destruct (getVaultTypePath key s) as [[[vt mp] err] s0|msg s0] eqn:Hgv;
    simpl in Hc0.
  2:{ rewrite (bind_Panic _ _ _ _ _ Hgv). by left. }
  rewrite (bind_Done _ _ _ _ _ Hgv). cbn beta iota.
  destruct err as [e|]; [by left|].
  destruct (String.eqb vt "kv").
  { destruct (_ !! 0%nat) as [key0|]; [|by left].
    destruct (_ !! 1%nat) as [key1|]; [|by left].
    pose proof (sameClient_getKV2 mp key0 key1 s0) as [Hc2 _].
    destruct (getKV2 mp key0 key1 s0) as [[e|[resp version]] s2|msg s2] eqn:Hkv;
      simpl in Hc2.
    - rewrite (bind_Done _ _ _ _ _ Hkv). left. simpl. congruence.
    - rewrite (bind_Done _ _ _ _ _ Hkv). cbn beta iota.
      rewrite (bind_Done _ _ s2 s2 s2) by done.
      destruct (watchConfig (client s2)) as [cfg|] eqn:Hcfg.
      2:{ left. simpl. congruence. }
      case_decide as Hperiod; [|left; simpl; congruence].
      right. eexists cfg, resp, version, _.
      split_and!; [congruence|done|]. left. split; [done|].
      simpl. by rewrite Hc2, Hc0.
    - rewrite (bind_Panic _ _ _ _ _ Hkv). left. simpl. congruence. }
  destruct (String.eqb vt "database"); [|by left].
  pose proof (sameClient_getDBCreds mp
                (strings.TrimPrefix key (mp +:+ "/")) s0) as [Hc2 _].
  destruct (getDBCreds mp (strings.TrimPrefix key (mp +:+ "/")) s0)
    as [[e|[resp leaseTime]] s2|msg s2] eqn:Hdb; simpl in Hc2.
  - rewrite (bind_Done _ _ _ _ _ Hdb). left. simpl. congruence.
  - rewrite (bind_Done _ _ _ _ _ Hdb). cbn beta iota.
    rewrite (bind_Done _ _ s2 s2 s2) by done.
    destruct (watchConfig (client s2)) as [cfg|] eqn:Hcfg.
    2:{ left. simpl. congruence. }
    right. eexists cfg, resp, leaseTime, _.
    split_and!; [congruence|done|]. right. simpl. by rewrite Hc2, Hc0.
  - rewrite (bind_Panic _ _ _ _ _ Hdb). left. simpl. congruence.
Qed.

(** X10.  A fetch that does not succeed, because [get] returns an error
    or panics, records nothing: the client, with its versions and leases,
    and the cache are as before, and nothing was shown to the
    subscriber. *)
Theorem failed_get_records_nothing key s :
  (∀ v, valueOf (get key s) ≠ Some (inr v)) →
  client (stateOf (get key s)) = client s
  ∧ viper (stateOf (get key s)) = viper s
  ∧ outputs (trace (stateOf (get key s))) = outputs (trace s).
Proof.
  intros Hfail.
  destruct (quiet_get key s) as (Hv & _ & _ & Ho).
  split_and!; [|done|done].
  destruct (get_client key s) as [?|(cfg & data & n & k & _ & Hval & _)];
    [done|].
  by destruct (Hfail (data, n)).
Qed.

(** X11.  A client that does not watch records nothing on any fetch, and
    a client that watches with a version period of zero never records a
    version: the maps stay as they are whether the fetch succeeds, fails
    or panics. *)
Theorem get_records_only_when_watching key s :
  (watchConfig (client s) = None →
   client (stateOf (get key s)) = client s)
  ∧ (∀ cfg, watchConfig (client s) = Some cfg → VersionPeriod cfg = 0 →
     versions (client (stateOf (get key s))) = versions (client s)).
Proof.
  split.
  - intros Hnone.
    destruct (get_client key s) as [?|(cfg & data & n & k & Hcfg & _)];
      [done|congruence].
  - intros cfg Hcfg Hperiod.
    destruct (get_client key s)
      as [->|(cfg' & data & n & k & Hcfg' & _ & [[Hne _]| ->])];
      [done|congruence|done].
Qed.

(** X12.  When the client watches and every mount the key could resolve
    to is a database mount whose name ends in a slash, a fetch that
    succeeds records the lease it returns under the key itself, whatever
    the version period, and leaves the versions on record alone. *)
Theorem get_records_lease key s cfg data n s1 :
  watchConfig (client s) = Some cfg →
  (∀ vault vtype,
     vaults (client s) !! vault = Some vtype →
     strings.HasPrefix key vault = true →
     vtype = "database" ∧ ∃ m, vault = m +:+ "/") →
  get key s = Done (inr (data, n)) s1 →
  leases (client s1) = <[key := n]> (leases (client s))
  ∧ versions (client s1) = versions (client s).
Proof.
  intros Hcfg Hmounts Hget. unfold get in Hget.
  apply bind_inv in Hget as ([[vt mp] err] & s0 & Hgv & Hget).
  destruct err as [e|]; [done|].
  apply getVaultTypePath_inv in Hgv
    as ((_ & Hc0 & _) & vault & Hlook & Hpre & Hdrop).
  destruct (Hmounts vault vt Hlook Hpre) as [-> [m ->]].
  rewrite dropLast_snoc in Hdrop. injection Hdrop as <-.
  change (String.eqb "database" "kv") with false in Hget.
  change (String.eqb "database" "database") with true in Hget.
  cbv iota in Hget.
  apply bind_inv in Hget as (r & s2 & Hdb & Hget).
  pose proof (sameClient_getDBCreds m
                (strings.TrimPrefix key (m +:+ "/")) s0) as [Hc2 _].
  rewrite Hdb in Hc2. simpl in Hc2.
  destruct r as [e|[resp leaseTime]]; [done|].
  unfold mbind, M_bind, getState in Hget.
  rewrite Hc2, Hc0, Hcfg in Hget.
  simpl in Hget. injection Hget as <- <- <-. simpl.
  rewrite Hc2, Hc0.
  rewrite <- append_assoc, (HasPrefix_TrimPrefix _ _ Hpre). done.
Qed.

End client_more.

(** * More of the watch loop *)

Section loop_more.

Context {W : Type} `{!Env W}.

Implicit Types (s : @State W) (h : watchableHeap).

Lemma pushLeases_spec items : ∀ h s,
  heapOrdered h →
  ∃ h' s', pushLeases items h s = Done h' s' ∧ worldOnly s s'
           ∧ heapOrdered h' ∧ map path h' ≡ₚ map path h ++ items.*1.
Proof.
  induction items as [|[p leaseTime] items IH]; intros h s Hord.
  { exists h, s. split_and!; [done|done|done|]. simpl. by rewrite app_nil_r. }
  cbn [pushLeases]. unfold call, mbind, M_bind.
  destruct (Now (world s)) as [w now]. cbn beta iota.
  destruct (Push_spec h (mkWatchable p
              (time.Add now (time.Seconds leaseTime))) Hord)
    as (h1 & Hpush & Hord1 & Hperm1).
  unfold heapPush. rewrite Hpush. cbn [liftOption mret M_ret].
  destruct (IH h1 (mkState w (client s) (viper s) (trace s)) Hord1)
    as (h' & s' & Hrun & (Hv & Hc & Ht) & Hord' & Hperm').
  exists h', s'. split_and!; [done|done|done|].
  rewrite Hperm', Hperm1. simpl. by rewrite Permutation_middle.
Qed.

Lemma pushVersions_spec period items : ∀ h s,
  heapOrdered h →
  ∃ h' s', pushVersions period items h s = Done h' s' ∧ worldOnly s s'
           ∧ heapOrdered h' ∧ map path h' ≡ₚ map path h ++ items.*1.
Proof.
  induction items as [|[p version] items IH]; intros h s Hord.
  { exists h, s. split_and!; [done|done|done|]. simpl. by rewrite app_nil_r. }
  cbn [pushVersions]. unfold call, mbind, M_bind.
  destruct (Now (world s)) as [w now]. cbn beta iota.
  destruct (Push_spec h (mkWatchable p (time.Add now period)) Hord)
    as (h1 & Hpush & Hord1 & Hperm1).
  unfold heapPush. rewrite Hpush. cbn [liftOption mret M_ret].
  destruct (IH h1 (mkState w (client s) (viper s) (trace s)) Hord1)
    as (h' & s' & Hrun & (Hv & Hc & Ht) & Hord' & Hperm').
  exists h', s'. split_and!; [done|done|done|].
  rewrite Hperm', Hperm1. simpl. by rewrite Permutation_middle.
Qed.

(** X13.  When something is on record to watch, [watchVault] does not
    close the alert channel: it queues one entry for every path with a
    lease on record and, unless the version period is zero, one for every
    path with a version on record, in heap order, and runs the loop from
    that queue; setting the queue up fetches nothing and changes neither
    the client nor the cache nor the trace. *)
Theorem watchVault_initial_queue s cfg :
  watchConfig (client s) = Some cfg →
  watchedPaths (client s) cfg ≠ [] →
  ∃ h s0,
    heapOrdered h
    ∧ map path h ≡ₚ watchedPaths (client s) cfg
    ∧ client s0 = client s ∧ viper s0 = viper s ∧ trace s0 = trace s
    ∧ watchVault 0 s = Done (WatchRunning h) s0
    ∧ ∀ n, watchVault n s
           = (r ← loop n h;
              match r with
              | Continue h' => mret (WatchRunning h')
              | Return h' => mret (WatchReturned h')
              end) s0.
Proof.
  intros Hcfg Hne.
  destruct (range_Done (leases (client s)) s)
    as (cs1 & s1 & Hr1 & Hv1 & Hc1 & Ht1).
  destruct (pushLeases_spec (rangeOrder cs1 (map_to_list (leases (client s))))
              [] s1 heapOrdered_nil)
    as (h1 & s2 & Hp1 & (Hv2 & Hc2 & Ht2) & Hord1 & Hperm1).
  assert (∃ h s3,
            (if decide (VersionPeriod cfg ≠ 0)
             then items ← range (versions (client s));
                  pushVersions (VersionPeriod cfg) items h1
             else mret h1) s2 = Done h s3
            ∧ worldOnly s2 s3 ∧ heapOrdered h
            ∧ map path h ≡ₚ watchedPaths (client s) cfg)
    as (h & s3 & Hp2 & (Hv3 & Hc3 & Ht3) & Hord & Hperm).
  { unfold watchedPaths. simpl in Hperm1. case_decide as Hperiod.
    - destruct (range_Done (versions (client s)) s2)
        as (cs2 & s2' & Hr2 & Hv2' & Hc2' & Ht2').
      destruct (pushVersions_spec (VersionPeriod cfg)
                  (rangeOrder cs2 (map_to_list (versions (client s))))
                  h1 s2' Hord1)
        as (h & s3 & Hp2 & (Hv3 & Hc3 & Ht3) & Hord & Hperm).
      exists h, s3. rewrite (bind_Done _ _ _ _ _ Hr2).
      split_and!; [done| |done|].
      + unfold worldOnly. split_and!; congruence.
      + by rewrite Hperm, Hperm1, !rangeOrder_perm.
    - exists h1, s2. split_and!; [done|done|done|].
      by rewrite Hperm1, rangeOrder_perm, app_nil_r. }
  assert (length h ≠ 0%nat) as Hlen.
  { intros Hz. apply Hne. apply Permutation_length in Hperm.
    rewrite length_map, Hz in Hperm. by destruct (watchedPaths _ _). }
  assert (∀ n, watchVault n s
               = (r ← loop n h;
                  match r with
                  | Continue h' => mret (WatchRunning h')
                  | Return h' => mret (WatchReturned h')
                  end) s3) as Hrun.
  { intros n. unfold watchVault. rewrite (bind_Done _ _ s s s) by done.
    rewrite (bind_Done _ _ _ _ _ Hr1), (bind_Done _ _ _ _ _ Hp1).
    rewrite Hcfg, (bind_Done _ _ s2 cfg s2) by done.
    rewrite (bind_Done _ _ _ _ _ Hp2). by rewrite decide_False. }
  exists h, s3. split_and!; [done|done|congruence..| |done].
  by rewrite Hrun.
Qed.

(** X14.  A popped entry whose mount type, looked up under the first
    segment of its path, is neither database nor, with a non-zero version
    period, kv is dropped: the turn sleeps until the entry is due, fetches
    nothing, shows nothing, and goes on with the queue as [heap.Pop] left
    it, so the path is never refreshed again. *)
Theorem unserviced_entry_dropped h s event h0 vt cfg :
  heap.Pop h = Some (event, h0) →
  eventVaultTypeOf (client s) event = Some vt →
  watchConfig (client s) = Some cfg →
  vt ≠ "database" →
  VersionPeriod cfg = 0 ∨ vt ≠ "kv" →
  loopBody h s = Done (Continue h0) (awake event s)
  ∧ client (awake event s) = client s
  ∧ viper (awake event s) = viper s
  ∧ outputs (trace (awake event s)) = outputs (trace s)
  ∧ fetches (trace (awake event s)) = fetches (trace s).
Proof.
  intros Hpop Hvt Hcfg Hdb Hkv.
  destruct (awaitDue_Done event s) as (sa & Hsa & Hc & Hv & Ho & Hf).
  assert (awake event s = sa) as -> by (unfold awake; by rewrite Hsa).
  split_and!; [|done..].
  rewrite (loopBody_service h s event h0 vt) by done.
  assert (awake event s = sa) as -> by (unfold awake; by rewrite Hsa).
  unfold service. rewrite (bind_Done _ _ sa sa sa) by done.
  rewrite Hc, Hcfg. rewrite (bind_Done _ _ sa cfg sa) by done.
  assert (bool_decide (VersionPeriod cfg ≠ 0) && isVersionable vt = false)
    as ->.
  { destruct Hkv as [Hz|Hne].
    - by rewrite bool_decide_eq_false_2 by (intros ?; done).
    - apply String.eqb_neq in Hne. unfold isVersionable. rewrite Hne.
      apply andb_false_r. }
  apply String.eqb_neq in Hdb. unfold isLeasable. by rewrite Hdb.
Qed.

(** X15.  Once the queue is empty the loop idles for good: every turn
    sleeps one second and goes on with the empty queue, so [n] turns
    leave in the trace [n] sleeps of one second and nothing else, leave
    the world as [n] such sleeps do, and fetch nothing, show nothing and
    change neither the client nor the cache. *)
Theorem empty_queue_idles n : ∀ s,
  ∃ s', loop n [] s = Done (Continue []) s'
        ∧ trace s' = trace s ++ replicate n (ESleep (time.Seconds 1))
        ∧ world s' = Nat.iter n (λ w, Sleep w (time.Seconds 1)) (world s)
        ∧ client s' = client s ∧ viper s' = viper s
        ∧ outputs (trace s') = outputs (trace s)
        ∧ fetches (trace s') = fetches (trace s).
Proof.
  induction n as [|n IH]; intros s.
  { exists s. cbn [replicate]. rewrite app_nil_r. done. }
  cbn [loop]. unfold loopBody. cbn [length]. rewrite decide_True by done.
  set (s1 := mkState (Sleep (world s) (time.Seconds 1)) (client s) (viper s)
               (trace s ++ [ESleep (time.Seconds 1)])).
  destruct (IH s1) as (s' & Hloop & Ht & Hw & Hc & Hv & Ho & Hf).
  exists s'. split_and!; [exact Hloop| | |done|done| |].
  - rewrite Ht. subst s1. cbn [trace replicate]. by rewrite <- app_assoc.
  - rewrite Hw. subst s1. cbn [world]. by rewrite Nat.iter_succ_r.
  - rewrite Ho. subst s1. cbn [trace]. rewrite outputs_snoc. apply app_nil_r.
  - rewrite Hf. subst s1. cbn [trace]. unfold fetches.
    rewrite filter_app. apply app_nil_r.
Qed.

(** *** What the loop keeps *)

Lemma requeue_step event h0 sp period :
  heapOrdered h0 →
  ∃ h', heapOrdered h'
        ∧ map path h' ≡ₚ path event :: map path h0
        ∧ (now ← call Now;
           h ← heapPush h0 (mkWatchable (path event) (time.Add now period));
           mret (Continue h)) sp
          = Done (Continue h')
              (mkState (Now (world sp)).1 (client sp) (viper sp) (trace sp)).
Proof.
  intros Hord.
  destruct (reschedule event h0 sp period (λ h, mret (Continue h)))
    as (h' & Hpush & Hperm & Heq).
  destruct (Push_spec h0 (mkWatchable (path event)
              (time.Add (Now (world sp)).2 period)) Hord)
    as (h'' & Hpush' & Hord' & _).
  rewrite Hpush in Hpush'. injection Hpush' as <-.
  exists h'. split_and!; [done| |done]. by rewrite Hperm.
Qed.

(** One turn: it shows nothing, or one write and one send for the path
    of a queued entry; the queue it leaves is in heap order and holds no
    path more often than before. *)
Lemma loopBody_step h s :
  heapOrdered h →
  (outputs (trace (stateOf (loopBody h s))) = outputs (trace s)
   ∧ viper (stateOf (loopBody h s)) = viper s
   ∨ ∃ p v, p ∈ map path h
       ∧ outputs (trace (stateOf (loopBody h s)))
         = outputs (trace s) ++ [EStore p v; ESend (mkKVEntry p v)]
       ∧ viper (stateOf (loopBody h s))
         = mkViper (<[p := v]> (secretstore (viper s))))
  ∧ ∀ c s', loopBody h s = Done c s' →
      heapOrdered (queueOf c) ∧ map path (queueOf c) ⊆+ map path h.
Proof.
  intros Hord. destruct h as [|w h].
  { unfold loopBody. cbn [length]. rewrite decide_True by done.
    split.
    - left. simpl. split; [|done]. rewrite outputs_snoc. apply app_nil_r.
    - intros c s' [= <- _]. done. }
  destruct (Pop_spec (w :: h) Hord) as (x & h0 & Hpop & Hord0 & Hperm & _);
    [done|].
  assert (map path (w :: h) ≡ₚ path x :: map path h0) as Hpaths.
  { by rewrite Hperm. }
  assert (path x ∈ map path (w :: h)) as Hin.
  { rewrite Hpaths. by left. }
  assert (map path h0 ⊆+ map path (w :: h)) as Hsub.
  { rewrite Hpaths. by apply submseteq_cons. }
  destruct (Split_head (path x) "/") as [mount Hmount].
  rewrite (loopBody_service (w :: h) s x h0
             (default "" (vaults (client s) !! (mount +:+ "/"))));
    [|done|by unfold eventVaultTypeOf; rewrite Hmount].
  destruct (awake_facts x s) as (_ & Hva & Hoa).
  revert Hva Hoa. generalize (awake x s).
  generalize (default "" (vaults (client s) !! (mount +:+ "/"))).
  intros vt sa Hva Hoa. unfold service.
  rewrite (bind_Done _ _ sa sa sa) by done.
  destruct (watchConfig (client sa)) as [cfg|].
  2:{ split; [by left|done]. }
  rewrite (bind_Done _ _ sa cfg sa) by done.
  pose proof (quiet_get (path x) sa) as (Hv1 & _ & _ & Ho1).
  destruct (bool_decide (VersionPeriod cfg ≠ 0) && isVersionable vt).
  - destruct (get (path x) sa) as [[err|[data version]] s1|msg s1] eqn:Hget;
      simpl in Hv1, Ho1.
    + rewrite (bind_Done _ _ _ _ _ Hget). split.
      * left. simpl. rewrite outputs_snoc. simpl. rewrite app_nil_r.
        split; congruence.
      * by intros c s' [= <- _].
    + rewrite (bind_Done _ _ _ _ _ Hget).
      set (sp := if decide (version > default 0 (versions (client sa) !! path x))
                 then afterPublish (path x) data s1 else s1).
      rewrite (bind_Done _ _ s1 tt sp);
        [|subst sp; case_decide; [apply publish_Done|done]].
      destruct (requeue_step x h0 sp (VersionPeriod cfg) Hord0)
        as (h' & Hord' & Hperm' & ->).
      split.
      * cbn [stateOf trace viper]. subst sp. case_decide.
        -- right. exists (path x), data. split; [done|].
           rewrite outputs_afterPublish. simpl. split; congruence.
        -- left. split; congruence.
      * intros c s' [= <- _]. split; [done|].
        simpl. by rewrite Hperm', <- Hpaths.
    + rewrite (bind_Panic _ _ _ _ _ Hget). split; [|done].
      left. simpl. split; congruence.
  - destruct (isLeasable vt).
    2:{ split; [by left|]. by intros c s' [= <- _]. }
    destruct (get (path x) sa) as [[err|[data leaseTime]] s1|msg s1] eqn:Hget;
      simpl in Hv1, Ho1.
    + rewrite (bind_Done _ _ _ _ _ Hget). split.
      * left. simpl. rewrite outputs_snoc. simpl. rewrite app_nil_r.
        split; congruence.
      * by intros c s' [= <- _].
    + rewrite (bind_Done _ _ _ _ _ Hget). rewrite publish_then.
      destruct (requeue_step x h0 (afterPublish (path x) data s1)
                  (time.Seconds leaseTime) Hord0)
        as (h' & Hord' & Hperm' & ->).
      split.
      * right. exists (path x), data. split; [done|].
        cbn [stateOf trace viper]. rewrite outputs_afterPublish. simpl.
        split; congruence.
      * intros c s' [= <- _]. split; [done|].
        simpl. by rewrite Hperm', <- Hpaths.
    + rewrite (bind_Panic _ _ _ _ _ Hget). split; [|done].
      left. simpl. split; congruence.
Qed.

Lemma publishPairs_app l1 l2 :
  publishPairs (l1 ++ l2) = publishPairs l1 ++ publishPairs l2.
Proof. unfold publishPairs. apply bind_app. Qed.

Lemma storePairs_app l1 l2 m :
  storePairs (l1 ++ l2) m = storePairs l2 (storePairs l1 m).
Proof. unfold storePairs. apply foldl_app. Qed.

Lemma storePairs_frame (ps : list string) l : ∀ m k,
  Forall (λ pv, pv.1 ∈ ps) l → k ∉ ps →
  storePairs l m !! k = m !! k.
Proof.
  induction l as [|[p v] l IH]; intros m k Hl Hk; [done|].
  apply Forall_cons in Hl as [Hp Hl].
  change (storePairs l (<[p := v]> m) !! k = m !! k).
  rewrite IH by done.
  apply lookup_insert_ne. intros ->. done.
Qed.

Lemma NoDup_submseteq_l {A} (l k : list A) : l ⊆+ k → NoDup k → NoDup l.
Proof.
  intros [k' Hk]%submseteq_Permutation Hnodup.
  rewrite Hk in Hnodup. by apply NoDup_app in Hnodup as [? _].
Qed.

Lemma loop_inv n : ∀ h s,
  heapOrdered h →
  (∃ l, Forall (λ pv, pv.1 ∈ map path h) l
        ∧ outputs (trace (stateOf (loop n h s)))
          = outputs (trace s) ++ publishPairs l
        ∧ secretstore (viper (stateOf (loop n h s)))
          = storePairs l (secretstore (viper s)))
  ∧ ∀ c s', loop n h s = Done c s' →
      heapOrdered (queueOf c) ∧ map path (queueOf c) ⊆+ map path h.
Proof.
  induction n as [|n IH]; intros h s Hord.
  { split.
    - exists []. split_and!; [done| |done]. simpl. by rewrite app_nil_r.
    - by intros c s' [= <- _]. }
  destruct (loopBody_step h s Hord) as [Hout Hqueue].
  assert (∃ l1, Forall (λ pv, pv.1 ∈ map path h) l1
                ∧ outputs (trace (stateOf (loopBody h s)))
                  = outputs (trace s) ++ publishPairs l1
                ∧ secretstore (viper (stateOf (loopBody h s)))
                  = storePairs l1 (secretstore (viper s)))
    as (l1 & Hl1 & Ho1 & Hs1).
  { destruct Hout as [[Ho Hv]|(p & v & Hp & Ho & Hv)].
    - exists []. split_and!; [done| |by rewrite Hv].
      simpl. by rewrite app_nil_r.
    - exists [(p, v)]. split_and!; [by apply Forall_singleton|done|].
      by rewrite Hv. }
  cbn [loop]. unfold mbind, M_bind.
  destruct (loopBody h s) as [[h1|h1] s1|msg s1] eqn:Hbody;
    simpl in Ho1, Hs1.
  - destruct (Hqueue (Continue h1) s1 eq_refl) as [Hord1 Hsub1].
    simpl in Hord1, Hsub1.
    destruct (IH h1 s1 Hord1) as [(l2 & Hl2 & Ho2 & Hs2) Hqueue2].
    split.
    + exists (l1 ++ l2). split_and!.
      * apply Forall_app. split; [done|].
        eapply Forall_impl; [exact Hl2|].
        intros pv Hpv. simpl in Hpv.
        by eapply elem_of_submseteq.
      * rewrite Ho2, Ho1, publishPairs_app. by rewrite app_assoc.
      * by rewrite Hs2, Hs1, storePairs_app.
    + intros c s' Hdone.
      destruct (Hqueue2 c s' Hdone) as [Hordc Hsubc].
      split; [done|]. by etrans.
  - split.
    + exists l1. simpl. done.
    + intros c s' [= <- _]. by apply (Hqueue (Return h1) s1).
  - split; [|done]. exists l1. simpl. done.
Qed.

(** X16.  However many turns the loop runs from a queue the program can
    hold, the queue it leaves is in heap order and holds no path more
    often than the queue it started from: the loop never adds a path, and
    a queue that holds every path once still does after any number of
    turns. *)
Theorem loop_keeps_queue ops0 popped0 n h s c s' :
  runOps ops0 [] = Some (h, popped0) →
  loop n h s = Done c s' →
  heapOrdered (queueOf c)
  ∧ map path (queueOf c) ⊆+ map path h
  ∧ (NoDup (map path h) → NoDup (map path (queueOf c))).
Proof.
  intros Hreach Hloop.
  assert (heapOrdered h) as Hord.
  { eapply runOps_ordered; [apply heapOrdered_nil|done]. }
  destruct (loop_inv n h s Hord) as [_ Hqueue].
  destruct (Hqueue c s' Hloop) as [Hordc Hsub].
  split_and!; [done|done|].
  intros Hnodup. by eapply NoDup_submseteq_l.
Qed.

(** X17.  However many turns the loop runs from a queue the program can
    hold, and however it ends, all it shows to the cache and the
    subscriber is a sequence of pairs, a cache write followed by the send
    of the same path and value, each for the path of an entry of the
    starting queue: the loop never closes the alert channel, the cache
    ends as these writes leave it, and the cached value of any other key
    is untouched. *)
Theorem loop_publishes_pairs ops0 popped0 n h s :
  runOps ops0 [] = Some (h, popped0) →
  ∃ l, Forall (λ pv, pv.1 ∈ map path h) l
    ∧ outputs (trace (stateOf (loop n h s)))
      = outputs (trace s) ++ publishPairs l
    ∧ secretstore (viper (stateOf (loop n h s)))
      = storePairs l (secretstore (viper s))
    ∧ ∀ k, k ∉ map path h →
        secretstore (viper (stateOf (loop n h s))) !! k
        = secretstore (viper s) !! k.
Proof.
  intros Hreach.
  assert (heapOrdered h) as Hord.
  { eapply runOps_ordered; [apply heapOrdered_nil|done]. }
  destruct (loop_inv n h s Hord) as [(l & Hl & Ho & Hs) _].
  exists l. split_and!; [done|done|done|].
  intros k Hk. rewrite Hs. by eapply storePairs_frame.
Qed.

End loop_more.

(** * More of the registration *)

Section registration_more.

Context {W : Type} `{!Env W}.

Implicit Types (s : @State W).

Lemma storeAll_covers paths : ∀ values m p,
  length values = length paths →
  p ∈ paths ∨ is_Some (m !! p) →
  is_Some (storeAll paths values m !! p).
Proof.
  induction paths as [|p0 paths IH]; intros values m p Hlen Hp.
  { destruct Hp as [Hp|Hp]; [by apply elem_of_nil in Hp|done]. }
  destruct values as [|v0 values]; [done|].
  cbn [storeAll zip zip_with foldl]. apply (IH values); [simpl in Hlen; lia|].
  destruct (decide (p = p0)) as [->|Hne].
  - right. rewrite lookup_insert_eq. eauto.
  - destruct Hp as [Hp|Hp].
    + left. apply elem_of_cons in Hp as [?|?]; done.
    + right. by rewrite lookup_insert_ne.
Qed.

(** X18.  When the client is set up and every requested path is fetched
    with success, [AddVault] returns no error, has written one value to
    the cache for each requested path in their order, so that every
    requested path has a value in the cache, and starts the watch
    goroutine exactly when a watch configuration was given; it shows
    nothing else to the cache or the subscriber. *)
Theorem AddVault_success watchConfig paths s s0 s1 :
  newClient watchConfig s = Done None s0 →
  addPaths paths s0 = Done None s1 →
  ∃ values s2, length values = length paths
    ∧ AddVault watchConfig paths s = Done None s2
    ∧ outputs (trace s2)
      = outputs (trace s) ++ zip_with EStore paths values
        ++ match watchConfig with
           | Some _ => [EGoWatchVault]
           | None => []
           end
    ∧ secretstore (viper s2) = storeAll paths values (secretstore (viper s))
    ∧ client s2 = client s1
    ∧ ∀ p, p ∈ paths → is_Some (secretstore (viper s2) !! p).
Proof.
  intros Hnew Hadd.
  pose proof (silent_newClient watchConfig s) as [Hv0 Ho0].
  rewrite Hnew in Hv0, Ho0. simpl in Hv0, Ho0.
  destruct (addPaths_Done_None paths s0 s1 Hadd)
    as (values & Hlen & Hout & Hstore).
  exists values.
  exists (match watchConfig with
          | Some _ => mkState (world s1) (client s1) (viper s1)
                        (trace s1 ++ [EGoWatchVault])
          | None => s1
          end).
  assert (secretstore (viper s1)
          = storeAll paths values (secretstore (viper s))) as Hcache
    by congruence.
  split_and!; [done| | | | |].
  - unfold AddVault. rewrite (bind_Done _ _ _ _ _ Hnew).
    rewrite (bind_Done _ _ _ _ _ Hadd). by destruct watchConfig.
  - destruct watchConfig; cbn [trace].
    + rewrite outputs_snoc, Hout, Ho0. simpl. by rewrite <- app_assoc.
    + rewrite Hout, Ho0, app_nil_r. done.
  - by destruct watchConfig.
  - by destruct watchConfig.
  - intros p Hp.
    assert (is_Some (secretstore (viper s1) !! p)).
    { rewrite Hcache. apply storeAll_covers; [done|by left]. }
    by destruct watchConfig.
Qed.

End registration_more.

(** * What a fetch returns *)

Section fetch_results.

Context {W : Type} `{!Env W}.

Implicit Types (s : @State W).

Lemma append_cons_l x a b : String x a +:+ b = String x (a +:+ b).
Proof. reflexivity. Qed.

Lemma HasPrefix_app pre rest : strings.HasPrefix (pre +:+ rest) pre = true.
Proof.
  induction pre as [|a pre IH]; [done|].
  rewrite append_cons_l. cbn [strings.HasPrefix]. by rewrite Ascii.eqb_refl.
Qed.

Lemma TrimPrefix_app pre rest : strings.TrimPrefix (pre +:+ rest) pre = rest.
Proof.
  unfold strings.TrimPrefix.
  assert (strings.strip (pre +:+ rest) pre = Some rest) as ->; [|done].
  induction pre as [|a pre IH]; [done|].
  rewrite append_cons_l. cbn [strings.strip]. by rewrite Ascii.eqb_refl.
Qed.

Lemma Split_at_sep p f sep :
  strings.Contains p sep = false →
  strings.Split (p +:+ String sep f) sep = p :: strings.Split f sep.
Proof.
  induction p as [|a p IH]; intros Hp.
  { change (EmptyString +:+ String sep f) with (String sep f).
    cbn [strings.Split]. by rewrite Ascii.eqb_refl. }
  rewrite append_cons_l. cbn [strings.Split strings.Contains] in *.
  destruct (Ascii.eqb a sep); [done|]. by rewrite (IH Hp).
Qed.

(** The mount of a key that sits under exactly one mount. *)
Lemma resolve_under m rest s t :
  vaults (client s) !! (m +:+ "/") = Some t →
  (∀ v t', vaults (client s) !! v = Some t' →
           strings.HasPrefix (m +:+ "/" +:+ rest) v = true → v = m +:+ "/") →
  getVaultTypePath (m +:+ "/" +:+ rest) s
  = Done (t, m, None)
      (mkState (RangeChoices (world s)).1 (client s) (viper s) (trace s))
  ∧ strings.TrimPrefix (m +:+ "/" +:+ rest) (m +:+ "/") = rest.
Proof.
  intros Hm Huniq.
  assert (m +:+ "/" +:+ rest = (m +:+ "/") +:+ rest) as Hkey
    by by rewrite append_assoc.
  split; [|by rewrite Hkey, TrimPrefix_app].
  unfold getVaultTypePath. rewrite (bind_Done _ _ s s s) by done.
  unfold range, call. unfold mbind at 1 2. unfold M_bind at 1 2.
  destruct (RangeChoices (world s)) as [w cs]. cbn beta iota.
  unfold mret, M_ret. cbn [fst].
  apply findMount_unique.
  - rewrite rangeOrder_perm. by apply elem_of_map_to_list.
  - rewrite Hkey. apply HasPrefix_app.
  - intros v t' Hin Hv. rewrite rangeOrder_perm in Hin.
    apply elem_of_map_to_list in Hin.
    pose proof (Huniq v t' Hin Hv) as ->. split; [done|]. congruence.
Qed.

(** X19.  For a key made of a kv mount, a slash, a path without colon,
    a colon and a field name without colon, where no other mount is a
    prefix of the key, [get] reads the path under the mount once and,
    when the secret holds a string under the field and a version number,
    returns that string with that version; [Get] returns the string.  The
    cache is not touched. *)
Theorem get_kv_returns_field m p f s w data secret n :
  vaults (client s) !! (m +:+ "/") = Some "kv" →
  (∀ v t', vaults (client s) !! v = Some t' →
           strings.HasPrefix (m +:+ "/" +:+ p +:+ ":" +:+ f) v = true →
           v = m +:+ "/") →
  strings.Contains p ":" = false →
  strings.Contains f ":" = false →
  KvV2Read (RangeChoices (world s)).1 p m = (w, inr data) →
  kvData data !! f = Some (AnyString secret) →
  kvVersion data = VersionNumber n →
  ∃ s1, get (m +:+ "/" +:+ p +:+ ":" +:+ f) s = Done (inr (secret, n)) s1
    ∧ Get (m +:+ "/" +:+ p +:+ ":" +:+ f) s = Done (secret, None) s1
    ∧ world s1 = w
    ∧ trace s1 = trace s ++ [EKvV2Read m p]
    ∧ viper s1 = viper s.
Proof.
  intros Hm Huniq Hp Hf Hread Hfield Hversion.
  destruct (resolve_under m (p +:+ ":" +:+ f) s "kv" Hm Huniq)
    as [Hgv Htrim].
  assert (∃ s1, get (m +:+ "/" +:+ p +:+ ":" +:+ f) s
                = Done (inr (secret, n)) s1
                ∧ world s1 = w
                ∧ trace s1 = trace s ++ [EKvV2Read m p]
                ∧ viper s1 = viper s) as (s1 & Hget & ? & ? & ?).
  { unfold get. rewrite (bind_Done _ _ _ _ _ Hgv). cbn beta iota.
    rewrite Htrim. change (String.eqb "kv" "kv") with true. cbv iota.
    change (p +:+ ":" +:+ f) with (p +:+ String ":" f).
    rewrite (Split_at_sep p f ":" Hp), (Split_no_sep f ":" Hf).
    cbn [lookup list_lookup].
    unfold getKV2, emit, call, getState, setClient.
    unfold mbind, M_bind. cbn [world client viper trace].
    rewrite Hread. cbn beta iota. rewrite Hfield, Hversion.
    cbn [mret M_ret client].
    destruct (watchConfig (client s)) as [cfg|];
      [case_decide|]; by eexists. }
  exists s1. split_and!; try done.
  unfold Get. by rewrite (bind_Done _ _ _ _ _ Hget).
Qed.

(** X20.  For a key made of a database mount, a slash and a role, where
    no other mount is a prefix of the key, [get] asks the server once for
    credentials of the role under the mount and, when the answer holds a
    string user name and a string password, returns the user name, a
    colon and the password, together with the lease duration of the
    answer; [Get] returns the same text.  The cache is not touched. *)
Theorem get_database_returns_credentials m role s w creds user pass :
  vaults (client s) !! (m +:+ "/") = Some "database" →
  (∀ v t', vaults (client s) !! v = Some t' →
           strings.HasPrefix (m +:+ "/" +:+ role) v = true →
           v = m +:+ "/") →
  DatabaseGenerateCredentials (RangeChoices (world s)).1 role m
  = (w, inr creds) →
  dbUsername creds = AnyString user →
  dbPassword creds = AnyString pass →
  ∃ s1, get (m +:+ "/" +:+ role) s
        = Done (inr (user +:+ ":" +:+ pass, LeaseDuration creds)) s1
    ∧ Get (m +:+ "/" +:+ role) s = Done (user +:+ ":" +:+ pass, None) s1
    ∧ world s1 = w
    ∧ trace s1 = trace s ++ [EDatabaseGenerateCredentials m role]
    ∧ viper s1 = viper s.
Proof.
  intros Hm Huniq Hcreds Huser Hpass.
  destruct (resolve_under m role s "database" Hm Huniq) as [Hgv Htrim].
  assert (∃ s1, get (m +:+ "/" +:+ role) s
                = Done (inr (user +:+ ":" +:+ pass, LeaseDuration creds)) s1
                ∧ world s1 = w
                ∧ trace s1 = trace s ++ [EDatabaseGenerateCredentials m role]
                ∧ viper s1 = viper s) as (s1 & Hget & ? & ? & ?).
  { unfold get. rewrite (bind_Done _ _ _ _ _ Hgv). cbn beta iota.
    rewrite Htrim.
    change (String.eqb "database" "kv") with false.
    change (String.eqb "database" "database") with true. cbv iota.
    unfold getDBCreds, emit, call, getState, setClient.
    unfold mbind, M_bind. cbn [world client viper trace].
    rewrite Hcreds. cbn beta iota. rewrite Huser, Hpass.
    cbn [mret M_ret client].
    destruct (watchConfig (client s)) as [cfg|]; by eexists. }
  exists s1. split_and!; try done.
  unfold Get. by rewrite (bind_Done _ _ _ _ _ Hget).
Qed.

(** X21.  For such a kv key, an error of the server's read is returned
    by [get] as it is, and a secret that has no string under the field
    makes [get] return the error that the secret does not exist, whether
    or not the secret carries a version; in both cases the read is made
    once and nothing is recorded or stored. *)
Theorem get_kv_errors m p f s w r :
  vaults (client s) !! (m +:+ "/") = Some "kv" →
  (∀ v t', vaults (client s) !! v = Some t' →
           strings.HasPrefix (m +:+ "/" +:+ p +:+ ":" +:+ f) v = true →
           v = m +:+ "/") →
  strings.Contains p ":" = false →
  strings.Contains f ":" = false →
  KvV2Read (RangeChoices (world s)).1 p m = (w, r) →
  let failed e :=
    get (m +:+ "/" +:+ p +:+ ":" +:+ f) s
    = Done (inl e)
        (mkState w (client s) (viper s) (trace s ++ [EKvV2Read m p])) in
  (∀ e, r = inl e → failed e)
  ∧ (∀ data, r = inr data →
       (∀ secret, kvData data !! f ≠ Some (AnyString secret)) →
       failed ("Secret ( " +:+ f +:+ " ) does not exist.")).
Proof.
  intros Hm Huniq Hp Hf Hread failed. subst failed. cbn beta.
  destruct (resolve_under m (p +:+ ":" +:+ f) s "kv" Hm Huniq)
    as [Hgv Htrim].
  assert (get (m +:+ "/" +:+ p +:+ ":" +:+ f) s
          = (r ← getKV2 m p f;
             match r with
             | inl e => mret (inl e)
             | inr (resp, version) =>
                 s' ← getState;
                 _ ← match watchConfig (client s') with
                     | Some cfg =>
                         if decide (VersionPeriod cfg ≠ 0) then
                           setClient (λ c, setVersions
                             (<[m +:+ "/" +:+ p +:+ ":" +:+ f := version]>
                                (versions c)) c)
                         else mret tt
                     | None => mret tt
                     end;
                 mret (inr (resp, version))
             end)
              (mkState (RangeChoices (world s)).1 (client s) (viper s)
                 (trace s))) as ->.
  { unfold get. rewrite (bind_Done _ _ _ _ _ Hgv). cbn beta iota.
    rewrite Htrim. change (String.eqb "kv" "kv") with true. cbv iota.
    change (p +:+ ":" +:+ f) with (p +:+ String ":" f).
    by rewrite (Split_at_sep p f ":" Hp), (Split_no_sep f ":" Hf). }
  unfold getKV2, emit, call. unfold mbind, M_bind.
  cbn [world client viper trace]. rewrite Hread. cbn beta iota.
  split.
  - by intros e ->.
  - intros data -> Hnone.
    destruct (kvData data !! f) as [[secret|]|] eqn:Hfield; [|done|done].
    by destruct (Hnone secret).
Qed.

(** X22.  For such a kv key, a secret that holds a string under the
    field but no version number in its metadata makes [get] panic on the
    type assertion instead of returning an error; nothing is recorded or
    stored. *)
Theorem get_kv_without_version_panics m p f s w data secret :
  vaults (client s) !! (m +:+ "/") = Some "kv" →
  (∀ v t', vaults (client s) !! v = Some t' →
           strings.HasPrefix (m +:+ "/" +:+ p +:+ ":" +:+ f) v = true →
           v = m +:+ "/") →
  strings.Contains p ":" = false →
  strings.Contains f ":" = false →
  KvV2Read (RangeChoices (world s)).1 p m = (w, inr data) →
  kvData data !! f = Some (AnyString secret) →
  kvVersion data = VersionMissing →
  get (m +:+ "/" +:+ p +:+ ":" +:+ f) s
  = Panic "interface conversion"
      (mkState w (client s) (viper s) (trace s ++ [EKvV2Read m p])).
Proof.
  intros Hm Huniq Hp Hf Hread Hfield Hversion.
  destruct (resolve_under m (p +:+ ":" +:+ f) s "kv" Hm Huniq)
    as [Hgv Htrim].
  unfold get. rewrite (bind_Done _ _ _ _ _ Hgv). cbn beta iota.
  rewrite Htrim. change (String.eqb "kv" "kv") with true. cbv iota.
  change (p +:+ ":" +:+ f) with (p +:+ String ":" f).
  rewrite (Split_at_sep p f ":" Hp), (Split_no_sep f ":" Hf).
  cbn [lookup list_lookup].
  unfold getKV2, emit, call, getState, setClient.
  unfold mbind, M_bind. cbn [world client viper trace].
  rewrite Hread. cbn beta iota. by rewrite Hfield, Hversion.
Qed.

(** X23.  For such a database key, an error of the server is returned by
    [get] as it is, and an answer whose user name or password is not a
    string makes [get] panic on the type assertion; in both cases nothing
    is recorded or stored. *)
Theorem get_database_failures m role s w r :
  vaults (client s) !! (m +:+ "/") = Some "database" →
  (∀ v t', vaults (client s) !! v = Some t' →
           strings.HasPrefix (m +:+ "/" +:+ role) v = true →
           v = m +:+ "/") →
  DatabaseGenerateCredentials (RangeChoices (world s)).1 role m = (w, r) →
  let after :=
    mkState w (client s) (viper s)
      (trace s ++ [EDatabaseGenerateCredentials m role]) in
  (∀ e, r = inl e → get (m +:+ "/" +:+ role) s = Done (inl e) after)
  ∧ (∀ creds, r = inr creds →
       dbUsername creds = AnyOther ∨ dbPassword creds = AnyOther →
       get (m +:+ "/" +:+ role) s = Panic "interface conversion" after).
Proof.
  intros Hm Huniq Hcreds after.
  destruct (resolve_under m role s "database" Hm Huniq) as [Hgv Htrim].
  split.
  - intros e ->. unfold get. rewrite (bind_Done _ _ _ _ _ Hgv).
    cbn beta iota. rewrite Htrim.
    change (String.eqb "database" "kv") with false.
    change (String.eqb "database" "database") with true. cbv iota.
    unfold getDBCreds, emit, call. unfold mbind, M_bind.
    cbn [world client viper trace]. by rewrite Hcreds.
  - intros creds -> Hbad. unfold get. rewrite (bind_Done _ _ _ _ _ Hgv).
    cbn beta iota. rewrite Htrim.
    change (String.eqb "database" "kv") with false.
    change (String.eqb "database" "database") with true. cbv iota.
    unfold getDBCreds, emit, call. unfold mbind, M_bind.
    cbn [world client viper trace]. rewrite Hcreds. cbn beta iota.
    destruct Hbad as [-> | ->]; [done|].
    by destruct (dbUsername creds).
Qed.

End fetch_results.

(** * Mounts that overlap, and a watch with nothing to watch *)

Section overlap_and_idle.

Context {W : Type} `{!Env W}.




(** Setting up a watching client leaves it with the configuration given
    and no lease on record. *)
Lemma newClient_watch cfg s s0 :
  newClient (Some cfg) s = Done None s0 →
  watchConfig (client s0) = Some cfg ∧ leases (client s0) = ∅.
Proof.
  unfold newClient. intros Hnew.
  apply bind_inv in Hnew as ([] & sa & _ & Hnew).
  apply bind_inv in Hnew as ([e|] & sb & _ & Hnew); [done|].
  apply bind_inv in Hnew as ([] & sc & Hset & Hnew).
  injection Hnew as <-.
  unfold setClient, mbind, M_bind in Hset. simpl in Hset.
  case_decide; simpl in Hset; injection Hset as <-; done.
Qed.

(** Without a database mount no fetch records a lease. *)
Lemma get_keeps_leases key s :
  (∀ v t, vaults (client s) !! v = Some t → t ≠ "database") →
  leases (client (stateOf (get key s))) = leases (client s).
Proof.
  intros Hnodb. unfold get.
  pose proof (sameClient_getVaultTypePath key s) as [Hc0 _].
  destruct (getVaultTypePath key s) as [[[vt mp] err] s0|msg s0] eqn:Hgv;
    simpl in Hc0.
  2:{ rewrite (bind_Panic _ _ _ _ _ Hgv). simpl. congruence. }
  rewrite (bind_Done _ _ _ _ _ Hgv). cbn beta iota.
  destruct err as [e|]; [simpl; congruence|].
  apply getVaultTypePath_inv in Hgv as [_ (vault & Hvault & _ & _)].
  destruct (String.eqb vt "kv").
  { destruct (_ !! 0%nat) as [key0|]; [|simpl; congruence].
    destruct (_ !! 1%nat) as [key1|]; [|simpl; congruence].
    pose proof (sameClient_getKV2 mp key0 key1 s0) as [Hc2 _].
    destruct (getKV2 mp key0 key1 s0) as [[e|[resp version]] s2|msg s2] eqn:Hkv;
      simpl in Hc2.
    - rewrite (bind_Done _ _ _ _ _ Hkv). simpl. congruence.
    - rewrite (bind_Done _ _ _ _ _ Hkv). cbn beta iota.
      rewrite (bind_Done _ _ s2 s2 s2) by done.
      destruct (watchConfig (client s2)) as [cfg|] eqn:Hcfg.
      2:{ simpl. congruence. }
      case_decide as Hperiod; simpl; congruence.
    - rewrite (bind_Panic _ _ _ _ _ Hkv). simpl. congruence. }
  destruct (String.eqb vt "database") eqn:Hdb; [|simpl; congruence].
  apply String.eqb_eq in Hdb as ->. by destruct (Hnodb _ _ Hvault).
Qed.

Lemma addPaths_keeps_leases paths : ∀ s s1,
  (∀ v t, vaults (client s) !! v = Some t → t ≠ "database") →
  addPaths paths s = Done None s1 →
  leases (client s1) = leases (client s)
  ∧ watchConfig (client s1) = watchConfig (client s).
Proof.
  induction paths as [|p paths IH]; intros s s1 Hnodb Hadd.
  { by injection Hadd as <-. }
  cbn [addPaths] in Hadd.
  apply bind_inv in Hadd as ([data [e|]] & sa & HGet & Hadd); [done|].
  destruct (Get_quiet _ _ _ _ HGet) as (_ & Hvaults & Hcfg & _).
  assert (leases (client sa) = leases (client s)) as Hleases.
  { pose proof (get_keeps_leases p s Hnodb) as Hl.
    unfold Get in HGet.
    apply bind_inv in HGet as (r & sg & Hget & Hret).
    rewrite Hget in Hl. simpl in Hl.
    destruct r as [err|[bts n]]; [done|]. by injection Hret as _ <-. }
  unfold store, emit, setViper, mbind, M_bind in Hadd. simpl in Hadd.
  apply IH in Hadd as [Hl Hc]; simpl in *; [|by rewrite Hvaults].
  split; congruence.
Qed.

(** With no lease on record and a version period of zero the watch
    closes the alert channel and returns. *)
Lemma watchVault_nothing n s cfg :
  watchConfig (client s) = Some cfg →
  leases (client s) = ∅ →
  VersionPeriod cfg = 0 →
  ∃ s', watchVault n s = Done WatchClosed s'
    ∧ trace s'
      = trace s ++ [ELogError ["No watchable paths found for vault watching."];
                    EClose]
    ∧ client s' = client s ∧ viper s' = viper s.
Proof.
  intros Hcfg Hleases Hperiod. unfold watchVault.
  rewrite (bind_Done _ _ s s s) by done. rewrite Hleases.
  destruct (range_empty (V:=Z) s) as (s1 & Hr1 & Hv1 & Hc1 & Ht1).
  rewrite (bind_Done _ _ _ _ _ Hr1). cbn [pushLeases].
  rewrite (bind_Done _ _ s1 [] s1) by done.
  rewrite Hcfg. rewrite (bind_Done _ _ s1 cfg s1) by done.
  rewrite decide_False by (intros Hne; by apply Hne).
  rewrite (bind_Done _ _ s1 [] s1) by done.
  rewrite decide_True by done.
  eexists. split; [reflexivity|]. simpl.
  rewrite <- app_assoc, Ht1. simpl. split_and!; congruence.
Qed.

(** X25.  A watch asked for with a version period of zero, on a server
    without database mount, has nothing to watch however many paths are
    registered with success: the goroutine [AddVault] starts logs an
    error, closes the alert channel and returns without a fetch, so the
    subscriber is never sent an entry and finds the channel closed. *)
Theorem AddVault_zero_period_closes cfg paths s s0 s1 :
  VersionPeriod cfg = 0 →
  newClient (Some cfg) s = Done None s0 →
  (∀ v t, vaults (client s0) !! v = Some t → t ≠ "database") →
  addPaths paths s0 = Done None s1 →
  ∀ n, ∃ s2,
    AddVaultAndWatch n (Some cfg) paths s
    = Done (None, Some WatchClosed) s2
    ∧ trace s2
      = trace s1
        ++ [EGoWatchVault;
            ELogError ["No watchable paths found for vault watching."];
            EClose]
    ∧ client s2 = client s1 ∧ viper s2 = viper s1.
Proof.
  intros Hperiod Hnew Hnodb Hadd n.
  destruct (newClient_watch _ _ _ Hnew) as [Hcfg0 Hleases0].
  destruct (addPaths_keeps_leases _ _ _ Hnodb Hadd) as [Hleases1 Hcfg1].
  set (s1' := mkState (world s1) (client s1) (viper s1)
                (trace s1 ++ [EGoWatchVault])).
  assert (AddVault (Some cfg) paths s = Done None s1') as HAdd.
  { unfold AddVault. rewrite (bind_Done _ _ _ _ _ Hnew). cbn beta iota.
    rewrite (bind_Done _ _ _ _ _ Hadd). cbn beta iota.
    by unfold emit, mbind, M_bind. }
  destruct (watchVault_nothing n s1' cfg) as (s2 & Hwatch & Ht & Hc & Hv);
    [simpl; congruence|simpl; congruence|done|].
  exists s2. unfold AddVaultAndWatch.
  rewrite (bind_Done _ _ _ _ _ HAdd). cbn beta iota.
  rewrite (bind_Done _ _ _ _ _ Hwatch).
  split_and!; [done| |done|done].
  rewrite Ht. simpl. by rewrite <- app_assoc.
Qed.

End overlap_and_idle.

(** * More worked instances *)

Section more_instances.

Import Script Cases.

Lemma drain_sorted_witness :
  runOps [OpPush lateEntry; OpPush earlyEntry] []
  = Some ([lateEntry; earlyEntry], [])
  ∧ ∃ popped,
      runOps (replicate (length [lateEntry; earlyEntry]) OpPop)
        [lateEntry; earlyEntry] = Some ([], popped)
      ∧ popped ≡ₚ [lateEntry; earlyEntry] ∧ dueSorted popped.
Proof.
  assert (runOps [OpPush lateEntry; OpPush earlyEntry] []
          = Some ([lateEntry; earlyEntry], [])) as Hreach by reflexivity.
  split; [exact Hreach|]. exact (drain_sorted _ _ _ Hreach).
Defined.

Lemma queue_conserves_entries_witness :
  runOps [OpPush lateEntry; OpPush earlyEntry; OpPop] []
  = Some ([earlyEntry], [lateEntry])
  ∧ [lateEntry] ++ [earlyEntry]
    ≡ₚ pushedOf [OpPush lateEntry; OpPush earlyEntry; OpPop].
Proof.
  assert (runOps [OpPush lateEntry; OpPush earlyEntry; OpPop] []
          = Some ([earlyEntry], [lateEntry])) as Hrun by reflexivity.
  split; [exact Hrun|]. exact (queue_conserves_entries _ _ _ Hrun).
Defined.

Lemma queue_panics_only_on_empty_pop_witness :
  runOps [OpPush lateEntry; OpPop; OpPop; OpPush earlyEntry] [] = None
  ∧ ∃ before after popped,
      [OpPush lateEntry; OpPop; OpPop; OpPush earlyEntry]
      = before ++ OpPop :: after
      ∧ runOps before [] = Some ([], popped).
Proof.
  assert (runOps [OpPush lateEntry; OpPop; OpPop; OpPush earlyEntry] []
          = None) as Hrun by reflexivity.
  split; [exact Hrun|]. exact (queue_panics_only_on_empty_pop _ Hrun).
Defined.

Lemma ConfigureVault_mounts_witness :
  let s := beforeMixedListing in
  InternalUiListEnabledVisibleMounts (world s) = (world s, inr mixedListing)
  ∧ (∀ v d, mixedListing !! v = Some d → skippedMount v = false
            → is_Some (mountType d))
  ∧ ∃ s', ConfigureVault s = Done None s'
      ∧ viper s' = viper s ∧ trace s' = trace s
      ∧ leases (client s') = leases (client s)
      ∧ versions (client s') = versions (client s)
      ∧ watchConfig (client s') = watchConfig (client s)
      ∧ ∀ v t, vaults (client s') !! v = Some t ↔
          skippedMount v = false
          ∧ ∃ d, mixedListing !! v = Some d ∧ mountType d = Some t.
Proof.
  intros s.
  assert (InternalUiListEnabledVisibleMounts (world s)
          = (world s, inr mixedListing)) as H1 by reflexivity.
  assert (∀ v d, mixedListing !! v = Some d → skippedMount v = false
                 → is_Some (mountType d)) as H2.
  { intros v d Hlook Hskip. unfold mixedListing in Hlook.
    apply lookup_insert_Some in Hlook as [[<- <-]|[_ Hlook]]; [by eexists|].
    apply lookup_insert_Some in Hlook as [[<- <-]|[_ Hlook]]; [done|].
    apply lookup_singleton_Some in Hlook as [<- <-]. done. }
  split_and!; [done..|]. exact (ConfigureVault_mounts s _ _ H1 H2).
Defined.

Lemma ConfigureVault_malformed_mount_panics_witness :
  let s := beforeMalformedListing in
  InternalUiListEnabledVisibleMounts (world s)
  = (world s, inr {[ "kv/" := MountOther ]})
  ∧ ({[ "kv/" := MountOther ]} : gmap string mountData) !! "kv/"
    = Some MountOther
  ∧ skippedMount "kv/" = false
  ∧ mountType MountOther = None
  ∧ (∃ s', ConfigureVault s = Panic "interface conversion" s'
           ∧ viper s' = viper s ∧ trace s' = trace s)
  ∧ ∀ watchConfig paths,
      ∃ s', AddVault watchConfig paths s = Panic "interface conversion" s'
            ∧ viper s' = viper s ∧ trace s' = trace s.
Proof.
  intros s.
  assert (InternalUiListEnabledVisibleMounts (world s)
          = (world s, inr {[ "kv/" := MountOther ]})) as H1 by reflexivity.
  assert (({[ "kv/" := MountOther ]} : gmap string mountData) !! "kv/"
          = Some MountOther) as H2 by reflexivity.
  assert (skippedMount "kv/" = false) as H3 by reflexivity.
  assert (mountType MountOther = None) as H4 by reflexivity.
  split_and!; [done..| |];
    apply (ConfigureVault_malformed_mount_panics s _ _ _ _ H1 H2 H3 H4).
Defined.

Lemma AddVault_listing_error_witness :
  InternalUiListEnabledVisibleMounts (world Offline.start)
  = (tt, inl "connection refused")
  ∧ AddVault None ["kv/p:f"] Offline.start
    = Done (Some "connection refused")
        (mkState tt (mkClient ∅ ∅ ∅ None) (viper Offline.start)
           (trace Offline.start))
  ∧ ∀ n, AddVaultAndWatch n None ["kv/p:f"] Offline.start
         = Done (Some "connection refused", None)
             (mkState tt (mkClient ∅ ∅ ∅ None) (viper Offline.start)
                (trace Offline.start)).
Proof.
  assert (InternalUiListEnabledVisibleMounts (world Offline.start)
          = (tt, inl "connection refused")) as H1 by reflexivity.
  split; [exact H1|].
  exact (AddVault_listing_error Offline.start tt "connection refused"
           None ["kv/p:f"] H1).
Defined.

Lemma get_unknown_mount_witness :
  let s := pkiState in
  (∀ v t, vaults (client s) !! v = Some t →
          strings.HasPrefix "kv/p:f" v = false)
  ∧ ∃ s', get "kv/p:f" s
          = Done (inl ("Secrets engine for key ( " +:+ "kv/p:f"
                         +:+ " ) does not exist.")) s'
      ∧ Get "kv/p:f" s
        = Done ("", Some ("Secrets engine for key ( " +:+ "kv/p:f"
                            +:+ " ) does not exist.")) s'
      ∧ client s' = client s ∧ viper s' = viper s ∧ trace s' = trace s.
Proof.
  intros s.
  assert (∀ v t, vaults (client s) !! v = Some t →
                 strings.HasPrefix "kv/p:f" v = false) as H1.
  { intros v t Hlook. simpl in Hlook.
    apply lookup_singleton_Some in Hlook as [<- _]. reflexivity. }
  split; [exact H1|]. exact (get_unknown_mount "kv/p:f" s H1).
Defined.

Lemma getVaultTypePath_unique_witness :
  let s := pkiState in
  vaults (client s) !! ("pki" +:+ "/") = Some "pki"
  ∧ strings.HasPrefix "pki/cert" ("pki" +:+ "/") = true
  ∧ (∀ v t', vaults (client s) !! v = Some t' →
             strings.HasPrefix "pki/cert" v = true → v = "pki" +:+ "/")
  ∧ ∃ s', getVaultTypePath "pki/cert" s = Done ("pki", "pki", None) s'
          ∧ client s' = client s ∧ viper s' = viper s ∧ trace s' = trace s.
Proof.
  intros s.
  assert (vaults (client s) !! ("pki" +:+ "/") = Some "pki") as H1
    by reflexivity.
  assert (strings.HasPrefix "pki/cert" ("pki" +:+ "/") = true) as H2
    by reflexivity.
  assert (∀ v t', vaults (client s) !! v = Some t' →
                  strings.HasPrefix "pki/cert" v = true → v = "pki" +:+ "/")
    as H3.
  { intros v t' Hlook _. simpl in Hlook.
    apply lookup_singleton_Some in Hlook as [<- _]. reflexivity. }
  split_and!; [done..|].
  exact (getVaultTypePath_unique "pki/cert" s "pki" "pki" H1 H2 H3).
Defined.

Lemma get_unsupported_type_witness :
  let s := pkiState in
  vaults (client s) !! ("pki" +:+ "/") = Some "pki"
  ∧ strings.HasPrefix "pki/cert" ("pki" +:+ "/") = true
  ∧ (∀ v t', vaults (client s) !! v = Some t' →
             strings.HasPrefix "pki/cert" v = true → v = "pki" +:+ "/")
  ∧ "pki" ≠ "kv" ∧ "pki" ≠ "database"
  ∧ ∃ s', get "pki/cert" s
          = Done (inl ("Vault type ( " +:+ "pki" +:+ " ) is not supported."))
              s'
      ∧ client s' = client s ∧ viper s' = viper s ∧ trace s' = trace s.
Proof.
  intros s.
  assert (vaults (client s) !! ("pki" +:+ "/") = Some "pki") as H1
    by reflexivity.
  assert (strings.HasPrefix "pki/cert" ("pki" +:+ "/") = true) as H2
    by reflexivity.
  assert (∀ v t', vaults (client s) !! v = Some t' →
                  strings.HasPrefix "pki/cert" v = true → v = "pki" +:+ "/")
    as H3.
  { intros v t' Hlook _. simpl in Hlook.
    apply lookup_singleton_Some in Hlook as [<- _]. reflexivity. }
  assert ("pki" ≠ "kv") as H4 by discriminate.
  assert ("pki" ≠ "database") as H5 by discriminate.
  split_and!; [done..|].
  exact (get_unsupported_type "pki/cert" s "pki" "pki" H1 H2 H3 H4 H5).
Defined.

Lemma failed_get_records_nothing_witness :
  let s := unreachableState in
  (∀ v, valueOf (get "kv/p:f" s) ≠ Some (inr v))
  ∧ client (stateOf (get "kv/p:f" s)) = client s
  ∧ viper (stateOf (get "kv/p:f" s)) = viper s
  ∧ outputs (trace (stateOf (get "kv/p:f" s))) = outputs (trace s).
Proof.
  intros s.
  assert (∀ v, valueOf (get "kv/p:f" s) ≠ Some (inr v)) as H1.
  { intros v. vm_compute. discriminate. }
  split; [exact H1|]. exact (failed_get_records_nothing "kv/p:f" s H1).
Defined.

Lemma get_records_only_when_watching_witness :
  watchConfig (client unwatchedState) = None
  ∧ client (stateOf (get "kv/p:f" unwatchedState)) = client unwatchedState.
Proof.
  assert (watchConfig (client unwatchedState) = None) as H1 by reflexivity.
  split; [exact H1|].
  exact (proj1 (get_records_only_when_watching "kv/p:f" unwatchedState) H1).
Defined.

Lemma get_records_lease_witness :
  let s := leasedState 0 in
  let s1 := stateOf (get "db/role" s) in
  watchConfig (client s) = Some (mkWatchConfig 0)
  ∧ (∀ vault vtype,
       vaults (client s) !! vault = Some vtype →
       strings.HasPrefix "db/role" vault = true →
       vtype = "database" ∧ ∃ m, vault = m +:+ "/")
  ∧ get "db/role" s = Done (inr ("u2:p2", 60)) s1
  ∧ leases (client s1) = <["db/role" := 60]> (leases (client s))
  ∧ versions (client s1) = versions (client s).
Proof.
  intros s s1.
  assert (watchConfig (client s) = Some (mkWatchConfig 0)) as H1
    by reflexivity.
  assert (∀ vault vtype,
            vaults (client s) !! vault = Some vtype →
            strings.HasPrefix "db/role" vault = true →
            vtype = "database" ∧ ∃ m, vault = m +:+ "/") as H2.
  { intros vault vtype Hlook _. simpl in Hlook.
    apply lookup_singleton_Some in Hlook as [<- <-].
    split; [done|]. by exists "db". }
  assert (get "db/role" s = Done (inr ("u2:p2", 60)) s1) as H3
    by (vm_compute; reflexivity).
  split_and!; [done..| |]; apply (get_records_lease "db/role" s _ _ _ s1 H1 H2 H3).
Defined.

Lemma watchVault_initial_queue_witness :
  let s := leasedState 0 in
  let cfg := mkWatchConfig 0 in
  watchConfig (client s) = Some cfg
  ∧ watchedPaths (client s) cfg ≠ []
  ∧ ∃ h s0,
      heapOrdered h
      ∧ map path h ≡ₚ watchedPaths (client s) cfg
      ∧ client s0 = client s ∧ viper s0 = viper s ∧ trace s0 = trace s
      ∧ watchVault 0 s = Done (WatchRunning h) s0
      ∧ ∀ n, watchVault n s
             = (r ← loop n h;
                match r with
                | Continue h' => mret (WatchRunning h')
                | Return h' => mret (WatchReturned h')
                end) s0.
Proof.
  intros s cfg.
  assert (watchConfig (client s) = Some cfg) as H1 by reflexivity.
  assert (watchedPaths (client s) cfg ≠ []) as H2
    by (vm_compute; discriminate).
  split_and!; [done..|]. exact (watchVault_initial_queue s cfg H1 H2).
Defined.

Lemma unserviced_entry_dropped_witness :
  let s := leasedState 0 in
  heap.Pop [strayEvent] = Some (strayEvent, [])
  ∧ eventVaultTypeOf (client s) strayEvent = Some ""
  ∧ watchConfig (client s) = Some (mkWatchConfig 0)
  ∧ "" ≠ "database"
  ∧ (VersionPeriod (mkWatchConfig 0) = 0 ∨ "" ≠ "kv")
  ∧ loopBody [strayEvent] s = Done (Continue []) (awake strayEvent s)
  ∧ client (awake strayEvent s) = client s
  ∧ viper (awake strayEvent s) = viper s
  ∧ outputs (trace (awake strayEvent s)) = outputs (trace s)
  ∧ fetches (trace (awake strayEvent s)) = fetches (trace s).
Proof.
  intros s.
  assert (heap.Pop [strayEvent] = Some (strayEvent, [])) as H1
    by reflexivity.
  assert (eventVaultTypeOf (client s) strayEvent = Some "") as H2
    by reflexivity.
  assert (watchConfig (client s) = Some (mkWatchConfig 0)) as H3
    by reflexivity.
  assert ("" ≠ "database") as H4 by discriminate.
  assert (VersionPeriod (mkWatchConfig 0) = 0 ∨ "" ≠ "kv") as H5
    by (left; reflexivity).
  split_and!; [done..| | | | |];
    apply (unserviced_entry_dropped [strayEvent] s strayEvent [] ""
             (mkWatchConfig 0) H1 H2 H3 H4 H5).
Defined.

Lemma loop_keeps_queue_witness :
  let s := versionedState 1 2 0 in
  let c := Continue [mkWatchable "kv/p:f" 20000000000] in
  let s' := stateOf (loop 1 [versionedEvent] s) in
  runOps [OpPush versionedEvent] [] = Some ([versionedEvent], [])
  ∧ loop 1 [versionedEvent] s = Done c s'
  ∧ heapOrdered (queueOf c)
  ∧ map path (queueOf c) ⊆+ map path [versionedEvent]
  ∧ (NoDup (map path [versionedEvent]) → NoDup (map path (queueOf c))).
Proof.
  intros s c s'.
  assert (runOps [OpPush versionedEvent] [] = Some ([versionedEvent], []))
    as H1 by reflexivity.
  assert (loop 1 [versionedEvent] s = Done c s') as H2
    by (vm_compute; reflexivity).
  split_and!; [done..| | |];
    apply (loop_keeps_queue _ _ 1 [versionedEvent] s c s' H1 H2).
Defined.

Lemma loop_publishes_pairs_witness :
  let s := versionedState 1 2 0 in
  runOps [OpPush versionedEvent] [] = Some ([versionedEvent], [])
  ∧ ∃ l, Forall (λ pv, pv.1 ∈ map path [versionedEvent]) l
      ∧ outputs (trace (stateOf (loop 3 [versionedEvent] s)))
        = outputs (trace s) ++ publishPairs l
      ∧ secretstore (viper (stateOf (loop 3 [versionedEvent] s)))
        = storePairs l (secretstore (viper s))
      ∧ ∀ k, k ∉ map path [versionedEvent] →
          secretstore (viper (stateOf (loop 3 [versionedEvent] s))) !! k
          = secretstore (viper s) !! k.
Proof.
  intros s.
  assert (runOps [OpPush versionedEvent] [] = Some ([versionedEvent], []))
    as H1 by reflexivity.
  split; [exact H1|].
  exact (loop_publishes_pairs _ _ 3 [versionedEvent] s H1).
Defined.

Lemma AddVault_success_witness :
  let s := beforeAddVault in
  let s0 := stateOf (newClient None s) in
  let s1 := stateOf (addPaths ["kv/p:f"] s0) in
  newClient None s = Done None s0
  ∧ addPaths ["kv/p:f"] s0 = Done None s1
  ∧ ∃ values s2, length values = length ["kv/p:f"]
      ∧ AddVault None ["kv/p:f"] s = Done None s2
      ∧ outputs (trace s2)
        = outputs (trace s) ++ zip_with EStore ["kv/p:f"] values ++ []
      ∧ secretstore (viper s2)
        = storeAll ["kv/p:f"] values (secretstore (viper s))
      ∧ client s2 = client s1
      ∧ ∀ p, p ∈ ["kv/p:f"] → is_Some (secretstore (viper s2) !! p).
Proof.
  intros s s0 s1.
  assert (newClient None s = Done None s0) as H1
    by (vm_compute; reflexivity).
  assert (addPaths ["kv/p:f"] s0 = Done None s1) as H2
    by (vm_compute; reflexivity).
  split_and!; [done..|].
  exact (AddVault_success None ["kv/p:f"] s s0 s1 H1 H2).
Defined.

Lemma get_kv_returns_field_witness :
  let s := versionedState 1 2 0 in
  let w := mkWorld 10000000000 kvMount [] [] 0 in
  let data := mkKvV2 {[ "f" := AnyString "v2" ]} (VersionNumber 2) in
  vaults (client s) !! ("kv" +:+ "/") = Some "kv"
  ∧ (∀ v t', vaults (client s) !! v = Some t' →
             strings.HasPrefix ("kv" +:+ "/" +:+ "p" +:+ ":" +:+ "f") v = true →
             v = "kv" +:+ "/")
  ∧ strings.Contains "p" ":" = false
  ∧ strings.Contains "f" ":" = false
  ∧ KvV2Read (RangeChoices (world s)).1 "p" "kv" = (w, inr data)
  ∧ kvData data !! "f" = Some (AnyString "v2")
  ∧ kvVersion data = VersionNumber 2
  ∧ ∃ s1, get ("kv" +:+ "/" +:+ "p" +:+ ":" +:+ "f") s
          = Done (inr ("v2", 2)) s1
      ∧ Get ("kv" +:+ "/" +:+ "p" +:+ ":" +:+ "f") s = Done ("v2", None) s1
      ∧ world s1 = w
      ∧ trace s1 = trace s ++ [EKvV2Read "kv" "p"]
      ∧ viper s1 = viper s.
Proof.
  intros s w data.
  assert (vaults (client s) !! ("kv" +:+ "/") = Some "kv") as H1
    by reflexivity.
  assert (∀ v t', vaults (client s) !! v = Some t' →
            strings.HasPrefix ("kv" +:+ "/" +:+ "p" +:+ ":" +:+ "f") v = true →
            v = "kv" +:+ "/") as H2.
  { intros v t' Hlook _. simpl in Hlook.
    apply lookup_singleton_Some in Hlook as [<- _]. reflexivity. }
  assert (strings.Contains "p" ":" = false) as H3 by reflexivity.
  assert (strings.Contains "f" ":" = false) as H4 by reflexivity.
  assert (KvV2Read (RangeChoices (world s)).1 "p" "kv" = (w, inr data))
    as H5 by reflexivity.
  assert (kvData data !! "f" = Some (AnyString "v2")) as H6 by reflexivity.
  assert (kvVersion data = VersionNumber 2) as H7 by reflexivity.
  split_and!; [done..|].
  exact (get_kv_returns_field "kv" "p" "f" s w data "v2" 2
           H1 H2 H3 H4 H5 H6 H7).
Defined.

Lemma get_database_returns_credentials_witness :
  let s := leasedState 0 in
  let w := mkWorld 300000000000 dbMount [] [] 0 in
  let creds := mkDbCreds (AnyString "u2") (AnyString "p2") 60 in
  vaults (client s) !! ("db" +:+ "/") = Some "database"
  ∧ (∀ v t', vaults (client s) !! v = Some t' →
             strings.HasPrefix ("db" +:+ "/" +:+ "role") v = true →
             v = "db" +:+ "/")
  ∧ DatabaseGenerateCredentials (RangeChoices (world s)).1 "role" "db"
    = (w, inr creds)
  ∧ dbUsername creds = AnyString "u2"
  ∧ dbPassword creds = AnyString "p2"
  ∧ ∃ s1, get ("db" +:+ "/" +:+ "role") s
          = Done (inr ("u2" +:+ ":" +:+ "p2", LeaseDuration creds)) s1
      ∧ Get ("db" +:+ "/" +:+ "role") s
        = Done ("u2" +:+ ":" +:+ "p2", None) s1
      ∧ world s1 = w
      ∧ trace s1 = trace s ++ [EDatabaseGenerateCredentials "db" "role"]
      ∧ viper s1 = viper s.
Proof.
  intros s w creds.
  assert (vaults (client s) !! ("db" +:+ "/") = Some "database") as H1
    by reflexivity.
  assert (∀ v t', vaults (client s) !! v = Some t' →
            strings.HasPrefix ("db" +:+ "/" +:+ "role") v = true →
            v = "db" +:+ "/") as H2.
  { intros v t' Hlook _. simpl in Hlook.
    apply lookup_singleton_Some in Hlook as [<- _]. reflexivity. }
  assert (DatabaseGenerateCredentials (RangeChoices (world s)).1 "role" "db"
          = (w, inr creds)) as H3 by reflexivity.
  assert (dbUsername creds = AnyString "u2") as H4 by reflexivity.
  assert (dbPassword creds = AnyString "p2") as H5 by reflexivity.
  split_and!; [done..|].
  exact (get_database_returns_credentials "db" "role" s w creds "u2" "p2"
           H1 H2 H3 H4 H5).
Defined.

Lemma get_kv_errors_witness :
  let s := fieldlessState in
  let w := mkWorld 10000000000 kvMount [] [] 0 in
  let data := mkKvV2 ∅ VersionMissing in
  vaults (client s) !! ("kv" +:+ "/") = Some "kv"
  ∧ (∀ v t', vaults (client s) !! v = Some t' →
             strings.HasPrefix ("kv" +:+ "/" +:+ "p" +:+ ":" +:+ "f") v = true →
             v = "kv" +:+ "/")
  ∧ strings.Contains "p" ":" = false
  ∧ strings.Contains "f" ":" = false
  ∧ KvV2Read (RangeChoices (world s)).1 "p" "kv" = (w, inr data)
  ∧ (∀ secret, kvData data !! "f" ≠ Some (AnyString secret))
  ∧ get ("kv" +:+ "/" +:+ "p" +:+ ":" +:+ "f") s
    = Done (inl ("Secret ( " +:+ "f" +:+ " ) does not exist."))
        (mkState w (client s) (viper s) (trace s ++ [EKvV2Read "kv" "p"])).
Proof.
  intros s w data.
  assert (vaults (client s) !! ("kv" +:+ "/") = Some "kv") as H1
    by reflexivity.
  assert (∀ v t', vaults (client s) !! v = Some t' →
            strings.HasPrefix ("kv" +:+ "/" +:+ "p" +:+ ":" +:+ "f") v = true →
            v = "kv" +:+ "/") as H2.
  { intros v t' Hlook _. simpl in Hlook.
    apply lookup_singleton_Some in Hlook as [<- _]. reflexivity. }
  assert (strings.Contains "p" ":" = false) as H3 by reflexivity.
  assert (strings.Contains "f" ":" = false) as H4 by reflexivity.
  assert (KvV2Read (RangeChoices (world s)).1 "p" "kv" = (w, inr data))
    as H5 by reflexivity.
  assert (∀ secret, kvData data !! "f" ≠ Some (AnyString secret)) as H6
    by (intros secret; discriminate).
  split_and!; [done..|].
  exact (proj2 (get_kv_errors "kv" "p" "f" s w (inr data) H1 H2 H3 H4 H5)
           data eq_refl H6).
Defined.

Lemma get_kv_without_version_panics_witness :
  let s := versionlessState in
  let w := mkWorld 10000000000 kvMount [] [] 0 in
  let data := mkKvV2 {[ "f" := AnyString "v" ]} VersionMissing in
  vaults (client s) !! ("kv" +:+ "/") = Some "kv"
  ∧ (∀ v t', vaults (client s) !! v = Some t' →
             strings.HasPrefix ("kv" +:+ "/" +:+ "p" +:+ ":" +:+ "f") v = true →
             v = "kv" +:+ "/")
  ∧ strings.Contains "p" ":" = false
  ∧ strings.Contains "f" ":" = false
  ∧ KvV2Read (RangeChoices (world s)).1 "p" "kv" = (w, inr data)
  ∧ kvData data !! "f" = Some (AnyString "v")
  ∧ kvVersion data = VersionMissing
  ∧ get ("kv" +:+ "/" +:+ "p" +:+ ":" +:+ "f") s
    = Panic "interface conversion"
        (mkState w (client s) (viper s) (trace s ++ [EKvV2Read "kv" "p"])).
Proof.
  intros s w data.
  assert (vaults (client s) !! ("kv" +:+ "/") = Some "kv") as H1
    by reflexivity.
  assert (∀ v t', vaults (client s) !! v = Some t' →
            strings.HasPrefix ("kv" +:+ "/" +:+ "p" +:+ ":" +:+ "f") v = true →
            v = "kv" +:+ "/") as H2.
  { intros v t' Hlook _. simpl in Hlook.
    apply lookup_singleton_Some in Hlook as [<- _]. reflexivity. }
  assert (strings.Contains "p" ":" = false) as H3 by reflexivity.
  assert (strings.Contains "f" ":" = false) as H4 by reflexivity.
  assert (KvV2Read (RangeChoices (world s)).1 "p" "kv" = (w, inr data))
    as H5 by reflexivity.
  assert (kvData data !! "f" = Some (AnyString "v")) as H6 by reflexivity.
  assert (kvVersion data = VersionMissing) as H7 by reflexivity.
  split_and!; [done..|].
  exact (get_kv_without_version_panics "kv" "p" "f" s w data "v"
           H1 H2 H3 H4 H5 H6 H7).
Defined.

Lemma get_database_failures_witness :
  let s := badCredentialsState in
  let w := mkWorld 300000000000 dbMount [] [] 0 in
  let creds := mkDbCreds (AnyString "u") AnyOther 60 in
  vaults (client s) !! ("db" +:+ "/") = Some "database"
  ∧ (∀ v t', vaults (client s) !! v = Some t' →
             strings.HasPrefix ("db" +:+ "/" +:+ "role") v = true →
             v = "db" +:+ "/")
  ∧ DatabaseGenerateCredentials (RangeChoices (world s)).1 "role" "db"
    = (w, inr creds)
  ∧ (dbUsername creds = AnyOther ∨ dbPassword creds = AnyOther)
  ∧ get ("db" +:+ "/" +:+ "role") s
    = Panic "interface conversion"
        (mkState w (client s) (viper s)
           (trace s ++ [EDatabaseGenerateCredentials "db" "role"])).
Proof.
  intros s w creds.
  assert (vaults (client s) !! ("db" +:+ "/") = Some "database") as H1
    by reflexivity.
  assert (∀ v t', vaults (client s) !! v = Some t' →
            strings.HasPrefix ("db" +:+ "/" +:+ "role") v = true →
            v = "db" +:+ "/") as H2.
  { intros v t' Hlook _. simpl in Hlook.
    apply lookup_singleton_Some in Hlook as [<- _]. reflexivity. }
  assert (DatabaseGenerateCredentials (RangeChoices (world s)).1 "role" "db"
          = (w, inr creds)) as H3 by reflexivity.
  assert (dbUsername creds = AnyOther ∨ dbPassword creds = AnyOther) as H4
    by (right; reflexivity).
  split_and!; [done..|].
  exact (proj2 (get_database_failures "db" "role" s w (inr creds) H1 H2 H3)
           creds eq_refl H4).
Defined.


Lemma AddVault_zero_period_closes_witness :
  let cfg := mkWatchConfig 0 in
  let s := beforeAddVault in
  let s0 := mkState (mkWorld 0 kvMount [kvOk "f" "v1" 1] [] 0)
              (mkClient {[ "kv/" := "kv" ]} ∅ ∅ (Some cfg)) (mkViper ∅) [] in
  let s1 := stateOf (addPaths ["kv/p:f"] s0) in
  VersionPeriod cfg = 0
  ∧ newClient (Some cfg) s = Done None s0
  ∧ (∀ v t, vaults (client s0) !! v = Some t → t ≠ "database")
  ∧ addPaths ["kv/p:f"] s0 = Done None s1
  ∧ ∀ n, ∃ s2,
      AddVaultAndWatch n (Some cfg) ["kv/p:f"] s
      = Done (None, Some WatchClosed) s2
      ∧ trace s2
        = trace s1
          ++ [EGoWatchVault;
              ELogError ["No watchable paths found for vault watching."];
              EClose]
      ∧ client s2 = client s1 ∧ viper s2 = viper s1.
Proof.
  intros cfg s s0 s1.
  assert (VersionPeriod cfg = 0) as H1 by reflexivity.
  assert (newClient (Some cfg) s = Done None s0) as H2
    by (vm_compute; reflexivity).
  assert (∀ v t, vaults (client s0) !! v = Some t → t ≠ "database") as H3.
  { intros v t Hlook. simpl in Hlook.
    apply lookup_singleton_Some in Hlook as [_ <-]. discriminate. }
  assert (addPaths ["kv/p:f"] s0 = Done None s1) as H4
    by (vm_compute; reflexivity).
  split_and!; [done..|].
  exact (AddVault_zero_period_closes cfg ["kv/p:f"] s s0 s1 H1 H2 H3 H4).
Defined.

End more_instances.
